(** * Notes processing service: extraction heuristics and pipeline

    A shallow embedding of [src/notes/main.py]: the three pattern
    extractors, the theme clusterer, the fallback summarizer and the
    pipeline orchestrator, followed by the properties proved about them.

    Text is modelled as a list of characters, each character being a code
    point below 256 (the ASCII and Latin-1 blocks, on which Python's
    [str.lower], [str.isspace], and the [re] classes [\w], [\d], [\b] are
    character-wise and are transcribed below table by table).

    Numbers are IEEE 754 binary64 floating-point numbers, the [float64]
    of numpy and the [float] of Python, with the operations of the
    standard library's [SpecFloat]: every operation rounds to nearest,
    ties to even. *)

From Stdlib Require Import Ascii String DecimalString.
From Stdlib Require Import List Arith PeanoNat NArith Bool Lia.
From Stdlib Require Import Permutation Sorted.
From Stdlib Require Import ZArith.
From Stdlib Require SpecFloat.
Import ListNotations.

Set Implicit Arguments.

(* ================================================================= *)
(** ** Characters and Python string operations *)

Module Py.

Definition str := list ascii.

(** String literals of the source are written [s2l "..."]. *)
Definition s2l (s : string) : str := list_ascii_of_string s.

Definition code (c : ascii) : nat := nat_of_ascii c.

Definition in_range (lo hi : nat) (c : ascii) : bool :=
  (lo <=? code c) && (code c <=? hi).

Definition is_code (n : nat) (c : ascii) : bool := code c =? n.

(** Cased upper-case code points below 256: A-Z, and the Latin-1 capitals
    U+00C0..U+00DE without the multiplication sign U+00D7. *)
Definition is_upper (c : ascii) : bool :=
  in_range 65 90 c || in_range 192 214 c || in_range 216 222 c.

(** [ch.lower()] for one character. *)
Definition to_lower (c : ascii) : ascii :=
  if is_upper c then ascii_of_nat (code c + 32) else c.

(** [str.isalnum] below 256: digits, letters, the ordinal indicators,
    superscript digits, the micro sign, the vulgar fractions and the
    Latin-1 letters. *)
Definition is_alnum (c : ascii) : bool :=
  in_range 48 57 c || in_range 65 90 c || in_range 97 122 c
  || is_code 170 c || is_code 178 c || is_code 179 c || is_code 181 c
  || is_code 185 c || is_code 186 c || in_range 188 190 c
  || in_range 192 214 c || in_range 216 246 c || in_range 248 255 c.

(** [\w] of a [str] pattern: alphanumeric or underscore. *)
Definition is_word (c : ascii) : bool := is_alnum c || is_code 95 c.

(** [\d] of a [str] pattern: decimal digits. *)
Definition is_digit (c : ascii) : bool := in_range 48 57 c.

(** [str.isspace] below 256. *)
Definition is_space (c : ascii) : bool :=
  in_range 9 13 c || in_range 28 32 c || is_code 133 c || is_code 160 c.

(** [s.lower()] *)
Definition lower (s : str) : str := map to_lower s.

(** [s.lstrip()], [s.rstrip()], [s.strip()] *)
Fixpoint lstrip (s : str) : str :=
  match s with
  | [] => []
  | c :: s' => if is_space c then lstrip s' else s
  end.

Definition rstrip (s : str) : str := rev (lstrip (rev s)).

Definition strip (s : str) : str := rstrip (lstrip s).

(** Truthiness of a string: [if s:] *)
Definition truthy (s : str) : bool :=
  match s with [] => false | _ => true end.

(** [s.split(sep)] for a one-character separator. *)
Fixpoint split_on (sep : ascii) (s : str) : list str :=
  match s with
  | [] => [[]]
  | c :: s' =>
      if Ascii.eqb c sep then [] :: split_on sep s'
      else match split_on sep s' with
           | w :: ws => (c :: w) :: ws
           | [] => [[c]]
           end
  end.

(** [s.split()]: the maximal runs of non-whitespace characters. *)
Fixpoint split_ws (s : str) : list str :=
  match s with
  | [] => []
  | c :: s' =>
      if is_space c then split_ws s'
      else match s' with
           | [] => [[c]]
           | d :: _ =>
               if is_space d then [c] :: split_ws s'
               else match split_ws s' with
                    | w :: ws => (c :: w) :: ws
                    | [] => [[c]]
                    end
           end
  end.

(** [s.count(ch)] for a one-character needle. *)
Definition count_char (ch : ascii) (s : str) : nat :=
  length (filter (Ascii.eqb ch) s).

(** [ch in s] for a one-character needle. *)
Definition has_char (ch : ascii) (s : str) : bool :=
  existsb (Ascii.eqb ch) s.

Fixpoint starts_with (p s : str) : bool :=
  match p, s with
  | [], _ => true
  | a :: p', b :: s' => Ascii.eqb a b && starts_with p' s'
  | _ :: _, [] => false
  end.

(** [sub in s]: substring test. *)
Fixpoint contains (sub s : str) : bool :=
  starts_with sub s ||
  match s with
  | [] => false
  | _ :: s' => contains sub s'
  end.

(** [s[:n]] and [s[i:j]] for in-range non-negative bounds. *)
Definition upto (n : nat) (s : str) : str := firstn n s.
Definition slice (i j : nat) (s : str) : str := firstn (j - i) (skipn i s).

(** [s[:n] + ('...' if len(t) > n else '')] *)
Definition ellipsis : str := s2l "...".

Definition clip (n : nat) (s t : str) : str :=
  upto n s ++ (if n <? length t then ellipsis else []).

End Py.

Import Py.

(* ================================================================= *)
(** ** The fragment of Python's [re] used by the extractors

    A backtracking matcher in continuation-passing style: alternatives are
    tried left to right, [?] and [+] are greedy, and the first success in
    that order is the match, as in [sre].  All patterns of the source are
    compiled with [re.IGNORECASE]. *)

Module Re.

Inductive cclass : Type :=
| CSet (cs : list ascii)      (* [...] of listed characters *)
| CWord                       (* \w *)
| CDigit.                     (* \d *)

Inductive regex : Type :=
| Eps
| Lit (c : ascii)
| Cls (cl : cclass)
| Cat (r1 r2 : regex)
| Or (r1 r2 : regex)
| Opt (r : regex)             (* r?  greedy *)
| Plus (r : regex)            (* r+  greedy *)
| Bnd                         (* \b *)
| Group (r : regex).          (* ( r ), the pattern's group 1 *)

Definition in_class (cl : cclass) (x : ascii) : bool :=
  match cl with
  | CSet cs => existsb (fun c => Ascii.eqb (to_lower x) (to_lower c)) cs
  | CWord => is_word x
  | CDigit => is_digit x
  end.

(** A literal under IGNORECASE: the subject character matches when its
    lower case is the literal's lower case. *)
Definition lit_match (c x : ascii) : bool :=
  Ascii.eqb (to_lower x) (to_lower c).

Definition word_at (s : str) (i : nat) : bool :=
  match nth_error s i with
  | Some c => is_word c
  | None => false
  end.

(** [\b] at position [i]: exactly one of the characters before and at [i]
    is a word character (a missing character counts as non-word). *)
Definition at_boundary (s : str) (i : nat) : bool :=
  xorb (match i with 0 => false | S p => word_at s p end) (word_at s i).

(** Position and extent of group 1, when it took part in the match. *)
Definition caps := option (nat * nat).
Definition cont := nat -> caps -> option (nat * caps).

(** The loop of a greedy [+]: one more round of the body, then as many
    further rounds as match, giving them back one at a time.  A round
    that consumes nothing ends the loop. *)
Fixpoint rounds (body : nat -> caps -> cont -> option (nat * caps))
  (k : cont) (fuel i : nat) (g : caps) {struct fuel} : option (nat * caps) :=
  match fuel with
  | 0 => None
  | S fuel' =>
      body i g (fun j g' =>
        if j <=? i then k j g'
        else match rounds body k fuel' j g' with
             | Some m => Some m
             | None => k j g'
             end)
  end.

Fixpoint run (s : str) (r : regex) (i : nat) (g : caps) (k : cont)
  {struct r} : option (nat * caps) :=
  match r with
  | Eps => k i g
  | Lit c =>
      match nth_error s i with
      | Some x => if lit_match c x then k (S i) g else None
      | None => None
      end
  | Cls cl =>
      match nth_error s i with
      | Some x => if in_class cl x then k (S i) g else None
      | None => None
      end
  | Cat a b => run s a i g (fun j g' => run s b j g' k)
  | Or a b =>
      match run s a i g k with
      | Some m => Some m
      | None => run s b i g k
      end
  | Opt a =>
      match run s a i g k with
      | Some m => Some m
      | None => k i g
      end
  | Plus a => rounds (run s a) k (S (length s)) i g
  | Bnd => if at_boundary s i then k i g else None
  | Group a => run s a i g (fun j _ => k j (Some (i, j)))
  end.

(** A match object: start, end, group 1. *)
Record rmatch : Type := MkMatch { m_start : nat; m_end : nat; m_group1 : caps }.

(** The match anchored at position [i], if any. *)
Definition match_at (s : str) (r : regex) (i : nat) : option rmatch :=
  match run s r i None (fun j g => Some (j, g)) with
  | Some (j, g) => Some (MkMatch i j g)
  | None => None
  end.

(** [re.search]: the first start position, from [i] on, that matches. *)
Fixpoint search_from (s : str) (r : regex) (fuel i : nat) : option rmatch :=
  match fuel with
  | 0 => None
  | S fuel' =>
      match match_at s r i with
      | Some m => Some m
      | None => search_from s r fuel' (S i)
      end
  end.

Definition search (r : regex) (s : str) : option rmatch :=
  search_from s r (S (length s)) 0.

(** [re.finditer]: successive non-overlapping matches, left to right; the
    scan resumes where the previous match ended (one further for an empty
    match). *)
Fixpoint scan (s : str) (r : regex) (fuel i : nat) : list rmatch :=
  match fuel with
  | 0 => []
  | S fuel' =>
      if length s <? i then []
      else match match_at s r i with
           | Some m =>
               m :: scan s r fuel' (if i <? m_end m then m_end m else S i)
           | None => scan s r fuel' (S i)
           end
  end.

Definition finditer (r : regex) (s : str) : list rmatch :=
  scan s r (S (length s)) 0.

(** [match.group()] and [match.group(1)] *)
Definition group0 (s : str) (m : rmatch) : str :=
  slice (m_start m) (m_end m) s.

Definition group1 (s : str) (m : rmatch) : option str :=
  match m_group1 m with
  | Some (a, b) => Some (slice a b s)
  | None => None
  end.

(** [re.findall] for a pattern without groups: the matched strings. *)
Definition findall (r : regex) (s : str) : list str :=
  map (group0 s) (finditer r s).

(** *** Pattern construction *)

Fixpoint lits (w : str) : regex :=
  match w with
  | [] => Eps
  | [c] => Lit c
  | c :: w' => Cat (Lit c) (lits w')
  end.

Definition word (w : string) : regex := lits (s2l w).

Fixpoint alts (rs : list regex) : regex :=
  match rs with
  | [] => Eps
  | [r] => r
  | r :: rs' => Or r (alts rs')
  end.

Fixpoint cats (rs : list regex) : regex :=
  match rs with
  | [] => Eps
  | [r] => r
  | r :: rs' => Cat r (cats rs')
  end.

(** [\b(?: r1 | ... | rn )\b] *)
Definition bounded (rs : list regex) : regex :=
  Cat Bnd (Cat (alts rs) Bnd).

End Re.

Import Re.

(* ================================================================= *)
(** ** Data model *)

(** A transcript segment as stored: a JSON object whose keys may be
    absent.  [t.get('content', '')] is [get_content]. *)
Record segment : Type := MkSegment {
  content : option str;
  speaker_id : option str;
  timestamp : option str
}.

Definition get_content (t : segment) : str :=
  match content t with
  | Some c => c
  | None => []
  end.

(** A pattern of the source: its text and its compiled form. *)
Record pattern : Type := MkPattern { source : string; compiled : regex }.

Record important_note : Type := MkNote {
  note_content : str;
  note_speaker_id : option str;
  note_timestamp : option str;
  importance : nat;
  matched_patterns : list string
}.

Record decision : Type := MkDecision {
  d_title : str;
  d_description : str;
  d_timestamp : option str;
  decided_by_speaker_id : option str
}.

Record action_item : Type := MkAction {
  a_title : str;
  a_description : str;
  assigned_to_speaker_id : option str;
  assigned_to_name : option str;
  due_date : option str;
  status : string;
  priority : string
}.

Definition str_eqb (a b : str) : bool :=
  if list_eq_dec ascii_dec a b then true else false.

(** [xs.sort(key=key, reverse=True)]: stable, descending by key. *)
Section SortDesc.
Variables (A K : Type) (ltb : K -> K -> bool) (key : A -> K).

Fixpoint insert_desc (x : A) (l : list A) : list A :=
  match l with
  | [] => [x]
  | y :: l' => if ltb (key x) (key y) then y :: insert_desc x l' else x :: l
  end.

Definition sort_desc (l : list A) : list A :=
  fold_right insert_desc [] l.

(** [a] may stand before [b]: the key of [a] is not below that of [b]. *)
Definition before (a b : A) : Prop := ltb (key a) (key b) = false.
End SortDesc.

(* ================================================================= *)
(** ** Pattern extractors *)

Definition important_patterns : list pattern := [
  MkPattern "\b(?:important|crucial|critical|key|essential|vital|significant)\b"
    (bounded [word "important"; word "crucial"; word "critical"; word "key";
              word "essential"; word "vital"; word "significant"]);
  MkPattern "\b(?:remember|note|highlight|emphasize|stress)\b"
    (bounded [word "remember"; word "note"; word "highlight";
              word "emphasize"; word "stress"]);
  MkPattern "\b(?:action|todo|task|follow[- ]?up|next steps?)\b"
    (bounded [word "action"; word "todo"; word "task";
              cats [word "follow"; Opt (Cls (CSet ["-"; " "]%char)); word "up"];
              cats [word "next step"; Opt (Lit "s")]]);
  MkPattern "\b(?:decision|decide|agreed?|concluded?)\b"
    (bounded [word "decision"; word "decide";
              cats [word "agree"; Opt (Lit "d")];
              cats [word "conclude"; Opt (Lit "d")]]);
  MkPattern "\b(?:problem|issue|concern|challenge|risk)\b"
    (bounded [word "problem"; word "issue"; word "concern";
              word "challenge"; word "risk"]);
  MkPattern "\b(?:solution|resolve|fix|address)\b"
    (bounded [word "solution"; word "resolve"; word "fix"; word "address"]);
  MkPattern "\b(?:deadline|due|schedule|timeline)\b"
    (bounded [word "deadline"; word "due"; word "schedule"; word "timeline"]);
  MkPattern "\b(?:budget|cost|price|expense)\b"
    (bounded [word "budget"; word "cost"; word "price"; word "expense"])
].

(** The loop over [important_patterns]: score and matched patterns. *)
Definition pattern_step (content : str) (acc : nat * list string)
  (p : pattern) : nat * list string :=
  let matches := findall (compiled p) content in
  match matches with
  | [] => acc
  | _ => (fst acc + length matches, snd acc ++ [source p])
  end.

Definition importance_score (content : str) : nat * list string :=
  let '(score, matched) :=
    fold_left (pattern_step content) important_patterns (0, []) in
  let score :=
    if has_char "?" content then score + count_char "?" content else score in
  let score :=
    if has_char "!" content then score + count_char "!" content else score in
  let word_count := length (split_ws content) in
  let score := if 20 <? word_count then score + 1 else score in
  (score, matched).

(** One iteration of the loop over the transcripts: what it appends. *)
Definition important_note_of (transcript : segment) : list important_note :=
  let content := lower (get_content transcript) in
  if negb (truthy (strip content)) then []
  else
    let '(importance_score, matched_patterns) := importance_score content in
    if 0 <? importance_score then
      [MkNote (get_content transcript) (speaker_id transcript)
              (timestamp transcript) importance_score matched_patterns]
    else [].

Definition extract_important_notes (transcripts : list segment)
  : list important_note :=
  let important_notes := flat_map important_note_of transcripts in
  firstn 10 (sort_desc Nat.ltb importance important_notes).

Definition decision_patterns : list pattern := [
  MkPattern "\b(?:we (?:decided|agreed|concluded|determined))\b"
    (bounded [Cat (word "we ")
                (alts [word "decided"; word "agreed"; word "concluded";
                       word "determined"])]);
  MkPattern "\b(?:decision|agreed?|concluded?|determined)\b"
    (bounded [word "decision";
              cats [word "agree"; Opt (Lit "d")];
              cats [word "conclude"; Opt (Lit "d")];
              word "determined"]);
  MkPattern "\b(?:let\'s|we\'ll|we will|we should)\b"
    (bounded [word "let's"; word "we'll"; word "we will"; word "we should"]);
  MkPattern "\b(?:approved|rejected|accepted|denied)\b"
    (bounded [word "approved"; word "rejected"; word "accepted";
              word "denied"]);
  MkPattern "\b(?:final|finalized|settled|resolved)\b"
    (bounded [word "final"; word "finalized"; word "settled";
              word "resolved"])
].

(** The inner loop over the sentences, left at the first hit ([break]). *)
Fixpoint decision_for_match (matched : str) (sentences : list str)
  (transcript : segment) : list decision :=
  match sentences with
  | [] => []
  | sentence :: rest =>
      if contains matched (lower sentence) then
        [MkDecision (clip 100 (strip sentence) sentence) (strip sentence)
                    (timestamp transcript) (speaker_id transcript)]
      else decision_for_match matched rest transcript
  end.

Definition decisions_of (transcript : segment) : list decision :=
  let content := get_content transcript in
  if negb (truthy (strip content)) then []
  else
    flat_map (fun p =>
      flat_map (fun m =>
        decision_for_match (group0 content m) (split_on "." content)
                           transcript)
        (finditer (compiled p) content))
      decision_patterns.

(** The loop that keeps the first decision of each title. *)
Fixpoint unique_decisions (seen_titles : list str) (decisions : list decision)
  : list decision :=
  match decisions with
  | [] => []
  | d :: rest =>
      if existsb (str_eqb (d_title d)) seen_titles
      then unique_decisions seen_titles rest
      else d :: unique_decisions (d_title d :: seen_titles) rest
  end.

Definition all_decisions (transcripts : list segment) : list decision :=
  flat_map decisions_of transcripts.

Definition extract_decisions (transcripts : list segment) : list decision :=
  firstn 10 (unique_decisions [] (all_decisions transcripts)).

Definition action_patterns : list pattern := [
  MkPattern "\b(?:action|todo|task|assignment)\b"
    (bounded [word "action"; word "todo"; word "task"; word "assignment"]);
  MkPattern "\b(?:follow[- ]?up|next steps?)\b"
    (bounded [cats [word "follow"; Opt (Cls (CSet ["-"; " "]%char)); word "up"];
              cats [word "next step"; Opt (Lit "s")]]);
  MkPattern "\b(?:will|should|need to|have to|must)\b"
    (bounded [word "will"; word "should"; word "need to"; word "have to";
              word "must"]);
  MkPattern "\b(?:by|before|until|deadline)\b"
    (bounded [word "by"; word "before"; word "until"; word "deadline"]);
  MkPattern "\b(?:responsible|assigned|owner)\b"
    (bounded [word "responsible"; word "assigned"; word "owner"])
].

Definition assignee_patterns : list pattern := [
  MkPattern "\b(\w+) will\b"
    (cats [Bnd; Group (Plus (Cls CWord)); word " will"; Bnd]);
  MkPattern "\b(\w+) should\b"
    (cats [Bnd; Group (Plus (Cls CWord)); word " should"; Bnd]);
  MkPattern "\bassigned to (\w+)\b"
    (cats [Bnd; word "assigned to "; Group (Plus (Cls CWord)); Bnd]);
  MkPattern "\b(\w+) is responsible\b"
    (cats [Bnd; Group (Plus (Cls CWord)); word " is responsible"; Bnd])
].

Definition word_and_number : regex :=
  Group (cats [Plus (Cls CWord); Lit " "; Plus (Cls CDigit)]).

Definition due_date_patterns : list pattern := [
  MkPattern "\bby (\w+ \d+)\b" (cats [Bnd; word "by "; word_and_number; Bnd]);
  MkPattern "\bbefore (\w+ \d+)\b"
    (cats [Bnd; word "before "; word_and_number; Bnd]);
  MkPattern "\buntil (\w+ \d+)\b"
    (cats [Bnd; word "until "; word_and_number; Bnd]);
  MkPattern "\bdeadline (\w+ \d+)\b"
    (cats [Bnd; word "deadline "; word_and_number; Bnd])
].

(** [action_score]: the number of action patterns found in the content. *)
Definition action_score (content : str) : nat :=
  fold_left (fun score p =>
               match search (compiled p) content with
               | Some _ => score + 1
               | None => score
               end)
            action_patterns 0.

(** The loops over [assignee_patterns] and [due_date_patterns]: group 1 of
    the first pattern that is found ([break]). *)
Fixpoint first_group1 (ps : list pattern) (content : str) : option str :=
  match ps with
  | [] => None
  | p :: ps' =>
      match search (compiled p) content with
      | Some m => group1 content m
      | None => first_group1 ps' content
      end
  end.

Definition action_item_of (transcript : segment) : list action_item :=
  let content := get_content transcript in
  if negb (truthy (strip content)) then []
  else if 2 <=? action_score content then
    let assigned_to := first_group1 assignee_patterns content in
    let due_date := first_group1 due_date_patterns content in
    [MkAction (clip 100 content content) content
              (match assigned_to with
               | Some (_ :: _) => None
               | _ => speaker_id transcript
               end)
              assigned_to due_date "PENDING" "MEDIUM"]
  else [].

Definition extract_action_items (transcripts : list segment)
  : list action_item :=
  firstn 15 (flat_map action_item_of transcripts).

(** The end-to-end example of the specification. *)
Definition example_segments : list segment := [
  MkSegment (Some (s2l "We decided to launch next week."))
            (Some (s2l "A")) None;
  MkSegment (Some (s2l "John will follow up by March 5 on the budget issue."))
            (Some (s2l "B")) None
].

(* ================================================================= *)
(** ** Theme clusterer

    The embedding model and the k-means routine are libraries outside the
    repository: they are parameters.  [None] stands for a raised
    exception, which the function's [try/except] turns into [[]].

    The arithmetic is that of numpy and scikit-learn on [float64] arrays:
    binary64 operations, nothing clamped.  Where the libraries do not fix
    the order in which the terms of a sum are added (the products inside
    [einsum] and the matrix product), they are added from left to
    right. *)

Definition float64 : Type := SpecFloat.spec_float.

Definition fadd : float64 -> float64 -> float64 := SpecFloat.SFadd 53 1024.
Definition fmul : float64 -> float64 -> float64 := SpecFloat.SFmul 53 1024.
Definition fdiv : float64 -> float64 -> float64 := SpecFloat.SFdiv 53 1024.
Definition fsqrt : float64 -> float64 := SpecFloat.SFsqrt 53 1024.

(** [x < y] and [x <= y]: false as soon as one side is not a number. *)
Definition fltb : float64 -> float64 -> bool := SpecFloat.SFltb.
Definition fleb : float64 -> float64 -> bool := SpecFloat.SFleb.

(** The float nearest to [m * 2^e], and the float of an integer. *)
Definition of_scaled (m e : Z) : float64 :=
  SpecFloat.binary_normalize 53 1024 m e false.
Definition of_Z (z : Z) : float64 := of_scaled z 0.
Definition of_nat (n : nat) : float64 := of_Z (Z.of_nat n).

Definition fzero : float64 := SpecFloat.S754_zero false.
Definition fone : float64 := of_Z 1.

Definition is_nan (x : float64) : bool :=
  match x with
  | SpecFloat.S754_nan => true
  | _ => false
  end.

Definition is_finite (x : float64) : bool :=
  match x with
  | SpecFloat.S754_zero _ | SpecFloat.S754_finite _ _ _ => true
  | _ => false
  end.

Definition vec := list float64.

Record theme : Type := MkTheme {
  title : str;
  description : str;
  confidence : float64;
  sample_texts : list str
}.

Definition decimal (n : nat) : str :=
  s2l (NilZero.string_of_uint (Nat.to_uint n)).

(** [title] of a theme, from its representative text. *)
Definition theme_title (representative_text : str) : str :=
  clip 100 (hd [] (split_on "." representative_text)) representative_text.

(** The sum of the products of two rows. *)
Definition dot (u v : vec) : float64 :=
  fold_left fadd (map (fun p => fmul (fst p) (snd p)) (combine u v)) fzero.

Definition norm (u : vec) : float64 := fsqrt (dot u u).

(** [10 * np.finfo(np.float64).eps], with [eps] = 2^-52. *)
Definition ten_eps : float64 := fmul (of_Z 10) (of_scaled 1 (-52)).

(** [sklearn.preprocessing.normalize]: a row is divided by its length, a
    row whose length is below [ten_eps] being left as it is. *)
Definition normalize (u : vec) : vec :=
  let n := norm u in
  let n := if fltb n ten_eps then fone else n in
  map (fun x => fdiv x n) u.

(** [cosine_similarity([u], [v])[0][0]]: the rows are validated (at least
    one feature, as many in [v] as in [u], no infinity and no NaN, else
    [ValueError]), scaled to unit length and multiplied; the product is
    returned as it is. *)
Definition cosine_similarity (u v : vec) : option float64 :=
  if (1 <=? length u) && (length u =? length v)
     && forallb is_finite u && forallb is_finite v
  then Some (dot (normalize u) (normalize v))
  else None.

(** The similarities of the rows to [u]; one [ValueError] fails them
    all. *)
Fixpoint similarities_to (u : vec) (rows : list vec) : option (list float64) :=
  match rows with
  | [] => Some []
  | e :: rest =>
      match cosine_similarity u e, similarities_to u rest with
      | Some x, Some xs => Some (x :: xs)
      | _, _ => None
      end
  end.

Fixpoint vadd (u v : vec) : vec :=
  match u, v with
  | x :: u', y :: v' => fadd x y :: vadd u' v'
  | _, _ => []
  end.

(** numpy's pairwise summation of a one-dimensional array: fewer than
    eight numbers are added from left to right, up to 128 numbers in
    eight interleaved partial sums, and a longer array is halved. *)
Fixpoint add_blocks (r a : list float64) (blocks : nat)
  : list float64 * list float64 :=
  match blocks with
  | 0 => (r, a)
  | S blocks' => add_blocks (vadd r (firstn 8 a)) (skipn 8 a) blocks'
  end.

Definition sum_unrolled (a : list float64) : float64 :=
  let n := length a in
  let (r, rest) :=
    add_blocks (firstn 8 a) (skipn 8 a) ((n - n mod 8 - 8) / 8) in
  match r with
  | [r0; r1; r2; r3; r4; r5; r6; r7] =>
      fold_left fadd rest
        (fadd (fadd (fadd r0 r1) (fadd r2 r3))
              (fadd (fadd r4 r5) (fadd r6 r7)))
  | _ => fzero
  end.

Fixpoint pairwise_sum (fuel : nat) (a : list float64) : float64 :=
  let n := length a in
  if n <? 8 then fold_left fadd a fzero
  else if n <=? 128 then sum_unrolled a
  else
    match fuel with
    | 0 => fzero
    | S fuel' =>
        let n2 := n / 2 - (n / 2) mod 8 in
        fadd (pairwise_sum fuel' (firstn n2 a))
             (pairwise_sum fuel' (skipn n2 a))
    end.

Definition np_sum (xs : list float64) : float64 :=
  pairwise_sum (length xs) xs.

(** [float(np.mean(xs))] of a list of numbers. *)
Definition np_mean (xs : list float64) : float64 :=
  fdiv (np_sum xs) (of_nat (length xs)).

(** [np.mean(rows, axis=0)]: defined for rows of one length; the rows are
    added one after the other. *)
Definition mean_rows (rows : list vec) : option vec :=
  match rows with
  | [] => None
  | r :: rest =>
      if forallb (fun r' => length r' =? length r) rest
      then Some (map (fun x => fdiv x (of_nat (length rows)))
                     (fold_left vadd rest r))
      else None
  end.

(** [np.argmax]: the first index of the greatest element; a NaN counts as
    the greatest and ends the search. *)
Fixpoint argmax_from (best_i : nat) (best : float64) (i : nat)
  (xs : list float64) : nat :=
  match xs with
  | [] => best_i
  | x :: xs' =>
      if is_nan best then best_i
      else if fleb x best then argmax_from best_i best (S i) xs'
      else argmax_from i x (S i) xs'
  end.

Definition argmax (xs : list float64) : option nat :=
  match xs with
  | [] => None
  | x :: xs' => Some (argmax_from 0 x 1 xs')
  end.

(** [[xs[i] for i in range(len(xs)) if labels[i] == cluster_id]] *)
Fixpoint members (A : Type) (xs : list A) (labels : list nat) (cluster_id : nat)
  : option (list A) :=
  match xs with
  | [] => Some []
  | x :: xs' =>
      match labels with
      | [] => None
      | l :: labels' =>
          match members xs' labels' cluster_id with
          | Some r => Some (if l =? cluster_id then x :: r else r)
          | None => None
          end
      end
  end.

Section Themes.
(** [sentence_model.encode] and
    [KMeans(n_clusters, random_state=42, n_init=10).fit_predict]. *)
Variable encode : list str -> option (list vec).
Variable fit_predict : nat -> list vec -> option (list nat).

(** One iteration of the loop over the cluster ids: [Some []] is
    [continue], [Some [th]] an appended theme. *)
Definition theme_of_cluster (texts : list str) (embeddings : list vec)
  (cluster_labels : list nat) (cluster_id : nat) : option (list theme) :=
  match members texts cluster_labels cluster_id with
  | None => None
  | Some [] => Some []
  | Some cluster_texts =>
      match members embeddings cluster_labels cluster_id with
      | None => None
      | Some cluster_embeddings =>
          match mean_rows cluster_embeddings with
          | None => None
          | Some centroid =>
              match similarities_to centroid cluster_embeddings with
              | None => None
              | Some similarities =>
                  match argmax similarities with
                  | None => None
                  | Some most_representative_idx =>
                      match nth_error cluster_texts most_representative_idx with
                      | None => None
                      | Some representative_text =>
                          Some [MkTheme
                                  (theme_title representative_text)
                                  (s2l "Discussion cluster with "
                                   ++ decimal (length cluster_texts)
                                   ++ s2l " related segments")
                                  (np_mean similarities)
                                  (firstn 3 cluster_texts)]
                      end
                  end
              end
          end
      end
  end.

Fixpoint themes_of_clusters (texts : list str) (embeddings : list vec)
  (cluster_labels : list nat) (cluster_ids : list nat)
  : option (list theme) :=
  match cluster_ids with
  | [] => Some []
  | cluster_id :: rest =>
      match theme_of_cluster texts embeddings cluster_labels cluster_id with
      | None => None
      | Some th =>
          match themes_of_clusters texts embeddings cluster_labels rest with
          | None => None
          | Some ths => Some (th ++ ths)
          end
      end
  end.

Definition extract_themes_from_transcripts (transcripts : list segment)
  (num_themes : nat) : list theme :=
  if length transcripts <? 2 then []
  else
    let texts :=
      filter (fun c => truthy (strip c)) (map get_content transcripts) in
    if length texts <? 2 then []
    else
      match encode texts with
      | None => []
      | Some embeddings =>
          let n_clusters := Nat.min num_themes (length texts) in
          if n_clusters <? 2 then []
          else
            match fit_predict n_clusters embeddings with
            | None => []
            | Some cluster_labels =>
                match themes_of_clusters texts embeddings cluster_labels
                        (seq 0 n_clusters) with
                | None => []
                | Some themes => sort_desc fltb confidence themes
                end
            end
      end.
End Themes.

(* ================================================================= *)
(** ** Summarizer *)

Definition nl : str := ["010"%char].

Fixpoint join (sep : str) (parts : list str) : str :=
  match parts with
  | [] => []
  | [p] => p
  | p :: rest => p ++ sep ++ join sep rest
  end.

(** [l[:3]] and [l[-3:] if len(l) > 3 else []] *)
Definition first_window (A : Type) (l : list A) : list A := firstn 3 l.

Definition last_window (A : Type) (l : list A) : list A :=
  if 3 <? length l then skipn (length l - 3) l else [].

Definition preview (s : segment) : str :=
  upto 50 (get_content s) ++ s2l "...".

(** [t.get('speaker_id') ... if t.get('speaker_id')] *)
Definition truthy_speaker (t : segment) : list str :=
  match speaker_id t with
  | Some (c :: i) => [c :: i]
  | _ => []
  end.

Definition generate_basic_summary (transcripts : list segment)
  (meeting_title : str) : str :=
  match transcripts with
  | [] =>
      s2l "Meeting '" ++ meeting_title
      ++ s2l "' was held but no transcript content is available."
  | _ =>
      let total_segments := length transcripts in
      let speakers :=
        nodup (list_eq_dec ascii_dec) (flat_map truthy_speaker transcripts) in
      let first_segments := first_window transcripts in
      let last_segments := last_window transcripts in
      let summary :=
        s2l "Meeting '" ++ meeting_title ++ s2l "' included "
        ++ decimal (length speakers) ++ s2l " participants with "
        ++ decimal total_segments ++ s2l " discussion segments. " in
      let summary :=
        match first_segments with
        | [] => summary
        | _ =>
            summary ++ s2l "The meeting began with discussions about: "
            ++ join (s2l " ") (map preview (firstn 2 first_segments))
        end in
      let summary :=
        match last_segments with
        | [] => summary
        | _ =>
            summary ++ s2l " The meeting concluded with: "
            ++ join (s2l " ") (map preview (firstn 2 last_segments))
        end in
      summary
  end.

Definition speaker_line (t : segment) : str :=
  s2l "Speaker "
  ++ match speaker_id t with Some i => i | None => s2l "Unknown" end
  ++ s2l ": " ++ get_content t.

Definition summary_prompt (meeting_title full_transcript : str) : str :=
  nl ++ s2l "        Please provide a concise summary of this meeting titled "
  ++ ["034"%char] ++ meeting_title ++ ["034"%char] ++ s2l "." ++ nl
  ++ s2l "        " ++ nl
  ++ s2l "        Meeting Transcript:" ++ nl
  ++ s2l "        " ++ full_transcript ++ nl
  ++ s2l "        " ++ nl
  ++ s2l "        Please provide:" ++ nl
  ++ s2l "        1. A brief overview of what was discussed" ++ nl
  ++ s2l "        2. Key points and highlights" ++ nl
  ++ s2l "        3. Main outcomes or conclusions" ++ nl
  ++ s2l "        " ++ nl
  ++ s2l "        Keep the summary professional and concise (2-3 paragraphs)."
  ++ nl ++ s2l "        ".

Section Summarizer.
(** Whether [OPENAI_API_KEY] is set, and the chat completion call
    ([None]: it raised). *)
Variable openai_api_key : bool.
Variable chat_completion : str -> option str.

Definition generate_summary_with_openai (transcripts : list segment)
  (meeting_title : str) : str :=
  if negb openai_api_key || match transcripts with [] => true | _ => false end
  then generate_basic_summary transcripts meeting_title
  else
    let full_transcript :=
      join nl (map speaker_line
                   (filter (fun t => truthy (strip (get_content t)))
                           transcripts)) in
    let full_transcript :=
      if (8000 <? N.of_nat (length full_transcript))%N
      then upto (N.to_nat 8000) full_transcript ++ s2l "..."
      else full_transcript in
    match chat_completion (summary_prompt meeting_title full_transcript) with
    | Some response => strip response
    | None => generate_basic_summary transcripts meeting_title
    end.
End Summarizer.

(* ================================================================= *)
(** ** Pipeline orchestrator

    Redis is modelled as explicit state: the string keys with their expiry,
    the list keys, the [SETEX] calls carried out so far, and a schedule
    saying which of the coming Redis calls raise (a lost connection). *)

Record notes_data : Type := MkNotes {
  nd_meeting_id : str;
  nd_summary : str;
  nd_themes : list theme;
  nd_important_notes : list important_note;
  nd_decisions : list decision;
  nd_action_items : list action_item;
  nd_processed_at : str;
  nd_transcript_count : nat
}.

Record setex_call : Type := MkSetex {
  w_key : str;
  w_ttl : N;
  w_value : str
}.

Record world : Type := MkWorld {
  kv : str -> option (str * N);
  klists : str -> list str;
  faults : list bool;
  writes : list setex_call
}.

Inductive outcome (A : Type) : Type :=
| Returned (a : A)
| Raised.

Arguments Raised {A}.

(** Computations over the Redis state that may raise. *)
Definition M (A : Type) : Type := world -> outcome A * world.

Definition ret (A : Type) (a : A) : M A := fun w => (Returned a, w).

Definition raise (A : Type) : M A := fun w => (Raised, w).

Definition bind (A B : Type) (m : M A) (f : A -> M B) : M B :=
  fun w =>
    match m w with
    | (Returned a, w') => f a w'
    | (Raised, w') => (Raised, w')
    end.

Notation "x <- m ;; f" := (bind m (fun x => f))
  (at level 61, m at next level, right associativity).

(** Every Redis call consumes one entry of the fault schedule. *)
Definition redis_call (A : Type) (op : world -> A * world) : M A :=
  fun w =>
    match faults w with
    | [] => let (a, w') := op w in (Returned a, w')
    | fault :: rest =>
        let w0 := MkWorld (kv w) (klists w) rest (writes w) in
        if fault then (Raised, w0)
        else let (a, w') := op w0 in (Returned a, w')
    end.

(** [redis_client.lrange(key, 0, -1)] *)
Definition lrange (key : str) : M (list str) :=
  redis_call (fun w => (klists w key, w)).

(** [redis_client.get(key)] *)
Definition get (key : str) : M (option str) :=
  redis_call (fun w => (option_map fst (kv w key), w)).

(** [redis_client.setex(key, ttl, value)] *)
Definition setex (key : str) (ttl : N) (value : str) : M unit :=
  redis_call (fun w =>
    (tt, MkWorld (fun k => if str_eqb k key then Some (value, ttl) else kv w k)
                 (klists w) (faults w)
                 (writes w ++ [MkSetex key ttl value]))).

Section Pipeline.
Variable encode : list str -> option (list vec).
Variable fit_predict : nat -> list vec -> option (list nat).
Variable openai_api_key : bool.
Variable chat_completion : str -> option str.
(** [json.loads] of a stored segment ([None]: it raised), [json.dumps] of
    the notes, and [datetime.utcnow().isoformat()]. *)
Variable json_loads : str -> option segment.
Variable json_dumps : notes_data -> str.
Variable utcnow : str.

(** The loop that reads the stored segments one key at a time. *)
Fixpoint read_transcripts (transcript_keys : list str) : M (list segment) :=
  match transcript_keys with
  | [] => ret []
  | key :: rest =>
      transcript_data <- get key ;;
      match transcript_data with
      | Some (c :: d) =>
          match json_loads (c :: d) with
          | Some t =>
              ts <- read_transcripts rest ;;
              ret (t :: ts)
          | None => raise _
          end
      | _ => read_transcripts rest
      end
  end.

Definition load_transcripts (meeting_id : str) : M (list segment) :=
  let list_key := s2l "transcripts:" ++ meeting_id in
  transcript_keys <- lrange list_key ;;
  read_transcripts transcript_keys.

Definition build_notes (meeting_id : str) (transcripts : list segment)
  : notes_data :=
  let themes := extract_themes_from_transcripts encode fit_predict
                  transcripts 5 in
  let important_notes := extract_important_notes transcripts in
  let decisions := extract_decisions transcripts in
  let action_items := extract_action_items transcripts in
  let meeting_title := s2l "Meeting " ++ meeting_id in
  let summary := generate_summary_with_openai openai_api_key chat_completion
                   transcripts meeting_title in
  MkNotes meeting_id summary themes important_notes decisions action_items
          utcnow (length transcripts).

(** The body of the [try] block. *)
Definition process_body (meeting_id : str) : M (option notes_data) :=
  transcripts <- load_transcripts meeting_id ;;
  match transcripts with
  | [] => ret None
  | _ =>
      let notes := build_notes meeting_id transcripts in
      let notes_key := s2l "processed_notes:" ++ meeting_id in
      _ <- setex notes_key 86400 (json_dumps notes) ;;
      ret (Some notes)
  end.

(** [process_meeting_notes]: any exception is logged and [None] returned. *)
Definition process_meeting_notes (meeting_id : str) (w : world)
  : option notes_data * world :=
  match process_body meeting_id w with
  | (Returned r, w') => (r, w')
  | (Raised, w') => (None, w')
  end.
End Pipeline.

(* ================================================================= *)
(** ** Specification-side definitions *)

(** The number of occurrences of a pattern in a text, as [re.findall]
    with IGNORECASE counts them. *)
Definition occurrences (p : pattern) (text : str) : nat :=
  length (findall (compiled p) text).

Definition nat_sum (l : list nat) : nat := fold_right Nat.add 0 l.

(** The important-note score in the words of the specification: one per
    match over the eight categories, one per [?], one per [!], one more
    when the word count exceeds 20. *)
Definition spec_score (text : str) : nat :=
  nat_sum (map (fun p => occurrences p text) important_patterns)
  + count_char "?" text + count_char "!" text
  + (if 20 <? length (split_ws text) then 1 else 0).

(** The categories with at least one match, in table order. *)
Definition spec_matched (text : str) : list string :=
  map source (filter (fun p => 0 <? occurrences p text) important_patterns).

Definition spec_note_of (t : segment) : list important_note :=
  if 0 <? spec_score (get_content t) then
    [MkNote (get_content t) (speaker_id t) (timestamp t)
            (spec_score (get_content t)) (spec_matched (get_content t))]
  else [].

(** The score the extractor computes for a segment's content. *)
Definition segment_score (text : str) : nat :=
  fst (importance_score (lower text)).

(** A keyword of a category: a text the category's pattern matches from
    its first to its last character. *)
Definition is_keyword (p : pattern) (k : str) : bool :=
  match match_at k (compiled p) 0 with
  | Some m => m_end m =? length k
  | None => false
  end.

(** The number of action categories found in a text. *)
Definition matched_categories (text : str) : nat :=
  length (filter (fun p => match search (compiled p) text with
                           | Some _ => true
                           | None => false
                           end) action_patterns).

(** Order-preserving selection of elements. *)
Inductive subseq (A : Type) : list A -> list A -> Prop :=
| subseq_nil : subseq [] []
| subseq_skip : forall x l1 l2, subseq l1 l2 -> subseq l1 (x :: l2)
| subseq_take : forall x l1 l2, subseq l1 l2 -> subseq (x :: l1) (x :: l2).

(** Positions of a list, to speak of windows by index. *)
Definition positions (A : Type) (l : list A) : list nat := seq 0 (length l).

Definition disjoint (A : Type) (l1 l2 : list A) : Prop :=
  forall x, In x l1 -> ~ In x l2.

(** *** Keyword patterns as finite sets of words

    A pattern [\b(?:...)\b] built from literals, listed character classes,
    concatenation, alternation and [?] denotes finitely many words; its
    matches are the occurrences of these words between two boundaries. *)

Fixpoint simple (r : regex) : bool :=
  match r with
  | Eps | Lit _ | Cls (CSet _) => true
  | Cat a b | Or a b => simple a && simple b
  | Opt a => simple a
  | _ => false
  end.

Fixpoint lang (r : regex) : list str :=
  match r with
  | Eps => [[]]
  | Lit c => [[c]]
  | Cls (CSet cs) => map (fun c => [c]) cs
  | Cat a b => flat_map (fun u => map (app u) (lang b)) (lang a)
  | Or a b => lang a ++ lang b
  | Opt a => lang a ++ [[]]
  | _ => []
  end.

(** The word [w] stands in [s] at position [i], case-insensitively. *)
Fixpoint ci_at (w s : str) (i : nat) : bool :=
  match w with
  | [] => true
  | c :: w' =>
      match nth_error s i with
      | Some x => lit_match c x && ci_at w' s (S i)
      | None => false
      end
  end.

Definition body_of (r : regex) : option regex :=
  match r with
  | Cat Bnd (Cat a Bnd) => Some a
  | _ => None
  end.

(** Every word begins and ends with a word character. *)
Definition word_ends_ok (w : str) : bool :=
  match w with
  | [] => false
  | c :: _ => is_word c && is_word (last w c)
  end.

(** No word stands inside another one between boundaries. *)
Definition nests (w w' : str) (d : nat) : bool :=
  ci_at w' w d
  && ((d =? 0) || at_boundary w d)
  && ((d + length w' =? length w) || at_boundary w (d + length w'))
  && negb ((d =? 0) && (length w' =? length w)).

Definition nest_free (W : list str) : bool :=
  forallb (fun w =>
    forallb (fun w' =>
      forallb (fun d => negb (nests w w' d)) (seq 0 (S (length w - length w'))))
      W) W.

Definition keyword_words (p : pattern) : list str :=
  match body_of (compiled p) with
  | Some a => lang a
  | None => []
  end.

Definition keyword_pattern (p : pattern) : bool :=
  match body_of (compiled p) with
  | Some a =>
      simple a && forallb word_ends_ok (lang a) && nest_free (lang a)
  | None => false
  end.

(** A word of [W] stands at [i..j) between two boundaries. *)
Definition occ (W : list str) (s : str) (i j : nat) : Prop :=
  at_boundary s i = true /\ at_boundary s j = true /\
  exists w, In w W /\ ci_at w s i = true /\ j = i + length w.

(** The junction of [c] and [t] does not join two word characters. *)
Definition clean_junction (c t : str) : Prop :=
  word_at c (length c - 1) = false \/ word_at t 0 = false.

(** *** Auxiliary definitions and example inputs *)

(** The number of words of [s.split()], counted by word starts. *)
Fixpoint count_words (in_word : bool) (s : str) : nat :=
  match s with
  | [] => 0
  | c :: s' =>
      if is_space c then count_words false s'
      else (if in_word then 0 else 1) + count_words true s'
  end.

(** A result is ranked when scores never increase along it. *)
Definition ranked (notes : list important_note) : Prop :=
  StronglySorted (fun a b => importance b <= importance a) notes.

(** The item a qualifying segment gives rise to. *)
Definition action_item_for (t : segment) : action_item :=
  let text := get_content t in
  let assigned_to := first_group1 assignee_patterns text in
  MkAction (clip 100 text text) text
           (match assigned_to with
            | Some (_ :: _) => None
            | _ => speaker_id t
            end)
           assigned_to (first_group1 due_date_patterns text)
           "PENDING" "MEDIUM".

Definition qualifies (t : segment) : bool :=
  2 <=? matched_categories (get_content t).

Definition sixteen_segments : list segment :=
  repeat (MkSegment (Some (s2l "We will send it by Monday")) None None) 16.

(** A store holding one segment for meeting [m1], with no failing call. *)
Definition one_segment_world : world :=
  MkWorld (fun k => if str_eqb k (s2l "transcript:m1:0")
                    then Some (s2l "{...}", 3600%N) else None)
          (fun k => if str_eqb k (s2l "transcripts:m1")
                    then [s2l "transcript:m1:0"] else [])
          [] [].

(** Two segments with the same sentence. *)
Definition repeated_segments : list segment :=
  [MkSegment (Some (s2l "we agreed to ship.")) (Some (s2l "A")) None;
   MkSegment (Some (s2l "we agreed to ship.")) (Some (s2l "B")) None].

Definition four_segments : list segment :=
  map (fun c => MkSegment (Some (s2l c)) None None)
      ["one"; "two"; "three"; "four"]%string.



Definition text_segment (s : string) : segment :=
  MkSegment (Some (s2l s)) None None.

(** Seven texts embedded on a line at -1, -1, 3, 1000, 2000, 3000 and
    4000; the five clusters of least inertia are the first three points
    together and the four far points alone. *)
Definition seven_segments : list segment :=
  map text_segment ["a"; "b"; "c"; "d"; "e"; "f"; "g"]%string.

Definition line_embed (t : str) : vec :=
  match t with
  | c :: _ =>
      if Ascii.eqb c "a" then [of_Z (-1)]
      else if Ascii.eqb c "b" then [of_Z (-1)]
      else if Ascii.eqb c "c" then [of_Z 3]
      else if Ascii.eqb c "d" then [of_Z 1000]
      else if Ascii.eqb c "e" then [of_Z 2000]
      else if Ascii.eqb c "f" then [of_Z 3000]
      else [of_Z 4000]
  | [] => [fzero]
  end.

Definition line_encode (texts : list str) : option (list vec) :=
  Some (map line_embed texts).

Definition line_fit_predict (n_clusters : nat) (embeddings : list vec)
  : option (list nat) :=
  Some [0; 0; 0; 1; 2; 3; 4].

(** Two texts embedded by their length and clustered one by one. *)
Definition length_encode (texts : list str) : option (list vec) :=
  Some (map (fun t => [of_nat (length t)]) texts).

Definition apart_fit_predict (n_clusters : nat) (embeddings : list vec)
  : option (list nat) :=
  Some (seq 0 (length embeddings)).

(** Two texts embedded as the row (5/13, 12/13), of length one up to
    rounding. *)
Definition slanted_row : vec :=
  [fdiv (of_Z 5) (of_Z 13); fdiv (of_Z 12) (of_Z 13)].

Definition slanted_encode (texts : list str) : option (list vec) :=
  Some (map (fun _ => slanted_row) texts).

Definition short_sentence_long_text : str :=
  s2l "Hi." ++ repeat "x"%char 100.

Definition two_segments : list segment :=
  [MkSegment (Some short_sentence_long_text) None None; text_segment "Bye."].

(* ================================================================= *)
(** ** API endpoints over the cache *)

(** [redis_client.delete(key)]: the key is removed, whatever it holds, and
    the number of removed keys is returned. *)
Definition redis_delete (key : str) : M nat :=
  redis_call (fun w =>
    (match kv w key, klists w key with
     | None, [] => 0
     | _, _ => 1
     end,
     MkWorld (fun k => if str_eqb k key then None else kv w k)
             (fun k => if str_eqb k key then [] else klists w k)
             (faults w) (writes w))).

(** The two bodies a [GET /notes/{meeting_id}] answers with; an exception
    becomes an HTTP 500, which is [Raised]. *)
Inductive notes_response (J : Type) : Type :=
| NotesFound (meeting_id : str) (notes : J)
| NotesNotFound (meeting_id : str).

Arguments NotesNotFound {J}.

Section Endpoints.
(** [json.loads] of the stored notes ([None]: it raised). *)
Variable J : Type.
Variable json_loads_notes : str -> option J.

Definition get_processed_notes (meeting_id : str) : M (notes_response J) :=
  let notes_key := s2l "processed_notes:" ++ meeting_id in
  notes_data <- get notes_key ;;
  match notes_data with
  | Some (c :: d) =>
      match json_loads_notes (c :: d) with
      | Some notes => ret (NotesFound meeting_id notes)
      | None => raise _
      end
  | _ => ret (NotesNotFound meeting_id)
  end.

(** [DELETE /notes/{meeting_id}]: the [deleted] field of the answer. *)
Definition delete_processed_notes (meeting_id : str) : M bool :=
  let notes_key := s2l "processed_notes:" ++ meeting_id in
  deleted <- redis_delete notes_key ;;
  ret (0 <? deleted).
End Endpoints.

(* ================================================================= *)
(** ** Further specification-side definitions *)

(** What a pattern matches, declaratively: [matches s r i g j g'] when [r]
    can match [s] from [i] to [j], taking group 1 from [g] to [g']. *)
Inductive matches (s : str) : regex -> nat -> caps -> nat -> caps -> Prop :=
| M_Eps : forall i g, matches s Eps i g i g
| M_Lit : forall c x i g,
    nth_error s i = Some x -> lit_match c x = true ->
    matches s (Lit c) i g (S i) g
| M_Cls : forall cl x i g,
    nth_error s i = Some x -> in_class cl x = true ->
    matches s (Cls cl) i g (S i) g
| M_Cat : forall a b i g j g' k g'',
    matches s a i g j g' -> matches s b j g' k g'' ->
    matches s (Cat a b) i g k g''
| M_OrL : forall a b i g j g',
    matches s a i g j g' -> matches s (Or a b) i g j g'
| M_OrR : forall a b i g j g',
    matches s b i g j g' -> matches s (Or a b) i g j g'
| M_OptSome : forall a i g j g',
    matches s a i g j g' -> matches s (Opt a) i g j g'
| M_OptNone : forall a i g, matches s (Opt a) i g i g
| M_PlusOne : forall a i g j g',
    matches s a i g j g' -> matches s (Plus a) i g j g'
| M_PlusMore : forall a i g j g' k g'',
    matches s a i g j g' -> matches s (Plus a) j g' k g'' ->
    matches s (Plus a) i g k g''
| M_Bnd : forall i g, at_boundary s i = true -> matches s Bnd i g i g
| M_Group : forall a i g j g',
    matches s a i g j g' -> matches s (Group a) i g j (Some (i, j)).

(** The characters of [s] from [a] to [b] are a non-empty run of the
    class [cl]. *)
Definition class_run (s : str) (cl : cclass) (a b : nat) : Prop :=
  a < b /\
  forall k, a <= k < b ->
    exists x, nth_error s k = Some x /\ in_class cl x = true.

(** Every group of the pattern has the body [body]. *)
Fixpoint groups_are (body : regex) (r : regex) : Prop :=
  match r with
  | Group a => a = body
  | Cat a b | Or a b => groups_are body a /\ groups_are body b
  | Opt a | Plus a => groups_are body a
  | _ => True
  end.

(** Every match of the pattern goes through a group. *)
Fixpoint must_group (r : regex) : bool :=
  match r with
  | Group _ => true
  | Cat a b => must_group a || must_group b
  | Or a b => must_group a && must_group b
  | Plus a => must_group a
  | _ => false
  end.

(** The body of the assignee patterns' group, [\w+]. *)
Definition word_run : regex := Plus (Cls CWord).

(** The body of the due-date patterns' group, [\w+ \d+]. *)
Definition word_space_number : regex :=
  cats [Plus (Cls CWord); Lit " "; Plus (Cls CDigit)].

(** A captured name: a non-empty text of word characters. *)
Definition is_name (name : str) : Prop :=
  name <> [] /\ forallb is_word name = true.

(** A captured due date: word characters, one space, decimal digits. *)
Definition is_word_and_number (d : str) : Prop :=
  exists w n, d = w ++ " "%char :: n /\
    w <> [] /\ forallb is_word w = true /\
    n <> [] /\ forallb is_digit n = true.

(** The contents the theme clusterer works on. *)
Definition nonblank_contents (transcripts : list segment) : list str :=
  filter (fun c => truthy (strip c)) (map get_content transcripts).

(** What a theme says about the texts it was built from. *)
Definition theme_from (texts : list str) (th : theme) : Prop :=
  (exists text, In text texts /\ title th = theme_title text) /\
  1 <= length (sample_texts th) <= 3 /\
  (forall s, In s (sample_texts th) -> In s texts).

(** A text is trimmed when it neither starts nor ends with whitespace. *)
Definition trimmed (d : str) : Prop :=
  match d with
  | [] => True
  | c :: _ => is_space c = false /\ is_space (last d c) = false
  end.

(** The non-empty records still held under the keys, in key order. *)
Definition present_records (w : world) (keys : list str) : list str :=
  flat_map (fun k => match kv w k with
                     | Some (c :: d, _) => [c :: d]
                     | _ => []
                     end) keys.

(** All records decoded, or [None] when one of them does not decode. *)
Fixpoint decode_all (json_loads : str -> option segment) (records : list str)
  : option (list segment) :=
  match records with
  | [] => Some []
  | r :: rest =>
      match json_loads r, decode_all json_loads rest with
      | Some t, Some ts => Some (t :: ts)
      | _, _ => None
      end
  end.

(** A segment cut down to the first fifty characters of its content. *)
Definition shortened (t : segment) : segment :=
  MkSegment (option_map (upto 50) (content t)) (speaker_id t) (timestamp t).

(** A segment with another content. *)
Definition with_content (c : option str) (t : segment) : segment :=
  MkSegment c (speaker_id t) (timestamp t).

(** A store whose list names three keys, the second of which has
    expired. *)
Definition three_key_world : world :=
  MkWorld (fun k => if str_eqb k (s2l "transcript:m1:0")
                    then Some (s2l "first", 3600%N)
                    else if str_eqb k (s2l "transcript:m1:2")
                    then Some (s2l "third", 3600%N) else None)
          (fun k => if str_eqb k (s2l "transcripts:m1")
                    then [s2l "transcript:m1:0"; s2l "transcript:m1:1";
                          s2l "transcript:m1:2"]
                    else [])
          [] [].

(** A decoder that reads a record as a segment with that content. *)
Definition as_content (record : str) : option segment :=
  Some (MkSegment (Some record) None None).

(** The next Redis call does not fail. *)
Definition next_call_succeeds (w : world) : Prop :=
  match faults w with
  | true :: _ => False
  | _ => True
  end.

(** A store whose list names one key, which has expired. *)
Definition expired_world : world :=
  MkWorld (fun _ => None)
          (fun k => if str_eqb k (s2l "transcripts:m1")
                    then [s2l "transcript:m1:0"] else [])
          [] [].

(** A store that holds cached notes for meeting [m1]. *)
Definition cached_world : world :=
  MkWorld (fun k => if str_eqb k (s2l "processed_notes:m1")
                    then Some (s2l "{notes}", 86400%N) else None)
          (fun _ => []) [] [].

(* ================================================================= *)
(** ** Characters *)

Unset Implicit Arguments.

Lemma is_word_lower : forall c, is_word (to_lower c) = is_word c.
Proof. intros [[] [] [] [] [] [] [] []]; reflexivity. Qed.

Lemma is_digit_lower : forall c, is_digit (to_lower c) = is_digit c.
Proof. intros [[] [] [] [] [] [] [] []]; reflexivity. Qed.

Lemma is_space_lower : forall c, is_space (to_lower c) = is_space c.
Proof. intros [[] [] [] [] [] [] [] []]; reflexivity. Qed.

Lemma to_lower_idem : forall c, to_lower (to_lower c) = to_lower c.
Proof. intros [[] [] [] [] [] [] [] []]; reflexivity. Qed.

Lemma space_not_word : forall c, is_space c = true -> is_word c = false.
Proof. intros [[] [] [] [] [] [] [] []]; simpl; intros H; try reflexivity; discriminate H. Qed.

Lemma question_lower : forall c, Ascii.eqb "?" (to_lower c) = Ascii.eqb "?" c.
Proof. intros [[] [] [] [] [] [] [] []]; reflexivity. Qed.

Lemma bang_lower : forall c, Ascii.eqb "!" (to_lower c) = Ascii.eqb "!" c.
Proof. intros [[] [] [] [] [] [] [] []]; reflexivity. Qed.

Lemma space_not_question : forall c, is_space c = true -> Ascii.eqb "?" c = false.
Proof. intros [[] [] [] [] [] [] [] []]; simpl; intros H; try reflexivity; discriminate H. Qed.

Lemma space_not_bang : forall c, is_space c = true -> Ascii.eqb "!" c = false.
Proof. intros [[] [] [] [] [] [] [] []]; simpl; intros H; try reflexivity; discriminate H. Qed.

Lemma lit_match_word : forall c x, lit_match c x = true -> is_word x = is_word c.
Proof.
  unfold lit_match. intros c x H. apply Ascii.eqb_eq in H.
  rewrite <- (is_word_lower x), <- (is_word_lower c), H. reflexivity.
Qed.

(* ================================================================= *)
(** ** Python string operations *)

Lemma lstrip_blank : forall s, forallb is_space s = true -> lstrip s = [].
Proof.
  induction s as [|c s IH]; simpl; intros H; [reflexivity|].
  apply andb_true_iff in H as [Hc Hs]. rewrite Hc. auto.
Qed.

Lemma lstrip_nil_blank : forall s, lstrip s = [] -> forallb is_space s = true.
Proof.
  induction s as [|c s IH]; simpl; intros H; [reflexivity|].
  destruct (is_space c); [auto | discriminate].
Qed.

Lemma lstrip_head : forall s c r, lstrip s = c :: r -> is_space c = false.
Proof.
  induction s as [|a s IH]; simpl; intros c r H; [discriminate|].
  destruct (is_space a) eqn:Ha; [eauto|].
  injection H as <- _. exact Ha.
Qed.

Lemma lstrip_suffix : forall s, exists p, s = p ++ lstrip s /\ forallb is_space p = true.
Proof.
  induction s as [|a s [p [Hp Hb]]]; simpl.
  - exists []. auto.
  - destruct (is_space a) eqn:Ha.
    + exists (a :: p). simpl. rewrite Ha, Hb. split; [f_equal; exact Hp | reflexivity].
    + exists []. auto.
Qed.

(** [s.strip()] is empty exactly for the texts made of whitespace. *)
Lemma strip_blank_iff : forall s,
  truthy (strip s) = false <-> forallb is_space s = true.
Proof.
  intros s. unfold strip, rstrip. split.
  - intros H. destruct (lstrip s) as [|c r] eqn:E.
    + apply lstrip_nil_blank; exact E.
    + exfalso. pose proof (lstrip_head _ _ _ E) as Hc.
      destruct (lstrip (rev (c :: r))) as [|x y] eqn:E2.
      * apply lstrip_nil_blank in E2. rewrite forallb_forall in E2.
        assert (Hin : In c (rev (c :: r))) by (apply in_rev; rewrite rev_involutive; left; reflexivity).
        apply E2 in Hin. congruence.
      * assert (Hne : rev (x :: y) <> []).
        { simpl. intros Habs. apply app_eq_nil in Habs as [_ Habs]. discriminate. }
        destruct (rev (x :: y)); [contradiction | discriminate H].
  - intros H. rewrite (lstrip_blank _ H). reflexivity.
Qed.

Lemma blank_dec : forall s,
  truthy (strip s) = negb (forallb is_space s).
Proof.
  intros s. destruct (forallb is_space s) eqn:E.
  - apply strip_blank_iff; exact E.
  - destruct (truthy (strip s)) eqn:T; [reflexivity|].
    apply strip_blank_iff in T. congruence.
Qed.

Lemma forallb_space_lower : forall s,
  forallb is_space (lower s) = forallb is_space s.
Proof.
  induction s as [|c s IH]; simpl; [reflexivity|].
  rewrite is_space_lower, IH. reflexivity.
Qed.

Lemma count_char_lower_question : forall s,
  count_char "?" (lower s) = count_char "?" s.
Proof.
  unfold count_char, lower. induction s as [|c s IH]; [reflexivity|].
  cbn [map filter]. rewrite question_lower.
  destruct (Ascii.eqb "?" c); cbn [length]; rewrite IH; reflexivity.
Qed.

Lemma count_char_lower_bang : forall s,
  count_char "!" (lower s) = count_char "!" s.
Proof.
  unfold count_char, lower. induction s as [|c s IH]; [reflexivity|].
  cbn [map filter]. rewrite bang_lower.
  destruct (Ascii.eqb "!" c); cbn [length]; rewrite IH; reflexivity.
Qed.

(** The guard [if ch in s] before [s.count(ch)] changes nothing. *)
Lemma has_char_count : forall ch s,
  has_char ch s = false -> count_char ch s = 0.
Proof.
  unfold has_char, count_char. induction s as [|c s IH]; [reflexivity|].
  cbn [existsb filter]. intros H. apply orb_false_iff in H as [Hc Hs].
  rewrite Hc. auto.
Qed.

Lemma count_char_app : forall ch s t,
  count_char ch (s ++ t) = count_char ch s + count_char ch t.
Proof.
  intros. unfold count_char. rewrite filter_app, length_app. reflexivity.
Qed.

Lemma count_char_blank : forall ch s,
  (forall c, is_space c = true -> Ascii.eqb ch c = false) ->
  forallb is_space s = true -> count_char ch s = 0.
Proof.
  intros ch s Hch. unfold count_char. induction s as [|c s IH]; [reflexivity|].
  cbn [forallb filter]. intros H. apply andb_true_iff in H as [Hc Hs].
  rewrite (Hch _ Hc). auto.
Qed.

Lemma split_ws_length : forall s, length (split_ws s) = count_words false s.
Proof.
  induction s as [|c s IH]; [reflexivity|].
  cbn [split_ws count_words]. destruct (is_space c); [exact IH|].
  destruct s as [|d s']; [reflexivity|].
  destruct (is_space d) eqn:Hd.
  - cbn [length]. rewrite IH. cbn [count_words]. rewrite Hd. reflexivity.
  - cbn [count_words] in *. rewrite Hd in *.
    destruct (split_ws (d :: s')) as [|w ws]; cbn [length] in *; lia.
Qed.

Lemma count_words_lower : forall s b,
  count_words b (lower s) = count_words b s.
Proof.
  induction s as [|c s IH]; intros b; [reflexivity|].
  cbn [lower map count_words]. rewrite is_space_lower.
  fold (lower s). rewrite !IH. reflexivity.
Qed.

Lemma count_words_app : forall s t b,
  count_words b s <= count_words b (s ++ t).
Proof.
  induction s as [|c s IH]; intros t b; cbn [app count_words]; [lia|].
  destruct (is_space c); [apply IH|].
  specialize (IH t true). lia.
Qed.

Lemma count_words_blank : forall s b,
  forallb is_space s = true -> count_words b s = 0.
Proof.
  induction s as [|c s IH]; intros b; cbn [forallb count_words]; [reflexivity|].
  intros H. apply andb_true_iff in H as [Hc Hs]. rewrite Hc. auto.
Qed.

(* ================================================================= *)
(** ** The matcher *)

Lemma nth_error_lower : forall s i,
  nth_error (lower s) i = option_map to_lower (nth_error s i).
Proof. intros. unfold lower. apply nth_error_map. Qed.

Lemma word_at_lower : forall s i, word_at (lower s) i = word_at s i.
Proof.
  intros. unfold word_at. rewrite nth_error_lower.
  destruct (nth_error s i); simpl; [apply is_word_lower | reflexivity].
Qed.

Lemma at_boundary_lower : forall s i, at_boundary (lower s) i = at_boundary s i.
Proof.
  intros. unfold at_boundary. destruct i; rewrite ?word_at_lower; reflexivity.
Qed.

Lemma in_class_lower : forall cl x, in_class cl (to_lower x) = in_class cl x.
Proof.
  intros [cs| |] x; cbn [in_class].
  - rewrite to_lower_idem. reflexivity.
  - apply is_word_lower.
  - apply is_digit_lower.
Qed.

Lemma lit_match_lower : forall c x, lit_match c (to_lower x) = lit_match c x.
Proof. intros. unfold lit_match. rewrite to_lower_idem. reflexivity. Qed.

Lemma rounds_ext : forall body body',
  (forall i g k k', (forall j h, k j h = k' j h) -> body i g k = body' i g k') ->
  forall fuel k k' i g,
  (forall j h, k j h = k' j h) ->
  rounds body k fuel i g = rounds body' k' fuel i g.
Proof.
  intros body body' Hb. induction fuel as [|fuel IH]; intros k k' i g Hk;
    [reflexivity|].
  cbn [rounds]. apply Hb. intros j h.
  destruct (j <=? i); [apply Hk|].
  rewrite (IH k k' j h Hk), Hk. reflexivity.
Qed.

(** Matching does not depend on the case of the subject. *)
Lemma run_lower : forall r s i g k k',
  (forall j h, k j h = k' j h) ->
  run (lower s) r i g k = run s r i g k'.
Proof.
  induction r as [|c|cl|a IHa b IHb|a IHa b IHb|a IHa|a IHa| |a IHa];
    intros s i g k k' Hk; cbn [run].
  - apply Hk.
  - rewrite nth_error_lower. destruct (nth_error s i); cbn [option_map]; [|reflexivity].
    rewrite lit_match_lower, Hk. reflexivity.
  - rewrite nth_error_lower. destruct (nth_error s i); cbn [option_map]; [|reflexivity].
    rewrite in_class_lower, Hk. reflexivity.
  - apply IHa. intros j h. apply IHb. exact Hk.
  - rewrite (IHa s i g k k' Hk), (IHb s i g k k' Hk). reflexivity.
  - rewrite (IHa s i g k k' Hk), Hk. reflexivity.
  - unfold lower at 2. rewrite length_map. apply rounds_ext; [|exact Hk].
    intros; apply IHa; assumption.
  - rewrite at_boundary_lower, Hk. reflexivity.
  - apply IHa. intros j h. apply Hk.
Qed.

Lemma match_at_lower : forall r s i,
  match_at (lower s) r i = match_at s r i.
Proof.
  intros. unfold match_at.
  rewrite (run_lower r s i None _ (fun j g => Some (j, g))); reflexivity.
Qed.

Lemma scan_lower : forall r s fuel i,
  scan (lower s) r fuel i = scan s r fuel i.
Proof.
  intros r s. induction fuel as [|fuel IH]; intros i; [reflexivity|].
  cbn [scan]. unfold lower at 1. rewrite length_map. fold (lower s).
  rewrite match_at_lower.
  destruct (length s <? i); [reflexivity|].
  destruct (match_at s r i); rewrite IH; reflexivity.
Qed.

Lemma occurrences_lower : forall p s,
  occurrences p (lower s) = occurrences p s.
Proof.
  intros. unfold occurrences, findall, finditer. rewrite !length_map.
  unfold lower at 2. rewrite length_map. rewrite scan_lower. reflexivity.
Qed.

(** *** Fuel

    The loops of [+] and of [finditer] are given as many rounds as the text
    has positions; more rounds would give the same result, so running out
    of rounds is never what ends them. *)

Lemma run_ext_upto : forall r s i g k k',
  i <= length s ->
  (forall j h, i <= j <= length s -> k j h = k' j h) ->
  run s r i g k = run s r i g k'.
Proof.
  induction r as [|c|cl|a IHa b IHb|a IHa b IHb|a IHa|a IHa| |a IHa];
    intros s i g k k' Hi Hk; cbn [run].
  - apply Hk. lia.
  - destruct (nth_error s i) as [x|] eqn:E; [|reflexivity].
    assert (i < length s) by (apply nth_error_Some; congruence).
    rewrite Hk by lia. reflexivity.
  - destruct (nth_error s i) as [x|] eqn:E; [|reflexivity].
    assert (i < length s) by (apply nth_error_Some; congruence).
    rewrite Hk by lia. reflexivity.
  - apply IHa; [exact Hi|]. intros j h Hj. apply IHb; [lia|].
    intros j' h' Hj'. apply Hk. lia.
  - rewrite (IHa s i g k k' Hi Hk), (IHb s i g k k' Hi Hk). reflexivity.
  - rewrite (IHa s i g k k' Hi Hk), Hk by lia. reflexivity.
  - generalize (S (length s)) as fuel. intros fuel. revert i g Hi Hk.
    induction fuel as [|fuel IHf]; intros i g Hi Hk; [reflexivity|].
    cbn [rounds]. apply IHa; [exact Hi|]. intros j h Hj.
    destruct (j <=? i) eqn:E; [apply Hk; lia|]. apply Nat.leb_gt in E.
    rewrite (IHf j h) by (try lia; intros; apply Hk; lia).
    rewrite Hk by lia. reflexivity.
  - rewrite Hk by lia. reflexivity.
  - apply IHa; [exact Hi|]. intros j h Hj. apply Hk. lia.
Qed.

Lemma rounds_fuel : forall a s k fuel1 fuel2 i g,
  i <= length s -> length s < fuel1 + i -> length s < fuel2 + i ->
  rounds (run s a) k fuel1 i g = rounds (run s a) k fuel2 i g.
Proof.
  intros a s k. induction fuel1 as [|fuel1 IH]; intros fuel2 i g Hi H1 H2; [lia|].
  destruct fuel2 as [|fuel2]; [lia|]. cbn [rounds].
  apply run_ext_upto; [exact Hi|]. intros j h Hj.
  destruct (j <=? i) eqn:E; [reflexivity|]. apply Nat.leb_gt in E.
  rewrite (IH fuel2 j h) by lia. reflexivity.
Qed.

Lemma scan_fuel : forall s r fuel1 fuel2 i,
  length s < fuel1 + i -> length s < fuel2 + i ->
  scan s r fuel1 i = scan s r fuel2 i.
Proof.
  intros s r. induction fuel1 as [|fuel1 IH]; intros fuel2 i H1 H2.
  - destruct fuel2 as [|fuel2]; [reflexivity|]. cbn [scan].
    assert (E : (length s <? i) = true) by (apply Nat.ltb_lt; lia).
    rewrite E. reflexivity.
  - destruct fuel2 as [|fuel2]; cbn [scan].
    + assert (E : (length s <? i) = true) by (apply Nat.ltb_lt; lia).
      rewrite E. reflexivity.
    + destruct (length s <? i) eqn:E; [reflexivity|].
      destruct (match_at s r i) as [m|].
      * f_equal. destruct (i <? m_end m) eqn:Em.
        -- apply Nat.ltb_lt in Em. apply IH; lia.
        -- apply IH; lia.
      * apply IH; lia.
Qed.

(** *** Texts without a word character *)

Lemma word_at_blank : forall s i,
  forallb is_space s = true -> word_at s i = false.
Proof.
  intros s i H. unfold word_at. destruct (nth_error s i) as [c|] eqn:E; [|reflexivity].
  apply space_not_word. rewrite forallb_forall in H. apply H.
  eapply nth_error_In; eauto.
Qed.

Lemma at_boundary_blank : forall s i,
  forallb is_space s = true -> at_boundary s i = false.
Proof.
  intros s i H. unfold at_boundary.
  destruct i; rewrite !word_at_blank by assumption; reflexivity.
Qed.

Lemma match_at_needs_boundary : forall s r a i,
  body_of r = Some a -> at_boundary s i = false -> match_at s r i = None.
Proof.
  intros s r a i Hr Hb.
  destruct r as [| | |r1 r2| | | | |]; try discriminate.
  destruct r1; try discriminate.
  unfold match_at. cbn [run]. rewrite Hb. reflexivity.
Qed.

Lemma search_from_blank : forall s r a fuel i,
  body_of r = Some a -> forallb is_space s = true ->
  search_from s r fuel i = None.
Proof.
  intros s r a fuel. induction fuel as [|fuel IH]; intros i Hr Hs; [reflexivity|].
  cbn [search_from].
  rewrite (match_at_needs_boundary _ _ _ _ Hr (at_boundary_blank _ i Hs)). auto.
Qed.

Lemma scan_blank : forall s r a fuel i,
  body_of r = Some a -> forallb is_space s = true -> scan s r fuel i = [].
Proof.
  intros s r a fuel. induction fuel as [|fuel IH]; intros i Hr Hs; [reflexivity|].
  cbn [scan]. destruct (length s <? i); [reflexivity|].
  rewrite (match_at_needs_boundary _ _ _ _ Hr (at_boundary_blank _ i Hs)). auto.
Qed.

(** *** Keyword patterns and their words *)

Lemma ci_at_app : forall u v s i,
  ci_at (u ++ v) s i = ci_at u s i && ci_at v s (i + length u).
Proof.
  induction u as [|c u IH]; intros v s i; cbn [app ci_at length].
  - rewrite Nat.add_0_r. reflexivity.
  - destruct (nth_error s i); [|reflexivity].
    rewrite IH, andb_assoc. do 2 f_equal. lia.
Qed.

Lemma ci_at_nth : forall w s i,
  ci_at w s i = true ->
  forall k c, nth_error w k = Some c ->
  exists x, nth_error s (i + k) = Some x /\ lit_match c x = true.
Proof.
  induction w as [|a w IH]; intros s i H k c Hk.
  - destruct k; discriminate.
  - cbn [ci_at] in H. destruct (nth_error s i) as [x|] eqn:E; [|discriminate].
    apply andb_true_iff in H as [Hx Hw].
    destruct k as [|k]; cbn [nth_error] in Hk.
    + injection Hk as <-. exists x. rewrite Nat.add_0_r. auto.
    + destruct (IH s (S i) Hw k c Hk) as [y [Hy Hm]].
      exists y. split; [|exact Hm]. rewrite <- Hy. f_equal. lia.
Qed.

Lemma ci_at_intro : forall w s i,
  (forall k c, nth_error w k = Some c ->
     exists x, nth_error s (i + k) = Some x /\ lit_match c x = true) ->
  ci_at w s i = true.
Proof.
  induction w as [|a w IH]; intros s i H; [reflexivity|].
  cbn [ci_at]. destruct (H 0 a eq_refl) as [x [Hx Hm]].
  rewrite Nat.add_0_r in Hx. rewrite Hx, Hm. cbn [andb].
  apply IH. intros k c Hk. destruct (H (S k) c Hk) as [y [Hy Hy']].
  exists y. split; [|exact Hy']. rewrite <- Hy. f_equal. lia.
Qed.

Lemma ci_at_length : forall w s i,
  ci_at w s i = true -> 0 < length w -> i + length w <= length s.
Proof.
  intros w s i H Hw.
  destruct (nth_error w (length w - 1)) as [c|] eqn:E.
  - destruct (ci_at_nth _ _ _ H _ _ E) as [x [Hx _]].
    assert (i + (length w - 1) < length s) by (apply nth_error_Some; congruence).
    lia.
  - apply nth_error_None in E. lia.
Qed.

Lemma ci_at_word_at : forall w s i,
  ci_at w s i = true -> forall k, k < length w -> word_at s (i + k) = word_at w k.
Proof.
  intros w s i H k Hk. unfold word_at.
  destruct (nth_error w k) as [c|] eqn:E.
  - destruct (ci_at_nth _ _ _ H _ _ E) as [x [Hx Hm]]. rewrite Hx.
    apply lit_match_word. exact Hm.
  - apply nth_error_None in E. lia.
Qed.

Lemma boundary_inside : forall w s i,
  ci_at w s i = true ->
  forall k, 0 < k -> k < length w -> at_boundary s (i + k) = at_boundary w k.
Proof.
  intros w s i H k Hk0 Hk. unfold at_boundary.
  destruct k as [|k]; [lia|]. replace (i + S k) with (S (i + k)) by lia.
  rewrite (ci_at_word_at _ _ _ H k) by lia.
  replace (S (i + k)) with (i + S k) by lia.
  rewrite (ci_at_word_at _ _ _ H (S k)) by lia. reflexivity.
Qed.

Lemma ci_at_inner : forall w w' s i d,
  ci_at w s i = true -> ci_at w' s (i + d) = true ->
  d + length w' <= length w -> ci_at w' w d = true.
Proof.
  intros w w' s i d Hw Hw' Hlen. apply ci_at_intro. intros k c Hk.
  assert (Hk' : k < length w') by (apply nth_error_Some; congruence).
  destruct (nth_error w (d + k)) as [y|] eqn:Ey.
  - exists y. split; [reflexivity|].
    destruct (ci_at_nth _ _ _ Hw _ _ Ey) as [x [Hx Hm]].
    destruct (ci_at_nth _ _ _ Hw' _ _ Hk) as [x' [Hx' Hm']].
    replace (i + d + k) with (i + (d + k)) in Hx' by lia.
    rewrite Hx in Hx'. injection Hx' as <-.
    unfold lit_match in *. apply Ascii.eqb_eq in Hm, Hm'. apply Ascii.eqb_eq.
    congruence.
  - apply nth_error_None in Ey. lia.
Qed.

Lemma word_ends_ok_length : forall w, word_ends_ok w = true -> 0 < length w.
Proof. intros [|c w] H; [discriminate | cbn; lia]. Qed.

Lemma nth_error_last : forall (A : Type) (l : list A) (d : A),
  l <> [] -> nth_error l (length l - 1) = Some (last l d).
Proof.
  induction l as [|a l IH]; intros d Hl; [contradiction|].
  destruct l as [|b l]; [reflexivity|].
  assert (Hb : b :: l <> []) by discriminate.
  specialize (IH d Hb). cbn [length] in *.
  replace (S (S (length l)) - 1) with (S (length l)) by lia.
  replace (S (length l) - 1) with (length l) in IH by lia.
  cbn [nth_error]. rewrite IH. reflexivity.
Qed.

Lemma word_ends_ok_last : forall w,
  word_ends_ok w = true -> word_at w (length w - 1) = true.
Proof.
  intros [|c w] H; [discriminate|]. cbn [word_ends_ok] in H.
  apply andb_true_iff in H as [_ H]. unfold word_at.
  rewrite (nth_error_last _ (c :: w) c) by discriminate. exact H.
Qed.

Lemma word_ends_ok_first : forall w, word_ends_ok w = true -> word_at w 0 = true.
Proof.
  intros [|c w] H; [discriminate|]. cbn [word_ends_ok] in H.
  apply andb_true_iff in H as [H _]. exact H.
Qed.

Lemma in_class_set : forall cs x,
  in_class (CSet cs) x = true <-> exists c, In c cs /\ lit_match c x = true.
Proof.
  intros. cbn [in_class]. rewrite existsb_exists. reflexivity.
Qed.

(** What a simple pattern matches is one of its words. *)
Lemma run_simple_sound : forall r, simple r = true ->
  forall s i g k res, run s r i g k = Some res ->
  exists w, In w (lang r) /\ ci_at w s i = true /\ k (i + length w) g = Some res.
Proof.
  induction r as [|c|cl|a IHa b IHb|a IHa b IHb|a IHa|a IHa| |a IHa];
    intros Hs s i g k res H; cbn [simple] in Hs; try discriminate; cbn [run] in H.
  - exists []. cbn. rewrite Nat.add_0_r. auto.
  - destruct (nth_error s i) as [x|] eqn:E; [|discriminate].
    destruct (lit_match c x) eqn:Hm; [|discriminate].
    exists [c]. cbn [lang ci_at length]. rewrite E, Hm.
    replace (i + 1) with (S i) by lia. cbn. auto.
  - destruct cl as [cs| |]; try discriminate.
    destruct (nth_error s i) as [x|] eqn:E; [|discriminate].
    destruct (in_class (CSet cs) x) eqn:Hm; [|discriminate].
    apply in_class_set in Hm as [c [Hc Hm]].
    exists [c]. cbn [lang ci_at length]. rewrite E, Hm.
    replace (i + 1) with (S i) by lia. split; [|auto].
    apply in_map_iff. exists c. auto.
  - apply andb_true_iff in Hs as [Ha Hb].
    apply (IHa Ha) in H as [u [Hu [Hcu H]]].
    apply (IHb Hb) in H as [v [Hv [Hcv H]]].
    exists (u ++ v). rewrite ci_at_app, Hcu, Hcv, length_app, Nat.add_assoc.
    split; [|auto]. cbn [lang]. apply in_flat_map. exists u. split; [exact Hu|].
    apply in_map. exact Hv.
  - apply andb_true_iff in Hs as [Ha Hb]. cbn [lang].
    destruct (run s a i g k) eqn:E.
    + injection H as <-. apply (IHa Ha) in E as [w [Hw Hr]].
      exists w. split; [apply in_or_app; left; exact Hw | exact Hr].
    + apply (IHb Hb) in H as [w [Hw Hr]].
      exists w. split; [apply in_or_app; right; exact Hw | exact Hr].
  - cbn [lang]. destruct (run s a i g k) eqn:E.
    + injection H as <-. apply (IHa Hs) in E as [w [Hw Hr]].
      exists w. split; [apply in_or_app; left; exact Hw | exact Hr].
    + exists []. split; [apply in_or_app; right; left; reflexivity|].
      cbn. rewrite Nat.add_0_r. auto.
Qed.

(** Every word of a simple pattern that stands at [i] and lets the rest of
    the pattern go on makes the pattern match. *)
Lemma run_simple_complete : forall r, simple r = true ->
  forall s i g k w, In w (lang r) -> ci_at w s i = true ->
  k (i + length w) g <> None -> run s r i g k <> None.
Proof.
  induction r as [|c|cl|a IHa b IHb|a IHa b IHb|a IHa|a IHa| |a IHa];
    intros Hs s i g k w Hw Hc Hk; cbn [simple] in Hs; try discriminate;
    cbn [run lang] in *.
  - destruct Hw as [<-|[]]. cbn in Hk. rewrite Nat.add_0_r in Hk. exact Hk.
  - destruct Hw as [<-|[]]. cbn [ci_at length] in *.
    destruct (nth_error s i); [|discriminate].
    destruct (lit_match c a); [|discriminate].
    replace (i + 1) with (S i) in Hk by lia. exact Hk.
  - destruct cl as [cs| |]; try discriminate.
    apply in_map_iff in Hw as [c [<- Hcs]]. cbn [ci_at length] in *.
    destruct (nth_error s i) as [x|]; [|discriminate].
    destruct (lit_match c x) eqn:Hm; [|discriminate].
    assert (Hin : in_class (CSet cs) x = true) by (apply in_class_set; eauto).
    rewrite Hin. replace (i + 1) with (S i) in Hk by lia. exact Hk.
  - apply andb_true_iff in Hs as [Ha Hb].
    apply in_flat_map in Hw as [u [Hu Hw]]. apply in_map_iff in Hw as [v [<- Hv]].
    rewrite ci_at_app in Hc. apply andb_true_iff in Hc as [Hcu Hcv].
    apply (IHa Ha) with (w := u); [exact Hu | exact Hcu|].
    apply (IHb Hb) with (w := v); [exact Hv | exact Hcv|].
    rewrite length_app, Nat.add_assoc in Hk. exact Hk.
  - apply andb_true_iff in Hs as [Ha Hb].
    destruct (run s a i g k) eqn:E; [discriminate|].
    apply in_app_or in Hw as [Hw|Hw].
    + exfalso. apply (IHa Ha s i g k w Hw Hc Hk). exact E.
    + apply (IHb Hb) with (w := w); assumption.
  - destruct (run s a i g k) eqn:E; [discriminate|].
    apply in_app_or in Hw as [Hw|[<-|[]]].
    + exfalso. apply (IHa Hs s i g k w Hw Hc Hk). exact E.
    + cbn in Hk. rewrite Nat.add_0_r in Hk. exact Hk.
Qed.

Lemma body_of_shape : forall r a, body_of r = Some a -> r = Cat Bnd (Cat a Bnd).
Proof.
  intros r a H. destruct r as [| | |r1 r2| | | | |]; try discriminate.
  destruct r1; try discriminate. destruct r2 as [| | |r3 r4| | | | |]; try discriminate.
  destruct r4; try discriminate. cbn in H. congruence.
Qed.

Lemma match_at_sound : forall s r a i m,
  body_of r = Some a -> simple a = true -> match_at s r i = Some m ->
  m = MkMatch i (m_end m) None /\ occ (lang a) s i (m_end m).
Proof.
  intros s r a i m Hr Ha H. apply body_of_shape in Hr. subst r.
  unfold match_at in H. cbn [run] in H.
  destruct (at_boundary s i) eqn:Hb; [|discriminate].
  destruct (run s a i None _) as [[j g]|] eqn:E; [|discriminate].
  injection H as <-. cbn [m_end].
  apply (run_simple_sound a Ha) in E as [w [Hw [Hc E]]].
  destruct (at_boundary s (i + length w)) eqn:Hb'; [|discriminate].
  injection E as <- <-. split; [reflexivity|].
  unfold occ. repeat split; try assumption. exists w. auto.
Qed.

Lemma match_at_complete : forall s r a i j,
  body_of r = Some a -> simple a = true -> occ (lang a) s i j ->
  match_at s r i <> None.
Proof.
  intros s r a i j Hr Ha [Hb [Hb' [w [Hw [Hc ->]]]]].
  apply body_of_shape in Hr. subst r. unfold match_at. cbn [run]. rewrite Hb.
  destruct (run s a i None _) as [[j g]|] eqn:E; [discriminate|].
  exfalso. revert E. apply (run_simple_complete a Ha) with (w := w); try assumption.
  rewrite Hb'. discriminate.
Qed.

(** No occurrence lies within another one. *)
Lemma occ_not_nested : forall W s i j i' j',
  forallb word_ends_ok W = true -> nest_free W = true ->
  occ W s i j -> occ W s i' j' -> i <= i' -> j' <= j -> i = i' /\ j = j'.
Proof.
  intros W s i j i' j' Hok Hnf [Hbi [Hbj [w [Hw [Hc ->]]]]]
    [Hbi' [Hbj' [w' [Hw' [Hc' ->]]]]] Hi Hj.
  rewrite forallb_forall in Hok.
  pose proof (word_ends_ok_length _ (Hok _ Hw')) as Hlen'.
  set (d := i' - i). assert (Hd : i' = i + d) by (unfold d; lia).
  assert (Hfit : d + length w' <= length w) by lia.
  destruct (Nat.eq_dec d 0) as [Hd0|Hd0];
    [destruct (Nat.eq_dec (length w') (length w)) as [Hl|Hl]; [lia|]|].
  all: exfalso.
  all: unfold nest_free in Hnf; rewrite forallb_forall in Hnf;
    specialize (Hnf w Hw); rewrite forallb_forall in Hnf;
    specialize (Hnf w' Hw'); rewrite forallb_forall in Hnf;
    assert (Hin : In d (seq 0 (S (length w - length w')))) by (apply in_seq; lia);
    specialize (Hnf d Hin); apply negb_true_iff in Hnf;
    assert (Hn : nests w w' d = true); [|congruence].
  all: unfold nests; rewrite Hd in Hc';
    rewrite (ci_at_inner w w' s i d Hc Hc' Hfit); cbn [andb].
  all: repeat (apply andb_true_iff; split).
  - rewrite Hd0. reflexivity.
  - apply orb_true_iff. right.
    rewrite <- (boundary_inside w s i Hc (d + length w')) by lia.
    rewrite <- Hbj'. f_equal. lia.
  - apply negb_true_iff. apply andb_false_iff. right. apply Nat.eqb_neq. exact Hl.
  - apply orb_true_iff. right.
    rewrite <- (boundary_inside w s i Hc d) by lia. rewrite <- Hbi'. f_equal. lia.
  - destruct (Nat.eq_dec (d + length w') (length w)) as [E|E].
    + apply orb_true_iff. left. apply Nat.eqb_eq. exact E.
    + apply orb_true_iff. right.
      rewrite <- (boundary_inside w s i Hc (d + length w')) by lia.
      rewrite <- Hbj'. f_equal. lia.
  - apply negb_true_iff. apply andb_false_iff. left. apply Nat.eqb_neq. exact Hd0.
Qed.

Lemma occ_unique_end : forall W s i j j',
  forallb word_ends_ok W = true -> nest_free W = true ->
  occ W s i j -> occ W s i j' -> j = j'.
Proof.
  intros W s i j j' Hok Hnf H H'.
  destruct (le_lt_dec j' j) as [L|L].
  - apply (occ_not_nested W s i j i j' Hok Hnf H H'); lia.
  - symmetry. apply (occ_not_nested W s i j' i j Hok Hnf H' H); lia.
Qed.

Lemma occ_bounds : forall W s i j,
  forallb word_ends_ok W = true -> occ W s i j -> i < j /\ j <= length s.
Proof.
  intros W s i j Hok [_ [_ [w [Hw [Hc ->]]]]].
  rewrite forallb_forall in Hok.
  pose proof (word_ends_ok_length _ (Hok _ Hw)).
  pose proof (ci_at_length _ _ _ Hc). lia.
Qed.

(** The match of a keyword pattern at a position is the occurrence there. *)
Lemma match_at_occ : forall p s i j,
  keyword_pattern p = true -> occ (keyword_words p) s i j ->
  match_at s (compiled p) i = Some (MkMatch i j None).
Proof.
  intros p s i j Hp H. unfold keyword_pattern, keyword_words in *.
  destruct (body_of (compiled p)) as [a|] eqn:Hr; [|discriminate].
  apply andb_true_iff in Hp as [Hp Hnf]. apply andb_true_iff in Hp as [Ha Hok].
  destruct (match_at s (compiled p) i) as [m|] eqn:E.
  - destruct (match_at_sound _ _ _ _ _ Hr Ha E) as [Hm Ho].
    rewrite Hm. f_equal. f_equal.
    apply (occ_unique_end _ _ _ _ _ Hok Hnf Ho H).
  - exfalso. apply (match_at_complete _ _ _ _ _ Hr Ha H). exact E.
Qed.

Lemma match_at_keyword : forall p s i m,
  keyword_pattern p = true -> match_at s (compiled p) i = Some m ->
  m = MkMatch i (m_end m) None /\ occ (keyword_words p) s i (m_end m).
Proof.
  intros p s i m Hp H. unfold keyword_pattern, keyword_words in *.
  destruct (body_of (compiled p)) as [a|] eqn:Hr; [|discriminate].
  apply andb_true_iff in Hp as [Hp Hnf]. apply andb_true_iff in Hp as [Ha Hok].
  apply (match_at_sound _ _ _ _ _ Hr Ha H).
Qed.

Lemma keyword_pattern_words : forall p,
  keyword_pattern p = true ->
  forallb word_ends_ok (keyword_words p) = true /\
  nest_free (keyword_words p) = true.
Proof.
  intros p Hp. unfold keyword_pattern, keyword_words in *.
  destruct (body_of (compiled p)); [|discriminate].
  apply andb_true_iff in Hp as [Hp Hnf]. apply andb_true_iff in Hp as [Ha Hok].
  auto.
Qed.

(** *** Appending text *)

Lemma word_at_app : forall c t k, k < length c -> word_at (c ++ t) k = word_at c k.
Proof. intros. unfold word_at. rewrite nth_error_app1 by assumption. reflexivity. Qed.

Lemma word_at_app_end : forall c t, word_at (c ++ t) (length c) = word_at t 0.
Proof.
  intros. unfold word_at. rewrite nth_error_app2 by lia.
  rewrite Nat.sub_diag. reflexivity.
Qed.

Lemma word_at_end : forall c, word_at c (length c) = false.
Proof.
  intros. unfold word_at.
  destruct (nth_error c (length c)) eqn:E; [|reflexivity].
  assert (length c < length c) by (apply nth_error_Some; congruence). lia.
Qed.

Lemma at_boundary_app : forall c t k,
  k < length c -> at_boundary (c ++ t) k = at_boundary c k.
Proof.
  intros c t k Hk. unfold at_boundary.
  destruct k; rewrite !word_at_app by lia; reflexivity.
Qed.

Lemma ci_at_app_l : forall w c t i,
  ci_at w c i = true -> ci_at w (c ++ t) i = true.
Proof.
  intros w c t i H. apply ci_at_intro. intros k x Hk.
  destruct (ci_at_nth _ _ _ H _ _ Hk) as [y [Hy Hm]].
  exists y. split; [|exact Hm].
  rewrite nth_error_app1; [exact Hy|]. apply nth_error_Some. congruence.
Qed.

Lemma ci_at_app_inv : forall w c t i,
  ci_at w (c ++ t) i = true -> i + length w <= length c -> ci_at w c i = true.
Proof.
  intros w c t i H Hl. apply ci_at_intro. intros k x Hk.
  destruct (ci_at_nth _ _ _ H _ _ Hk) as [y [Hy Hm]].
  exists y. split; [|exact Hm].
  assert (k < length w) by (apply nth_error_Some; congruence).
  rewrite nth_error_app1 in Hy by lia. exact Hy.
Qed.

Lemma occ_last_word : forall w s i,
  word_ends_ok w = true -> ci_at w s i = true ->
  word_at s (i + length w - 1) = true.
Proof.
  intros w s i Hok Hc. pose proof (word_ends_ok_length _ Hok).
  replace (i + length w - 1) with (i + (length w - 1)) by lia.
  rewrite (ci_at_word_at _ _ _ Hc) by lia. apply word_ends_ok_last. exact Hok.
Qed.

Lemma occ_app : forall W c t i j,
  forallb word_ends_ok W = true -> clean_junction c t ->
  occ W c i j -> occ W (c ++ t) i j.
Proof.
  intros W c t i j Hok Hj H. pose proof (occ_bounds _ _ _ _ Hok H) as [Hij Hjc].
  destruct H as [Hbi [Hbj [w [Hw [Hc ->]]]]].
  rewrite forallb_forall in Hok. specialize (Hok _ Hw).
  unfold occ. split; [rewrite at_boundary_app by lia; exact Hbi|].
  split; [|exists w; split; [exact Hw|split; [apply ci_at_app_l; exact Hc | reflexivity]]].
  destruct (Nat.eq_dec (i + length w) (length c)) as [E|E].
  - pose proof (occ_last_word _ _ _ Hok Hc) as Hl. rewrite E in *.
    unfold at_boundary. destruct (length c) as [|n] eqn:En; [lia|].
    rewrite <- En. rewrite word_at_app_end. rewrite word_at_app by lia.
    replace (S n - 1) with n in Hl by lia.
    destruct Hj as [Hj|Hj].
    + rewrite En in Hj. replace (S n - 1) with n in Hj by lia. congruence.
    + rewrite Hl, Hj. reflexivity.
  - rewrite at_boundary_app by lia. exact Hbj.
Qed.

Lemma occ_app_inv : forall W c t i j,
  forallb word_ends_ok W = true ->
  occ W (c ++ t) i j -> j <= length c -> occ W c i j.
Proof.
  intros W c t i j Hok H Hjc. pose proof (occ_bounds _ _ _ _ Hok H) as [Hij _].
  destruct H as [Hbi [Hbj [w [Hw [Hc ->]]]]].
  rewrite forallb_forall in Hok. specialize (Hok _ Hw).
  pose proof (ci_at_app_inv _ _ _ _ Hc Hjc) as Hc'.
  unfold occ. split; [rewrite at_boundary_app in Hbi by lia; exact Hbi|].
  split; [|exists w; auto].
  destruct (Nat.eq_dec (i + length w) (length c)) as [E|E].
  - pose proof (occ_last_word _ _ _ Hok Hc') as Hl. rewrite E in *.
    unfold at_boundary. destruct (length c) as [|n] eqn:En; [lia|].
    rewrite <- En. rewrite word_at_end.
    replace (S n - 1) with n in Hl by lia. rewrite Hl. reflexivity.
  - rewrite at_boundary_app in Hbj by lia. exact Hbj.
Qed.

Lemma scan_none : forall s r fuel i,
  (forall i', i <= i' -> match_at s r i' = None) -> scan s r fuel i = [].
Proof.
  intros s r. induction fuel as [|fuel IH]; intros i H; [reflexivity|].
  cbn [scan]. destruct (length s <? i); [reflexivity|].
  rewrite (H i) by lia. apply IH. intros i' Hi'. apply H. lia.
Qed.

Lemma scan_past_end : forall s r fuel i, length s < i -> scan s r fuel i = [].
Proof.
  intros s r [|fuel] i H; [reflexivity|]. cbn [scan].
  apply Nat.ltb_lt in H. rewrite H. reflexivity.
Qed.

(** Appending text across a clean junction loses no occurrence of a
    keyword pattern. *)
Lemma scan_app_mono : forall p c t,
  keyword_pattern p = true -> clean_junction c t ->
  forall fuel fuel' i,
  i <= length c -> S (length c) <= fuel + i -> S (length (c ++ t)) <= fuel' + i ->
  length (scan c (compiled p) fuel i)
  <= length (scan (c ++ t) (compiled p) fuel' i).
Proof.
  intros p c t Hp Hj.
  destruct (keyword_pattern_words p Hp) as [Hok Hnf].
  induction fuel as [|fuel IH]; intros fuel' i Hi Hf Hf'; [cbn; lia|].
  assert (Hlen : length c <= length (c ++ t)) by (rewrite length_app; lia).
  destruct fuel' as [|fuel']; [lia|]. cbn [scan].
  assert (E1 : (length c <? i) = false) by (apply Nat.ltb_ge; lia).
  assert (E2 : (length (c ++ t) <? i) = false) by (apply Nat.ltb_ge; lia).
  rewrite E1, E2.
  destruct (match_at c (compiled p) i) as [m|] eqn:Em.
  - destruct (match_at_keyword _ _ _ _ Hp Em) as [Hm Ho].
    pose proof (occ_bounds _ _ _ _ Hok Ho) as [Hlt Hle].
    rewrite (match_at_occ p (c ++ t) i (m_end m) Hp (occ_app _ _ _ _ _ Hok Hj Ho)).
    cbn [m_end length]. apply Nat.ltb_lt in Hlt. rewrite Hlt.
    apply Nat.ltb_lt in Hlt. apply le_n_S. apply IH; lia.
  - destruct (match_at (c ++ t) (compiled p) i) as [m'|] eqn:Em'.
    + rewrite scan_none; [cbn; lia|].
      intros i' Hi'. destruct (match_at c (compiled p) i') as [m|] eqn:Em2; [|reflexivity].
      exfalso.
      destruct (match_at_keyword _ _ _ _ Hp Em') as [_ Ho'].
      destruct (match_at_keyword _ _ _ _ Hp Em2) as [_ Ho].
      pose proof (occ_bounds _ _ _ _ Hok Ho) as [_ Hle].
      assert (Hgt : length c < m_end m').
      { destruct (le_lt_dec (m_end m') (length c)) as [L|L]; [|exact L].
        exfalso. apply (occ_app_inv _ _ _ _ _ Hok Ho') in L.
        rewrite (match_at_occ p c i _ Hp L) in Em. discriminate. }
      apply (occ_app _ _ t _ _ Hok Hj) in Ho.
      destruct (occ_not_nested _ _ _ _ _ _ Hok Hnf Ho' Ho) as [Hii _]; lia.
    + destruct (Nat.eq_dec i (length c)) as [->|Hne].
      * rewrite scan_past_end by lia. cbn; lia.
      * apply IH; lia.
Qed.

Lemma occurrences_app_mono : forall p c t,
  keyword_pattern p = true -> clean_junction c t ->
  occurrences p c <= occurrences p (c ++ t).
Proof.
  intros p c t Hp Hj. unfold occurrences, findall, finditer.
  rewrite !length_map. apply scan_app_mono; try assumption; lia.
Qed.

Lemma important_patterns_keyword :
  forallb keyword_pattern important_patterns = true.
Proof. vm_compute. reflexivity. Qed.

Lemma action_patterns_keyword :
  forallb keyword_pattern action_patterns = true.
Proof. vm_compute. reflexivity. Qed.

(** *** The score loop *)

Lemma pattern_loop : forall text ps n l,
  fold_left (pattern_step text) ps (n, l)
  = (n + nat_sum (map (fun p => occurrences p text) ps),
     l ++ map source (filter (fun p => 0 <? occurrences p text) ps)).
Proof.
  intros text. induction ps as [|p ps IH]; intros n l; cbn [fold_left map filter nat_sum fold_right].
  - rewrite Nat.add_0_r, app_nil_r. reflexivity.
  - fold (nat_sum (map (fun p => occurrences p text) ps)).
    unfold pattern_step at 2. unfold occurrences at 1 3.
    destruct (findall (compiled p) text) as [|x xs] eqn:E; cbn [fst snd length].
    + rewrite IH. cbn [Nat.ltb Nat.leb]. f_equal. 
    + rewrite IH. cbn [Nat.ltb Nat.leb map]. rewrite <- app_assoc. cbn [app].
      f_equal. lia.
Qed.

Lemma importance_score_spec : forall text,
  importance_score text
  = (nat_sum (map (fun p => occurrences p text) important_patterns)
     + count_char "?" text + count_char "!" text
     + (if 20 <? length (split_ws text) then 1 else 0),
     map source (filter (fun p => 0 <? occurrences p text) important_patterns)).
Proof.
  intros text. unfold importance_score. rewrite pattern_loop. cbn [app].
  rewrite Nat.add_0_l. f_equal.
  destruct (has_char "?" text) eqn:Hq; destruct (has_char "!" text) eqn:Hb;
    rewrite ?(has_char_count _ _ Hq), ?(has_char_count _ _ Hb);
    destruct (20 <? length (split_ws text)); lia.
Qed.

(** The computed score of a segment is the score of the specification,
    taken on the content as stored. *)
Lemma segment_score_spec : forall text, segment_score text = spec_score text.
Proof.
  intros text. unfold segment_score, spec_score.
  rewrite importance_score_spec. cbn [fst].
  rewrite count_char_lower_question, count_char_lower_bang.
  rewrite !split_ws_length, count_words_lower.
  f_equal. f_equal. f_equal. f_equal.
  apply map_ext. intros p. apply occurrences_lower.
Qed.

Lemma matched_lower : forall text,
  snd (importance_score (lower text)) = spec_matched text.
Proof.
  intros text. rewrite importance_score_spec. cbn [snd]. unfold spec_matched.
  f_equal. apply filter_ext. intros p. rewrite occurrences_lower. reflexivity.
Qed.

(* ================================================================= *)
(** ** Sorting by descending key *)

Section SortDescFacts.
Variables (A K : Type) (ltb : K -> K -> bool) (key : A -> K).
Hypothesis ltb_asym : forall a b, ltb a b = true -> ltb b a = false.
Hypothesis geb_trans :
  forall a b c, ltb a b = false -> ltb b c = false -> ltb a c = false.

Lemma insert_desc_perm : forall x l,
  Permutation (insert_desc ltb key x l) (x :: l).
Proof.
  intros x. induction l as [|y l IH]; cbn [insert_desc]; [apply Permutation_refl|].
  destruct (ltb (key x) (key y)); [|apply Permutation_refl].
  eapply Permutation_trans; [apply perm_skip; exact IH | apply perm_swap].
Qed.

Lemma sort_desc_perm : forall l, Permutation (sort_desc ltb key l) l.
Proof.
  induction l as [|x l IH]; cbn [sort_desc fold_right]; [apply Permutation_refl|].
  eapply Permutation_trans; [apply insert_desc_perm|]. apply perm_skip. exact IH.
Qed.

Lemma insert_desc_sorted : forall x l,
  StronglySorted (before ltb key) l -> StronglySorted (before ltb key) (insert_desc ltb key x l).
Proof.
  intros x. induction l as [|y l IH]; intros Hs; cbn [insert_desc].
  - constructor; constructor.
  - inversion Hs as [|? ? Hl Hy]; subst.
    destruct (ltb (key x) (key y)) eqn:E.
    + constructor; [apply IH; exact Hl|].
      apply Forall_forall. intros z Hz.
      apply (Permutation_in _ (insert_desc_perm x l)) in Hz.
      destruct Hz as [<-|Hz]; [apply ltb_asym; exact E|].
      rewrite Forall_forall in Hy. apply Hy. exact Hz.
    + constructor; [exact Hs|]. constructor; [exact E|].
      apply Forall_forall. intros z Hz. rewrite Forall_forall in Hy.
      apply (geb_trans _ (key y)); [exact E | apply Hy; exact Hz].
Qed.

Lemma sort_desc_sorted : forall l, StronglySorted (before ltb key) (sort_desc ltb key l).
Proof.
  induction l as [|x l IH]; cbn [sort_desc fold_right]; [constructor|].
  apply insert_desc_sorted. exact IH.
Qed.
End SortDescFacts.

Lemma StronglySorted_firstn : forall (A : Type) (R : A -> A -> Prop) n l,
  StronglySorted R l -> StronglySorted R (firstn n l).
Proof.
  intros A R n. induction n as [|n IH]; intros l Hs; [constructor|].
  destruct l as [|x l]; [constructor|]. cbn [firstn].
  inversion Hs as [|? ? Hl Hx]; subst. constructor; [apply IH; exact Hl|].
  apply Forall_forall. intros y Hy. rewrite Forall_forall in Hx. apply Hx.
  revert Hy. clear. revert l. induction n as [|n IH]; intros [|z l] H; cbn in *; try contradiction.
  destruct H as [->|H]; [left; reflexivity | right; apply IH; exact H].
Qed.

Lemma StronglySorted_impl : forall (A : Type) (R R' : A -> A -> Prop) l,
  (forall a b, R a b -> R' a b) -> StronglySorted R l -> StronglySorted R' l.
Proof.
  intros A R R' l HR Hs. induction Hs as [|a l Hs IH Hf]; constructor;
    [exact IH|]. eapply Forall_impl; [|exact Hf]. intros b. apply HR.
Qed.

Lemma sort_notes_ranked : forall l, ranked (sort_desc Nat.ltb importance l).
Proof.
  intros l. unfold ranked.
  apply StronglySorted_impl with (R := before Nat.ltb importance).
  - intros a b Hb. unfold before in Hb. apply Nat.ltb_ge in Hb. exact Hb.
  - apply sort_desc_sorted.
    + intros a b H. apply Nat.ltb_lt in H. apply Nat.ltb_ge. lia.
    + intros a b c H1 H2. apply Nat.ltb_ge in H1, H2. apply Nat.ltb_ge. lia.
Qed.

(* ================================================================= *)
(** ** Important notes *)

Lemma keyword_pattern_body : forall p,
  keyword_pattern p = true -> exists a, body_of (compiled p) = Some a.
Proof.
  intros p H. unfold keyword_pattern in H.
  destruct (body_of (compiled p)) as [a|]; [eauto | discriminate].
Qed.

Lemma occurrences_blank : forall p text,
  keyword_pattern p = true -> forallb is_space text = true ->
  occurrences p text = 0.
Proof.
  intros p text Hp Hs. destruct (keyword_pattern_body p Hp) as [a Ha].
  unfold occurrences, findall, finditer. rewrite length_map.
  rewrite (scan_blank _ _ _ _ _ Ha Hs). reflexivity.
Qed.

Lemma spec_score_blank : forall text,
  forallb is_space text = true -> spec_score text = 0.
Proof.
  intros text Hs. unfold spec_score.
  rewrite (count_char_blank _ _ space_not_question Hs).
  rewrite (count_char_blank _ _ space_not_bang Hs).
  rewrite split_ws_length, (count_words_blank _ _ Hs). cbn [Nat.ltb Nat.leb].
  assert (E : forall ps, forallb keyword_pattern ps = true ->
            nat_sum (map (fun p => occurrences p text) ps) = 0).
  { induction ps as [|p ps IH]; cbn [forallb map nat_sum fold_right]; [reflexivity|].
    intros H. apply andb_true_iff in H as [Hp Hps].
    rewrite (occurrences_blank p text Hp Hs). apply IH. exact Hps. }
  rewrite (E _ important_patterns_keyword). reflexivity.
Qed.

Lemma important_note_of_spec : forall t, important_note_of t = spec_note_of t.
Proof.
  intros t. unfold important_note_of, spec_note_of.
  rewrite blank_dec, forallb_space_lower, negb_involutive.
  pose proof (segment_score_spec (get_content t)) as Hs.
  pose proof (matched_lower (get_content t)) as Hm.
  unfold segment_score in Hs.
  destruct (importance_score (lower (get_content t))) as [sc mp].
  cbn [fst snd] in Hs, Hm. subst sc mp.
  destruct (forallb is_space (get_content t)) eqn:E; [|reflexivity].
  rewrite (spec_score_blank _ E). reflexivity.
Qed.

(** C2: the importance score of a segment is the number of matches over
    the eight categories plus the numbers of [?] and of [!] plus one when
    the word count exceeds 20; a segment contributes a note exactly when
    this score is positive; the result is the first 10 notes of the
    contributed ones ranked by descending score. *)
Theorem important_notes_scored_ranked_capped : forall transcripts,
  (forall text, segment_score text = spec_score text) /\
  (forall t, important_note_of t = spec_note_of t) /\
  exists all_ranked,
    Permutation all_ranked (flat_map spec_note_of transcripts) /\
    ranked all_ranked /\
    extract_important_notes transcripts = firstn 10 all_ranked /\
    ranked (extract_important_notes transcripts) /\
    length (extract_important_notes transcripts) <= 10.
Proof.
  intros transcripts. split; [exact segment_score_spec|].
  split; [exact important_note_of_spec|].
  assert (E : flat_map important_note_of transcripts
              = flat_map spec_note_of transcripts).
  { apply flat_map_ext. exact important_note_of_spec. }
  exists (sort_desc Nat.ltb importance (flat_map spec_note_of transcripts)).
  unfold extract_important_notes. rewrite E.
  split; [apply sort_desc_perm|]. split; [apply sort_notes_ranked|].
  split; [reflexivity|].
  split; [apply StronglySorted_firstn; apply sort_notes_ranked|].
  apply firstn_le_length.
Qed.

(** Text glued to the word before it is no occurrence of a keyword: it
    merges with that word, and the occurrence that was there is lost.
    This is why the appended text has to be matched where it stands. *)
Lemma glued_text_is_no_occurrence :
  existsb (fun p => is_keyword p (s2l "key")) important_patterns = true /\
  segment_score (s2l "key" ++ s2l "key") < segment_score (s2l "key").
Proof. vm_compute. split; [reflexivity | lia]. Qed.

(** A text that begins, right after [c], with a match of a keyword pattern
    makes a clean junction with [c]. *)
Lemma matched_suffix_clean : forall p c t m,
  keyword_pattern p = true ->
  match_at (c ++ t) (compiled p) (length c) = Some m ->
  clean_junction c t.
Proof.
  intros p c t m Hp Hm.
  destruct (keyword_pattern_words p Hp) as [Hok _].
  destruct (match_at_keyword _ _ _ _ Hp Hm) as [_ [Hb [_ [w [Hw [Hc _]]]]]].
  rewrite forallb_forall in Hok. specialize (Hok _ Hw).
  pose proof (ci_at_word_at _ _ _ Hc 0 (word_ends_ok_length _ Hok)) as H0.
  rewrite Nat.add_0_r, (word_ends_ok_first _ Hok) in H0.
  unfold at_boundary in Hb. rewrite H0 in Hb. left.
  destruct (length c) as [|n] eqn:En.
  - destruct c; [reflexivity | discriminate].
  - replace (S n - 1) with n by lia.
    rewrite word_at_app in Hb by lia. destruct (word_at c n); [discriminate | reflexivity].
Qed.

(** C3: appending one more matched keyword occurrence, a text that one of
    the eight categories matches where it stands at the end of the
    extended content, never decreases the score; more generally, neither
    does any text whose junction with the content does not join two word
    characters. *)
Theorem score_monotone_at_clean_junction : forall c t,
  clean_junction c t \/
  (exists p, In p important_patterns /\
     match_at (c ++ t) (compiled p) (length c)
     = Some (MkMatch (length c) (length (c ++ t)) None)) ->
  segment_score c <= segment_score (c ++ t).
Proof.
  intros c t H.
  assert (Hj : clean_junction c t).
  { destruct H as [H|[p [Hp Hm]]]; [exact H|].
    pose proof important_patterns_keyword as Hk. rewrite forallb_forall in Hk.
    apply (matched_suffix_clean p c t _ (Hk p Hp) Hm). }
  clear H. rewrite !segment_score_spec. unfold spec_score.
  rewrite !count_char_app, !split_ws_length.
  pose proof (count_words_app c t false) as Hw.
  assert (Hs : forall ps, forallb keyword_pattern ps = true ->
            nat_sum (map (fun p => occurrences p c) ps)
            <= nat_sum (map (fun p => occurrences p (c ++ t)) ps)).
  { induction ps as [|p ps IH]; cbn [forallb map nat_sum fold_right]; [lia|].
    intros H. apply andb_true_iff in H as [Hp Hps].
    pose proof (occurrences_app_mono p c t Hp Hj). specialize (IH Hps).
    unfold nat_sum in IH. lia. }
  specialize (Hs _ important_patterns_keyword).
  destruct (20 <? count_words false c) eqn:E1;
    destruct (20 <? count_words false (c ++ t)) eqn:E2; try lia.
  apply Nat.ltb_lt in E1. apply Nat.ltb_ge in E2. lia.
Qed.

Lemma score_monotone_witness :
  segment_score (s2l "The budget!") <= segment_score (s2l "The budget!" ++ s2l "risk").
Proof.
  apply (score_monotone_at_clean_junction (s2l "The budget!") (s2l "risk")).
  right. exists (nth 4 important_patterns (MkPattern "" Eps)).
  split; [|vm_compute; reflexivity].
  right. right. right. right. left. reflexivity.
Defined.

(** The appended occurrence adds one to the score. *)
Example appended_occurrence_counts :
  segment_score (s2l "The budget!") = 2 /\
  segment_score (s2l "The budget!" ++ s2l "risk") = 3.
Proof. vm_compute. split; reflexivity. Qed.

(* ================================================================= *)
(** ** The end-to-end example *)

(** C1: on the two example segments the action-item extractor returns the
    one item assigned to John and due March 5, but the decision extractor
    returns nothing: the matched text keeps its capital W and is looked
    for in the lower-cased sentence. *)
Theorem example_decisions_empty_actions_one :
  extract_decisions example_segments = [] /\
  map (fun a => (assigned_to_name a, due_date a))
      (extract_action_items example_segments)
  = [(Some (s2l "John"), Some (s2l "March 5"))] /\
  map (fun m => group0 (s2l "We decided to launch next week.") m)
      (finditer (compiled (hd (MkPattern "" Eps) decision_patterns))
                (s2l "We decided to launch next week."))
  = [s2l "We decided"] /\
  contains (s2l "We decided") (lower (s2l "We decided to launch next week"))
  = false.
Proof. vm_compute. repeat split; reflexivity. Qed.

(* ================================================================= *)
(** ** Action items *)

Lemma action_score_loop : forall text ps n,
  fold_left (fun score p =>
               match search (compiled p) text with
               | Some _ => score + 1
               | None => score
               end) ps n
  = n + length (filter (fun p => match search (compiled p) text with
                                 | Some _ => true
                                 | None => false
                                 end) ps).
Proof.
  intros text. induction ps as [|p ps IH]; intros n; cbn [fold_left filter length]; [lia|].
  rewrite IH. destruct (search (compiled p) text); cbn [length]; lia.
Qed.

Lemma action_score_categories : forall text,
  action_score text = matched_categories text.
Proof. intros. unfold action_score, matched_categories. rewrite action_score_loop. reflexivity. Qed.

Lemma matched_categories_blank : forall text,
  forallb is_space text = true -> matched_categories text = 0.
Proof.
  intros text Hs. unfold matched_categories.
  assert (E : forall ps, forallb keyword_pattern ps = true ->
            filter (fun p => match search (compiled p) text with
                             | Some _ => true
                             | None => false
                             end) ps = []).
  { induction ps as [|p ps IH]; cbn [forallb filter]; [reflexivity|].
    intros H. apply andb_true_iff in H as [Hp Hps].
    destruct (keyword_pattern_body p Hp) as [a Ha].
    unfold search at 1. rewrite (search_from_blank _ _ _ _ _ Ha Hs). auto. }
  rewrite (E _ action_patterns_keyword). reflexivity.
Qed.

Lemma action_item_of_threshold : forall t,
  action_item_of t
  = if 2 <=? matched_categories (get_content t) then [action_item_for t] else [].
Proof.
  intros t. unfold action_item_of. rewrite blank_dec, negb_involutive.
  rewrite action_score_categories.
  destruct (forallb is_space (get_content t)) eqn:E; [|reflexivity].
  rewrite (matched_categories_blank _ E). reflexivity.
Qed.

Lemma flat_map_threshold : forall (A B : Type) (q : A -> bool) (f : A -> B) l,
  flat_map (fun x => if q x then [f x] else []) l = map f (filter q l).
Proof.
  intros A B q f. induction l as [|x l IH]; cbn [flat_map filter map]; [reflexivity|].
  destruct (q x); cbn [app map]; rewrite IH; reflexivity.
Qed.

Lemma extract_action_items_filter : forall transcripts,
  extract_action_items transcripts
  = firstn 15 (map action_item_for (filter qualifies transcripts)).
Proof.
  intros. unfold extract_action_items.
  rewrite (flat_map_ext _ _ action_item_of_threshold).
  rewrite (flat_map_threshold _ _ qualifies action_item_for). reflexivity.
Qed.

(** C7, as stated, fails: of sixteen segments that each match two
    categories only fifteen produce an item of the output. *)
Lemma sixteenth_qualifying_segment_dropped :
  length (filter qualifies sixteen_segments) = 16 /\
  length (extract_action_items sixteen_segments) = 15.
Proof. vm_compute. split; reflexivity. Qed.

(** C7, amended: a segment matching fewer than two categories produces no
    action item, a segment matching two or more produces exactly one, and
    the output is the first 15 of the produced items in segment order. *)
Theorem action_items_threshold_then_cap : forall transcripts,
  (forall t, matched_categories (get_content t) < 2 -> action_item_of t = []) /\
  (forall t, 2 <= matched_categories (get_content t) ->
             action_item_of t = [action_item_for t]) /\
  extract_action_items transcripts
  = firstn 15 (map action_item_for (filter qualifies transcripts)) /\
  length (extract_action_items transcripts)
  = Nat.min 15 (length (filter qualifies transcripts)).
Proof.
  intros transcripts. repeat split.
  - intros t H. rewrite action_item_of_threshold.
    apply Nat.leb_gt in H. rewrite H. reflexivity.
  - intros t H. rewrite action_item_of_threshold.
    apply Nat.leb_le in H. rewrite H. reflexivity.
  - apply extract_action_items_filter.
  - rewrite extract_action_items_filter, length_firstn, length_map. reflexivity.
Qed.

Lemma action_items_threshold_witness :
  action_item_of (nth 1 example_segments (MkSegment None None None))
  = [action_item_for (nth 1 example_segments (MkSegment None None None))] /\
  action_item_of (nth 0 example_segments (MkSegment None None None)) = [].
Proof.
  split.
  - apply (proj1 (proj2 (action_items_threshold_then_cap example_segments))).
    vm_compute. lia.
  - apply (proj1 (action_items_threshold_then_cap example_segments)).
    vm_compute. lia.
Defined.

(** C10: the description of every emitted action item is the full content
    of a segment, and its title is the first 100 characters of that
    content, followed by the ellipsis exactly when the content is longer
    than 100 characters. *)
Theorem action_item_title_and_description : forall transcripts a,
  In a (extract_action_items transcripts) ->
  exists t, In t transcripts /\
    a_description a = get_content t /\
    (100 < length (get_content t) ->
       a_title a = firstn 100 (get_content t) ++ s2l "...") /\
    (length (get_content t) <= 100 -> a_title a = get_content t).
Proof.
  intros transcripts a Ha. rewrite extract_action_items_filter in Ha.
  assert (Hin : In a (map action_item_for (filter qualifies transcripts))).
  { revert Ha. generalize (map action_item_for (filter qualifies transcripts)).
    generalize 15. induction n as [|n IH]; intros [|x l] H; cbn in *; try contradiction.
    destruct H as [->|H]; [left; reflexivity | right; apply (IH _ H)]. }
  apply in_map_iff in Hin as [t [<- Ht]]. apply filter_In in Ht as [Ht _].
  exists t. split; [exact Ht|]. split; [reflexivity|].
  cbn [action_item_for a_title]. unfold clip, upto, ellipsis. split; intros H.
  - apply Nat.ltb_lt in H. rewrite H. reflexivity.
  - rewrite firstn_all2 by exact H.
    assert (E : (100 <? length (get_content t)) = false) by (apply Nat.ltb_ge; exact H).
    rewrite E. apply app_nil_r.
Qed.

Lemma action_item_title_witness :
  exists t, In t example_segments /\
    a_description (action_item_for (nth 1 example_segments (MkSegment None None None)))
    = get_content t /\
    (100 < length (get_content t) ->
       a_title (action_item_for (nth 1 example_segments (MkSegment None None None)))
       = firstn 100 (get_content t) ++ s2l "...") /\
    (length (get_content t) <= 100 ->
       a_title (action_item_for (nth 1 example_segments (MkSegment None None None)))
       = get_content t).
Proof.
  apply (action_item_title_and_description example_segments).
  vm_compute. left. reflexivity.
Defined.

(* ================================================================= *)
(** ** Decisions *)

Lemma str_eqb_eq : forall a b, str_eqb a b = true <-> a = b.
Proof.
  intros. unfold str_eqb. destruct (list_eq_dec ascii_dec a b); split; congruence.
Qed.

Lemma seen_In : forall t seen,
  existsb (str_eqb t) seen = true <-> In t seen.
Proof.
  intros. rewrite existsb_exists. split.
  - intros [x [Hx He]]. apply str_eqb_eq in He. subst. exact Hx.
  - intros H. exists t. split; [exact H | apply str_eqb_eq; reflexivity].
Qed.

Lemma unique_subseq : forall ds seen, subseq (unique_decisions seen ds) ds.
Proof.
  induction ds as [|d ds IH]; intros seen; cbn [unique_decisions]; [constructor|].
  destruct (existsb (str_eqb (d_title d)) seen); constructor; apply IH.
Qed.

Lemma unique_titles_fresh : forall ds seen d,
  In d (unique_decisions seen ds) -> ~ In (d_title d) seen.
Proof.
  induction ds as [|x ds IH]; intros seen d H; cbn [unique_decisions] in H; [contradiction|].
  destruct (existsb (str_eqb (d_title x)) seen) eqn:E.
  - apply (IH _ _ H).
  - destruct H as [->|H].
    + intros Hin. apply seen_In in Hin. congruence.
    + intros Hin. apply (IH _ _ H). right. exact Hin.
Qed.

Lemma unique_titles_nodup : forall ds seen,
  NoDup (map d_title (unique_decisions seen ds)).
Proof.
  induction ds as [|x ds IH]; intros seen; cbn [unique_decisions]; [constructor|].
  destruct (existsb (str_eqb (d_title x)) seen); [apply IH|].
  cbn [map]. constructor; [|apply IH].
  intros Hin. apply in_map_iff in Hin as [d [Ht Hd]].
  apply unique_titles_fresh in Hd. apply Hd. left. symmetry. exact Ht.
Qed.

Lemma unique_titles_kept : forall ds seen d,
  In d ds -> ~ In (d_title d) seen ->
  exists d', In d' (unique_decisions seen ds) /\ d_title d' = d_title d.
Proof.
  induction ds as [|x ds IH]; intros seen d Hd Hs; [contradiction|].
  cbn [unique_decisions].
  destruct (existsb (str_eqb (d_title x)) seen) eqn:E.
  - destruct Hd as [->|Hd]; [apply seen_In in E; contradiction|]. apply IH; assumption.
  - destruct (list_eq_dec ascii_dec (d_title x) (d_title d)) as [Et|Et].
    + exists x. split; [left; reflexivity | exact Et].
    + destruct Hd as [->|Hd]; [contradiction|].
      destruct (IH (d_title x :: seen) d Hd) as [d' [Hd' Ht]].
      * intros [Hx|Hx]; [contradiction | apply Hs; exact Hx].
      * exists d'. split; [right; exact Hd' | exact Ht].
Qed.

Lemma unique_first_occurrence : forall ds seen d,
  In d (unique_decisions seen ds) ->
  exists before_d after_d,
    ds = before_d ++ d :: after_d /\ ~ In (d_title d) (map d_title before_d).
Proof.
  induction ds as [|x ds IH]; intros seen d H; cbn [unique_decisions] in H; [contradiction|].
  destruct (existsb (str_eqb (d_title x)) seen) eqn:E.
  - pose proof (unique_titles_fresh _ _ _ H) as Hf.
    destruct (IH _ _ H) as [l1 [l2 [-> Hn]]].
    exists (x :: l1), l2. split; [reflexivity|]. cbn [map].
    intros [Hx|Hx]; [|contradiction]. apply seen_In in E. congruence.
  - destruct H as [->|H].
    + exists [], ds. split; [reflexivity | intros []].
    + pose proof (unique_titles_fresh _ _ _ H) as Hf.
      destruct (IH _ _ H) as [l1 [l2 [-> Hn]]].
      exists (x :: l1), l2. split; [reflexivity|]. cbn [map].
      intros [Hx|Hx]; [|contradiction]. apply Hf. left. exact Hx.
Qed.

Lemma NoDup_firstn : forall (A : Type) n (l : list A), NoDup l -> NoDup (firstn n l).
Proof.
  intros A n. induction n as [|n IH]; intros l H; [constructor|].
  destruct l as [|x l]; [constructor|]. cbn [firstn].
  inversion H as [|? ? Hx Hl]; subst. constructor; [|apply IH; exact Hl].
  intros Hin. apply Hx. revert Hin. clear. revert l.
  induction n as [|n IH]; intros [|y l] H; cbn in *; try contradiction.
  destruct H as [->|H]; [left; reflexivity | right; apply IH; exact H].
Qed.

(** C6: the decisions returned are the first 10 of the kept ones; the kept
    ones are selected from the collected decisions in their order, carry
    pairwise distinct titles, each is the first collected decision of its
    title, and every collected title is kept once. *)
Theorem decisions_deduplicated_in_order_capped : forall transcripts,
  let collected := all_decisions transcripts in
  let kept := unique_decisions [] collected in
  extract_decisions transcripts = firstn 10 kept /\
  length (extract_decisions transcripts) <= 10 /\
  subseq kept collected /\
  NoDup (map d_title kept) /\
  NoDup (map d_title (extract_decisions transcripts)) /\
  (forall d, In d kept ->
     exists before_d after_d,
       collected = before_d ++ d :: after_d /\
       ~ In (d_title d) (map d_title before_d)) /\
  (forall d, In d collected ->
     count_occ (list_eq_dec ascii_dec) (map d_title kept) (d_title d) = 1).
Proof.
  intros transcripts collected kept. unfold extract_decisions.
  fold collected. fold kept.
  split; [reflexivity|]. split; [apply firstn_le_length|].
  split; [apply unique_subseq|]. split; [apply unique_titles_nodup|].
  split; [rewrite <- firstn_map; apply NoDup_firstn; apply unique_titles_nodup|].
  split; [intros d; apply unique_first_occurrence|].
  intros d Hd.
  pose proof (unique_titles_nodup collected []) as Hn. fold kept in Hn.
  destruct (unique_titles_kept collected [] d Hd) as [d' [Hd' Ht]]; [intros []|].
  fold kept in Hd'.
  assert (Hin : In (d_title d) (map d_title kept)).
  { apply in_map_iff. exists d'. auto. }
  rewrite (NoDup_count_occ (list_eq_dec ascii_dec)) in Hn.
  specialize (Hn (d_title d)).
  apply (count_occ_In (list_eq_dec ascii_dec)) in Hin. lia.
Qed.

Lemma decisions_deduplicated_witness :
  length (all_decisions repeated_segments) = 4 /\
  length (extract_decisions repeated_segments) = 1 /\
  count_occ (list_eq_dec ascii_dec)
    (map d_title (unique_decisions [] (all_decisions repeated_segments)))
    (s2l "we agreed to ship") = 1.
Proof.
  split; [vm_compute; reflexivity|]. split; [vm_compute; reflexivity|].
  apply (proj2 (proj2 (proj2 (proj2 (proj2 (proj2
           (decisions_deduplicated_in_order_capped repeated_segments)))))))
    with (d := MkDecision (s2l "we agreed to ship") (s2l "we agreed to ship")
                          None (Some (s2l "A"))).
  vm_compute. left. reflexivity.
Defined.

(* ================================================================= *)
(** ** Fallback summary windows *)

Lemma firstn_seq_min : forall n start len,
  firstn n (seq start len) = seq start (Nat.min n len).
Proof.
  induction n as [|n IH]; intros start len; [reflexivity|].
  destruct len as [|len]; [reflexivity|]. cbn [seq firstn Nat.min].
  rewrite IH. reflexivity.
Qed.

Lemma first_window_positions : forall (A : Type) (l : list A),
  first_window (positions l) = seq 0 (Nat.min 3 (length l)).
Proof.
  intros. unfold first_window, positions. rewrite firstn_seq_min. reflexivity.
Qed.

Lemma last_window_positions : forall (A : Type) (l : list A),
  last_window (positions l)
  = if 3 <? length l then seq (length l - 3) 3 else [].
Proof.
  intros. unfold last_window, positions. rewrite length_seq.
  destruct (3 <? length l) eqn:E; [|reflexivity].
  apply Nat.ltb_lt in E. rewrite skipn_seq. f_equal; lia.
Qed.

(** The windows hold the segments at the window positions. *)
Lemma windows_by_position : forall (A : Type) (l : list A),
  map Some (first_window l) = map (nth_error l) (first_window (positions l)) /\
  map Some (last_window l) = map (nth_error l) (last_window (positions l)).
Proof.
  intros A l.
  assert (Hseq : forall (m : list A) p, map Some m = map (nth_error (p ++ m)) (seq (length p) (length m))).
  { induction m as [|x m IH]; intros p; [reflexivity|]. cbn [map length seq].
    rewrite nth_error_app2, Nat.sub_diag by lia. cbn [nth_error]. f_equal.
    specialize (IH (p ++ [x])). rewrite <- app_assoc, length_app in IH.
    cbn [app length] in IH. rewrite IH. f_equal. f_equal. lia. }
  split.
  - rewrite first_window_positions. unfold first_window.
    rewrite <- (firstn_skipn 3 l) at 2.
    rewrite <- (length_firstn 3 l).
    pose proof (Hseq (firstn 3 l) []) as H. cbn [app length] in H.
    rewrite H. apply map_ext_in. intros i Hi. apply in_seq in Hi.
    rewrite nth_error_app1 by lia. reflexivity.
  - rewrite last_window_positions. unfold last_window.
    destruct (3 <? length l) eqn:E; [|reflexivity]. apply Nat.ltb_lt in E.
    pose proof (Hseq (skipn (length l - 3) l) (firstn (length l - 3) l)) as H.
    rewrite firstn_skipn, length_firstn, length_skipn in H.
    replace (Nat.min (length l - 3) (length l)) with (length l - 3) in H by lia.
    replace (length l - (length l - 3)) with 3 in H by lia. exact H.
Qed.

(** C9, as stated, fails: with four segments the windows share the second
    and third segment. *)
Lemma windows_overlap_for_four_segments :
  3 < length four_segments /\
  In 1 (first_window (positions four_segments)) /\
  In 1 (last_window (positions four_segments)) /\
  nth_error (first_window four_segments) 1 = nth_error (last_window four_segments) 0.
Proof. vm_compute. repeat split; auto; lia. Qed.

(** C9, amended: the last window is empty for at most 3 segments, and the
    two windows are disjoint exactly for at most 3 or at least 6 segments;
    with 4 or 5 segments they overlap. *)
Theorem summary_windows_disjoint_iff : forall transcripts : list segment,
  (length transcripts <= 3 -> last_window transcripts = []) /\
  (disjoint (first_window (positions transcripts))
            (last_window (positions transcripts))
   <-> length transcripts <= 3 \/ 6 <= length transcripts).
Proof.
  intros transcripts. split.
  - intros H. unfold last_window. apply Nat.ltb_ge in H. rewrite H. reflexivity.
  - rewrite first_window_positions, last_window_positions. unfold disjoint.
    destruct (3 <? length transcripts) eqn:E.
    + apply Nat.ltb_lt in E. split.
      * intros H. right. destruct (le_lt_dec 6 (length transcripts)) as [L|L]; [exact L|].
        exfalso. apply (H 2); apply in_seq; lia.
      * intros [H|H] x Hx Hy; [lia|]. apply in_seq in Hx, Hy. lia.
    + apply Nat.ltb_ge in E. split; [left; exact E | intros _ x _ []].
Qed.

Lemma summary_windows_witness :
  last_window example_segments = [] /\
  disjoint (first_window (positions example_segments))
           (last_window (positions example_segments)).
Proof.
  split.
  - apply (proj1 (summary_windows_disjoint_iff example_segments)).
    vm_compute. lia.
  - apply (proj2 (summary_windows_disjoint_iff example_segments)).
    left. vm_compute. lia.
Defined.

(* ================================================================= *)
(** ** Themes *)

(** *** Comparing floats *)





(** *** Summation *)

(** The halving of a long sum ends: any fuel at least the length of the
    list gives the same sum. *)
Lemma pairwise_sum_fuel : forall fuel fuel' a,
  length a <= fuel -> length a <= fuel' ->
  pairwise_sum fuel a = pairwise_sum fuel' a.
Proof.
  induction fuel as [|fuel IH]; intros fuel' a H H'.
  - destruct a; [|cbn in H; lia]. destruct fuel'; reflexivity.
  - destruct fuel' as [|fuel'].
    + destruct a; [reflexivity | cbn in H'; lia].
    + cbn [pairwise_sum].
      destruct (length a <? 8) eqn:E8; [reflexivity|].
      destruct (length a <=? 128) eqn:E128; [reflexivity|].
      apply Nat.ltb_ge in E8. apply Nat.leb_gt in E128.
      set (n2 := length a / 2 - (length a / 2) mod 8).
      assert (Hn2 : 1 <= n2 < length a).
      { subst n2.
        pose proof (Nat.div_mod_eq (length a) 2) as D1.
        pose proof (Nat.mod_upper_bound (length a) 2) as D2.
        pose proof (Nat.mod_upper_bound (length a / 2) 8) as D3. lia. }
      f_equal; apply IH;
        rewrite ?length_firstn, ?length_skipn; lia.
Qed.

(** *** Sorting by a key that may fail to compare *)

Section SortDescOn.
Variables (A K : Type) (ltb : K -> K -> bool) (key : A -> K).
Variable ok : K -> Prop.
Hypothesis ltb_asym : forall a b, ltb a b = true -> ltb b a = false.
Hypothesis geb_trans :
  forall a b c, ok b -> ltb a b = false -> ltb b c = false -> ltb a c = false.


End SortDescOn.




Section ThemeFacts.
Variable encode : list str -> option (list vec).
Variable fit_predict : nat -> list vec -> option (list nat).

End ThemeFacts.



Example line_confidences :
  map confidence
      (extract_themes_from_transcripts line_encode line_fit_predict
         seven_segments 5)
  = [fone; fone; fone; fone; fdiv (of_Z (-1)) (of_Z 3)].
Proof. vm_compute. reflexivity. Qed.


(** Rounding can also place a confidence above 1: a cluster of the one
    row (5/13, 12/13) has confidence 1 + 2^-52. *)
Lemma theme_confidence_can_exceed_one :
  map confidence
      (extract_themes_from_transcripts slanted_encode apart_fit_predict
         two_segments 5)
  = [of_scaled (2 ^ 52 + 1) (-52); of_scaled (2 ^ 52 + 1) (-52)] /\
  fltb fone (of_scaled (2 ^ 52 + 1) (-52)) = true.
Proof. vm_compute. split; reflexivity. Qed.

(** *** Theme titles *)

(** C5: the title of a theme whose representative text is a two-letter
    sentence followed by 100 further characters carries the ellipsis
    although the sentence was not truncated: the ellipsis follows the
    length of the whole text. *)
Theorem theme_title_ellipsis_without_truncation :
  hd [] (split_on "." short_sentence_long_text) = s2l "Hi" /\
  theme_title short_sentence_long_text = s2l "Hi..." /\
  exists th,
    In th (extract_themes_from_transcripts length_encode apart_fit_predict
             two_segments 5) /\
    title th = s2l "Hi...".
Proof.
  split; [vm_compute; reflexivity|]. split; [vm_compute; reflexivity|].
  assert (H : existsb (fun th => str_eqb (title th) (s2l "Hi..."))
                (extract_themes_from_transcripts length_encode
                   apart_fit_predict two_segments 5) = true)
    by (vm_compute; reflexivity).
  apply existsb_exists in H as [th [Hin Ht]].
  exists th. split; [exact Hin | apply str_eqb_eq; exact Ht].
Qed.

(* ================================================================= *)
(** ** Pipeline: cache writes *)

Section PipelineFacts.
Variable encode : list str -> option (list vec).
Variable fit_predict : nat -> list vec -> option (list nat).
Variable openai_api_key : bool.
Variable chat_completion : str -> option str.
Variable json_loads : str -> option segment.
Variable json_dumps : notes_data -> str.
Variable utcnow : str.

(** A Redis call that only reads leaves the store and the record of
    writes alone. *)
Lemma read_only_call : forall (A : Type) (f : world -> A) w,
  writes (snd (redis_call (fun w0 => (f w0, w0)) w)) = writes w /\
  kv (snd (redis_call (fun w0 => (f w0, w0)) w)) = kv w.
Proof.
  intros A f w. unfold redis_call.
  destruct (faults w) as [|[|] rest]; cbn; auto.
Qed.

Lemma get_frame : forall key w,
  writes (snd (get key w)) = writes w /\ kv (snd (get key w)) = kv w.
Proof. intros. apply read_only_call. Qed.

Lemma lrange_frame : forall key w,
  writes (snd (lrange key w)) = writes w /\ kv (snd (lrange key w)) = kv w.
Proof. intros. apply read_only_call. Qed.

Lemma read_transcripts_frame : forall keys w,
  writes (snd (read_transcripts json_loads keys w)) = writes w /\
  kv (snd (read_transcripts json_loads keys w)) = kv w.
Proof.
  induction keys as [|key keys IH]; intros w; cbn [read_transcripts].
  - cbn. auto.
  - unfold bind. destruct (get_frame key w) as [Hw Hk].
    destruct (get key w) as [[data|] w1]; cbn [snd] in *; [|auto].
    destruct (IH w1) as [H1 H2].
    destruct data as [[|c d]|]; try (split; congruence).
    destruct (json_loads (c :: d)) as [t|]; [|cbn; auto].
    destruct (read_transcripts json_loads keys w1) as [[ts|] w2];
      cbn [snd ret] in *; split; congruence.
Qed.

Lemma load_transcripts_frame : forall meeting_id w,
  writes (snd (load_transcripts json_loads meeting_id w)) = writes w /\
  kv (snd (load_transcripts json_loads meeting_id w)) = kv w.
Proof.
  intros meeting_id w. unfold load_transcripts, bind.
  destruct (lrange_frame (s2l "transcripts:" ++ meeting_id) w) as [Hw Hk].
  destruct (lrange (s2l "transcripts:" ++ meeting_id) w) as [[keys|] w1];
    cbn [snd] in *; [|auto].
  destruct (read_transcripts_frame keys w1) as [H1 H2]. split; congruence.
Qed.

(** [SETEX] either raises and changes nothing, or stores the value with
    its expiry and is recorded as the one new write. *)
Lemma setex_effect : forall key ttl value w,
  (exists w', setex key ttl value w = (Raised, w') /\
              writes w' = writes w /\ kv w' = kv w) \/
  (exists w', setex key ttl value w = (Returned tt, w') /\
              writes w' = writes w ++ [MkSetex key ttl value] /\
              kv w' key = Some (value, ttl)).
Proof.
  intros key ttl value w. unfold setex, redis_call.
  assert (Hk : str_eqb key key = true) by (apply str_eqb_eq; reflexivity).
  destruct (faults w) as [|[|] rest].
  - right. eexists. split; [reflexivity|]. cbn. rewrite Hk. auto.
  - left. eexists. split; [reflexivity|]. cbn. auto.
  - right. eexists. split; [reflexivity|]. cbn. rewrite Hk. auto.
Qed.

(** C8: a run that finds no stored segment returns no notes and writes
    nothing; a run that fails while the segments are read, before the
    persist step, writes nothing; a run that returns notes has made
    exactly one write, of these notes under [processed_notes:<id>] with
    an expiry of 86400 seconds, and the key then holds them. *)
Theorem process_writes_once_on_success : forall meeting_id w,
  let run := process_meeting_notes encode fit_predict openai_api_key
               chat_completion json_loads json_dumps utcnow meeting_id w in
  let notes_key := s2l "processed_notes:" ++ meeting_id in
  match load_transcripts json_loads meeting_id w with
  | (Raised, _) => fst run = None /\ writes (snd run) = writes w
  | (Returned [], _) => fst run = None /\ writes (snd run) = writes w
  | (Returned (t :: ts), _) =>
      match fst run with
      | Some notes =>
          notes = build_notes encode fit_predict openai_api_key
                    chat_completion utcnow meeting_id (t :: ts) /\
          nd_transcript_count notes = length (t :: ts) /\
          writes (snd run)
          = writes w ++ [MkSetex notes_key 86400 (json_dumps notes)] /\
          kv (snd run) notes_key = Some (json_dumps notes, 86400%N)
      | None => writes (snd run) = writes w
      end
  end.
Proof.
  intros meeting_id w run notes_key. subst run.
  unfold process_meeting_notes, process_body, bind.
  destruct (load_transcripts_frame meeting_id w) as [Hw Hk].
  destruct (load_transcripts json_loads meeting_id w) as [[[|t ts]|] w1];
    cbn [snd] in *.
  - cbn. auto.
  - set (notes := build_notes encode fit_predict openai_api_key
                    chat_completion utcnow meeting_id (t :: ts)).
    destruct (setex_effect notes_key 86400 (json_dumps notes) w1)
      as [[w' [E [H1 H2]]]|[w' [E [H1 H2]]]]; fold notes_key; rewrite E.
    + cbn. congruence.
    + cbn [ret fst snd]. split; [reflexivity|]. split; [reflexivity|].
      split; [congruence | exact H2].
  - cbn. auto.
Qed.
End PipelineFacts.

(** A run over a store with one segment and no failing call returns notes
    and makes the one write. *)
Example process_one_segment :
  let run := process_meeting_notes (fun _ => None) (fun _ _ => None) false
               (fun _ => None)
               (fun _ => Some (text_segment "We will ship it by Friday."))
               (fun _ => s2l "{notes}") (s2l "2024-01-01T00:00:00")
               (s2l "m1") one_segment_world in
  option_map nd_transcript_count (fst run) = Some 1 /\
  map (fun c => (w_key c, w_ttl c)) (writes (snd run))
  = [(s2l "processed_notes:m1", 86400%N)] /\
  option_map snd (kv (snd run) (s2l "processed_notes:m1")) = Some 86400%N.
Proof. vm_compute. repeat split; reflexivity. Qed.

(* ================================================================= *)
(** ** Themes: guards and shape of the result *)

Lemma In_firstn : forall (A : Type) n (l : list A) x, In x (firstn n l) -> In x l.
Proof.
  intros A n. induction n as [|n IH]; intros [|y l] x H; cbn in *; try contradiction.
  destruct H as [->|H]; [left; reflexivity | right; apply IH; exact H].
Qed.

Lemma members_incl : forall (A : Type) (xs : list A) labels cid ms,
  members xs labels cid = Some ms -> forall x, In x ms -> In x xs.
Proof.
  intros A xs labels cid ms H.
  assert (Hf : Forall (fun x => In x xs) xs) by (apply Forall_forall; auto).
  apply Forall_forall. revert Hf. generalize (fun x : A => In x xs) as P.
  intros P Hf. revert labels ms H. induction xs as [|x xs IH]; intros labels ms H;
    cbn [members] in H.
  - injection H as <-. constructor.
  - destruct labels as [|l labels]; [discriminate|].
    destruct (members xs labels cid) as [r|] eqn:E; [|discriminate].
    injection H as <-. inversion Hf; subst.
    destruct (l =? cid); [constructor; [assumption|]|]; eapply IH; eauto.
Qed.

Lemma split_on_nonempty : forall sep s, split_on sep s <> [].
Proof.
  intros sep [|c s]; cbn [split_on]; [discriminate|].
  destruct (Ascii.eqb c sep); [discriminate|].
  destruct (split_on sep s); discriminate.
Qed.

Lemma split_on_head_length : forall sep s,
  length (hd [] (split_on sep s)) <= length s.
Proof.
  intros sep. induction s as [|c s IH]; cbn [split_on]; [cbn; lia|].
  destruct (Ascii.eqb c sep); [cbn; lia|].
  destruct (split_on sep s) as [|w ws]; cbn [hd length] in *; lia.
Qed.

Lemma clip_length : forall n s t, length (clip n s t) <= n + 3.
Proof.
  intros n s t. unfold clip, upto. rewrite length_app, length_firstn.
  destruct (n <? length t); [change (length ellipsis) with 3 | cbn [length]]; lia.
Qed.

(** A theme title is at most 103 characters long, and a first sentence cut
    at 100 characters is always followed by the ellipsis. *)
Lemma theme_title_shape : forall text,
  length (theme_title text) <= 103 /\
  (100 < length (hd [] (split_on "." text)) ->
   theme_title text = firstn 100 (hd [] (split_on "." text)) ++ s2l "...").
Proof.
  intros text. unfold theme_title. split; [apply (clip_length 100)|].
  intros H. pose proof (split_on_head_length "." text) as Hl.
  unfold clip, upto, ellipsis.
  assert (E : (100 <? length text) = true) by (apply Nat.ltb_lt; lia).
  rewrite E. reflexivity.
Qed.

Section ThemeShape.
Variable encode : list str -> option (list vec).
Variable fit_predict : nat -> list vec -> option (list nat).

Lemma theme_of_cluster_shape : forall texts embeddings labels cluster_id ths,
  theme_of_cluster texts embeddings labels cluster_id = Some ths ->
  length ths <= 1 /\ Forall (theme_from texts) ths.
Proof.
  intros texts embeddings labels cluster_id ths H. unfold theme_of_cluster in H.
  destruct (members texts labels cluster_id) as [[|t ts]|] eqn:Em; try discriminate.
  { injection H as <-. split; [cbn; lia | constructor]. }
  destruct (members embeddings labels cluster_id) as [es|]; try discriminate.
  destruct (mean_rows es) as [centroid|]; try discriminate.
  destruct (similarities_to centroid es) as [sims|]; try discriminate.
  destruct (argmax sims) as [idx|]; try discriminate.
  destruct (nth_error (t :: ts) idx) as [rt|] eqn:En; try discriminate.
  injection H as <-. split; [cbn; lia|]. constructor; [|constructor].
  pose proof (members_incl _ _ _ _ _ Em) as Hin.
  unfold theme_from. cbn [title sample_texts]. repeat split.
  - exists rt. split; [|reflexivity]. apply Hin. eapply nth_error_In; eauto.
  - destruct ts as [|? [|? ?]]; cbn; lia.
  - destruct ts as [|? [|? ?]]; cbn; lia.
  - intros s Hs. apply Hin. apply (In_firstn _ 3 (t :: ts) s). exact Hs.
Qed.

Lemma themes_of_clusters_shape : forall texts embeddings labels ids ths,
  themes_of_clusters texts embeddings labels ids = Some ths ->
  length ths <= length ids /\ Forall (theme_from texts) ths.
Proof.
  intros texts embeddings labels. induction ids as [|cid ids IH]; intros ths H;
    cbn [themes_of_clusters] in H.
  - injection H as <-. split; [cbn; lia | constructor].
  - destruct (theme_of_cluster texts embeddings labels cid) as [th|] eqn:E; [|discriminate].
    destruct (themes_of_clusters texts embeddings labels ids) as [rest|]; [|discriminate].
    injection H as <-.
    destruct (theme_of_cluster_shape _ _ _ _ _ E) as [H1 H2].
    destruct (IH rest eq_refl) as [H3 H4].
    split; [rewrite length_app; cbn [length]; lia | apply Forall_app; auto].
Qed.

Lemma extract_themes_shape : forall transcripts num_themes,
  let themes :=
    extract_themes_from_transcripts encode fit_predict transcripts num_themes in
  length themes <= Nat.min num_themes (length (nonblank_contents transcripts)) /\
  Forall (theme_from (nonblank_contents transcripts)) themes /\
  (themes <> [] ->
   2 <= num_themes /\ 2 <= length (nonblank_contents transcripts)).
Proof.
  intros transcripts num_themes themes. subst themes.
  unfold extract_themes_from_transcripts. fold (nonblank_contents transcripts).
  set (texts := nonblank_contents transcripts).
  assert (Hnil : length (@nil theme) <= Nat.min num_themes (length texts) /\
                 Forall (theme_from texts) [] /\
                 (@nil theme <> [] -> 2 <= num_themes /\ 2 <= length texts)).
  { split; [cbn; lia|]. split; [constructor | intros H; contradiction]. }
  destruct (length transcripts <? 2); [exact Hnil|].
  destruct (length texts <? 2) eqn:E2; [exact Hnil|].
  destruct (encode texts) as [embeddings|]; [|exact Hnil].
  destruct (Nat.min num_themes (length texts) <? 2) eqn:E3; [exact Hnil|].
  destruct (fit_predict _ embeddings) as [labels|]; [|exact Hnil].
  destruct (themes_of_clusters texts embeddings labels _) as [ths|] eqn:E;
    [|exact Hnil].
  destruct (themes_of_clusters_shape _ _ _ _ _ E) as [Hl Hf].
  rewrite length_seq in Hl.
  pose proof (sort_desc_perm _ _ fltb confidence ths) as Hp.
  apply Nat.ltb_ge in E2, E3.
  split; [rewrite (Permutation_length Hp); exact Hl|].
  split; [|intros _; lia].
  apply Forall_forall. intros th Hth. rewrite Forall_forall in Hf.
  apply Hf. apply (Permutation_in _ Hp Hth).
Qed.
End ThemeShape.

Lemma nonblank_contents_In : forall transcripts text,
  In text (nonblank_contents transcripts) ->
  exists t, In t transcripts /\ text = get_content t /\
            truthy (strip text) = true.
Proof.
  intros transcripts text H. unfold nonblank_contents in H.
  apply filter_In in H as [H1 H2]. apply in_map_iff in H1 as [t [<- Ht]].
  exists t. auto.
Qed.

(** Theme extraction returns nothing unless at least two themes are asked
    for and at least two segments have non-blank content; it returns at
    most as many themes as asked for and as there are such segments,
    whatever the embedding model and the clustering do, also when they
    raise. *)
Theorem themes_bounded_by_request_and_texts :
  forall (encode : list str -> option (list vec))
         (fit_predict : nat -> list vec -> option (list nat))
         (transcripts : list segment) (num_themes : nat),
  let themes :=
    extract_themes_from_transcripts encode fit_predict transcripts num_themes in
  let texts := nonblank_contents transcripts in
  length themes <= Nat.min num_themes (length texts) /\
  (num_themes < 2 \/ length texts < 2 \/ encode texts = None ->
   themes = []).
Proof.
  intros encode fit_predict transcripts num_themes themes texts.
  destruct (extract_themes_shape encode fit_predict transcripts num_themes)
    as [Hl [_ Hne]]. fold themes in Hl, Hne. fold texts in Hl, Hne.
  split; [exact Hl|]. intros H.
  destruct H as [H|[H|H]].
  - destruct themes; [reflexivity|]. destruct Hne; [discriminate | lia].
  - destruct themes; [reflexivity|]. destruct Hne; [discriminate | lia].
  - subst themes. unfold extract_themes_from_transcripts.
    fold (nonblank_contents transcripts). fold texts. rewrite H.
    destruct (length transcripts <? 2); [reflexivity|].
    destruct (length texts <? 2); reflexivity.
Qed.

Lemma themes_bounded_witness :
  extract_themes_from_transcripts length_encode apart_fit_predict
    [text_segment "Only one segment."; text_segment "   "] 5 = [].
Proof.
  apply (proj2 (themes_bounded_by_request_and_texts length_encode
                  apart_fit_predict
                  [text_segment "Only one segment."; text_segment "   "] 5)).
  right. left. vm_compute. lia.
Defined.

(** Every theme is built from the input: its title is the title derived
    from the content of a segment with non-blank content and has at most
    103 characters, and it carries between one and three sample texts,
    each the content of such a segment. *)
Theorem theme_title_and_samples_from_segments :
  forall (encode : list str -> option (list vec))
         (fit_predict : nat -> list vec -> option (list nat))
         (transcripts : list segment) (num_themes : nat) (th : theme),
  In th (extract_themes_from_transcripts encode fit_predict transcripts
           num_themes) ->
  (exists t, In t transcripts /\ truthy (strip (get_content t)) = true /\
             title th = theme_title (get_content t)) /\
  length (title th) <= 103 /\
  1 <= length (sample_texts th) <= 3 /\
  (forall s, In s (sample_texts th) ->
     exists t, In t transcripts /\ s = get_content t /\
               truthy (strip s) = true).
Proof.
  intros encode fit_predict transcripts num_themes th Hth.
  destruct (extract_themes_shape encode fit_predict transcripts num_themes)
    as [_ [Hf _]].
  rewrite Forall_forall in Hf. destruct (Hf th Hth) as [[text [Ht Et]] [Hs Hi]].
  destruct (nonblank_contents_In _ _ Ht) as [t [Hin [-> Hb]]].
  split; [exists t; auto|]. split; [rewrite Et; apply theme_title_shape|].
  split; [exact Hs|]. intros s Hsin. apply nonblank_contents_In. apply Hi. exact Hsin.
Qed.

Lemma two_segments_theme : exists th,
  In th (extract_themes_from_transcripts length_encode apart_fit_predict
           two_segments 5).
Proof.
  assert (H : existsb (fun _ => true)
                (extract_themes_from_transcripts length_encode
                   apart_fit_predict two_segments 5) = true)
    by (vm_compute; reflexivity).
  apply existsb_exists in H as [th [Hin _]]. exists th. exact Hin.
Qed.

Lemma theme_title_and_samples_witness : exists th,
  In th (extract_themes_from_transcripts length_encode apart_fit_predict
           two_segments 5) /\
  length (title th) <= 103 /\ 1 <= length (sample_texts th) <= 3.
Proof.
  destruct two_segments_theme as [th Hin]. exists th. split; [exact Hin|].
  destruct (theme_title_and_samples_from_segments length_encode
              apart_fit_predict two_segments 5 th Hin) as [_ [H1 [H2 _]]].
  split; assumption.
Defined.

(* ================================================================= *)
(** ** Important notes: ties and sure notes *)

Section Stability.
Variables (A : Type) (key : A -> nat).

(** Inserting leaves the order within every class of equal keys alone. *)
Lemma insert_desc_class : forall k x l,
  filter (fun a => key a =? k) (insert_desc Nat.ltb key x l)
  = filter (fun a => key a =? k) (x :: l).
Proof.
  intros k x. induction l as [|y l IH]; [reflexivity|].
  cbn [insert_desc]. destruct (key x <? key y) eqn:E; [|reflexivity].
  apply Nat.ltb_lt in E. cbn [filter] in *. rewrite IH.
  destruct (key x =? k) eqn:Ex; destruct (key y =? k) eqn:Ey; try reflexivity.
  apply Nat.eqb_eq in Ex, Ey. lia.
Qed.

Lemma sort_desc_class : forall k l,
  filter (fun a => key a =? k) (sort_desc Nat.ltb key l)
  = filter (fun a => key a =? k) l.
Proof.
  intros k. induction l as [|x l IH]; [reflexivity|].
  cbn [sort_desc fold_right]. fold (sort_desc Nat.ltb key l).
  rewrite insert_desc_class. cbn [filter]. rewrite IH. reflexivity.
Qed.
End Stability.

(** Ranking is stable: the important notes are the first 10 of a ranked
    list in which the notes of any one importance stand in the order of
    their segments. *)
Theorem important_notes_ties_in_segment_order : forall transcripts,
  exists all_ranked,
    extract_important_notes transcripts = firstn 10 all_ranked /\
    ranked all_ranked /\
    forall k,
      filter (fun n => importance n =? k) all_ranked
      = filter (fun n => importance n =? k)
               (flat_map important_note_of transcripts).
Proof.
  intros transcripts.
  exists (sort_desc Nat.ltb importance (flat_map important_note_of transcripts)).
  split; [reflexivity|]. split; [apply sort_notes_ranked|].
  intros k. apply sort_desc_class.
Qed.

Lemma has_char_count_pos : forall ch s, has_char ch s = true -> 0 < count_char ch s.
Proof.
  unfold has_char, count_char. induction s as [|c s IH]; [discriminate|].
  cbn [existsb filter]. intros H. destruct (Ascii.eqb ch c); [cbn; lia|].
  apply IH. exact H.
Qed.

(** The loop appends a note for a segment whose content holds a question
    mark, an exclamation mark or more than 20 words. *)
Lemma marked_segment_note : forall t,
  has_char "?" (get_content t) = true \/
  has_char "!" (get_content t) = true \/
  20 < length (split_ws (get_content t)) ->
  exists n, important_note_of t = [n] /\
    note_content n = get_content t /\
    note_speaker_id n = speaker_id t /\
    note_timestamp n = timestamp t /\
    count_char "?" (get_content t) + count_char "!" (get_content t)
    <= importance n.
Proof.
  intros t H. rewrite important_note_of_spec. unfold spec_note_of.
  assert (Hs : 0 < spec_score (get_content t) /\
               count_char "?" (get_content t) + count_char "!" (get_content t)
               <= spec_score (get_content t)).
  { unfold spec_score. split; [|lia]. destruct H as [H|[H|H]].
    - apply has_char_count_pos in H. lia.
    - apply has_char_count_pos in H. lia.
    - apply Nat.ltb_lt in H. rewrite H. lia. }
  destruct Hs as [Hp Hc]. apply Nat.ltb_lt in Hp. rewrite Hp.
  eexists. split; [reflexivity|].
  cbn [note_content note_speaker_id note_timestamp importance]. auto.
Qed.

Lemma important_note_of_length : forall t, length (important_note_of t) <= 1.
Proof.
  intros t. rewrite important_note_of_spec. unfold spec_note_of.
  destruct (0 <? spec_score (get_content t)); cbn [length]; lia.
Qed.

Lemma flat_map_length_le : forall (A B : Type) (f : A -> list B) l,
  (forall x, length (f x) <= 1) -> length (flat_map f l) <= length l.
Proof.
  intros A B f l Hf. induction l as [|x l IH]; [cbn; lia|].
  cbn [flat_map length]. rewrite length_app. specialize (Hf x). lia.
Qed.

(** In a meeting of at most 10 segments, a segment whose content holds a
    question mark, an exclamation mark or more than 20 words always has
    its note among the important notes returned: the note carries the
    segment's content, speaker and timestamp, and its importance is at
    least the number of these marks, whatever the words are. *)
Theorem marks_and_length_make_a_note : forall transcripts t,
  In t transcripts ->
  length transcripts <= 10 ->
  has_char "?" (get_content t) = true \/
  has_char "!" (get_content t) = true \/
  20 < length (split_ws (get_content t)) ->
  exists n, In n (extract_important_notes transcripts) /\
    note_content n = get_content t /\
    note_speaker_id n = speaker_id t /\
    note_timestamp n = timestamp t /\
    count_char "?" (get_content t) + count_char "!" (get_content t)
    <= importance n.
Proof.
  intros transcripts t Hin Hlen H.
  destruct (marked_segment_note t H) as [n [En Hn]].
  exists n. split; [|exact Hn].
  unfold extract_important_notes.
  pose proof (sort_desc_perm _ _ Nat.ltb importance
                (flat_map important_note_of transcripts)) as Hp.
  pose proof (flat_map_length_le _ _ important_note_of transcripts
                important_note_of_length) as Hl.
  rewrite firstn_all2 by (rewrite (Permutation_length Hp); lia).
  apply (Permutation_in _ (Permutation_sym Hp)).
  apply in_flat_map. exists t. split; [exact Hin|]. rewrite En. left. reflexivity.
Qed.

Lemma marks_make_a_note_witness :
  exists n,
    In n (extract_important_notes
            [text_segment "We agreed on the budget.";
             text_segment "Really?"; text_segment "Fine."]) /\
    note_content n = get_content (text_segment "Really?") /\
    note_speaker_id n = speaker_id (text_segment "Really?") /\
    note_timestamp n = timestamp (text_segment "Really?") /\
    count_char "?" (get_content (text_segment "Really?"))
    + count_char "!" (get_content (text_segment "Really?")) <= importance n.
Proof.
  apply (marks_and_length_make_a_note
           [text_segment "We agreed on the budget.";
            text_segment "Really?"; text_segment "Fine."]
           (text_segment "Really?")).
  - right. left. reflexivity.
  - cbn [length]. lia.
  - left. reflexivity.
Defined.

(** Past ten segments the cut can drop such a note: after ten segments
    with two marks each, a segment with one mark is left out. *)
Example eleventh_marked_segment_dropped :
  map note_content
      (extract_important_notes
         (repeat (text_segment "What?!") 10 ++ [text_segment "Really?"]))
  = repeat (s2l "What?!") 10.
Proof. vm_compute. reflexivity. Qed.

(* ================================================================= *)
(** ** Decisions: where they come from *)

Lemma lstrip_incl : forall s a, In a (lstrip s) -> In a s.
Proof.
  intros s a H. destruct (lstrip_suffix s) as [p [Hp _]]. rewrite Hp.
  apply in_or_app. right. exact H.
Qed.

Lemma strip_incl : forall s a, In a (strip s) -> In a s.
Proof.
  intros s a H. unfold strip, rstrip in H. apply in_rev in H.
  apply lstrip_incl in H. apply in_rev in H. apply lstrip_incl. exact H.
Qed.

Lemma strip_trimmed : forall s, trimmed (strip s).
Proof.
  intros s. unfold strip, rstrip.
  destruct (lstrip s) as [|c r] eqn:Ex; [exact I|].
  pose proof (lstrip_head _ _ _ Ex) as Hc.
  destruct (lstrip_suffix (rev (c :: r))) as [p [Hp Hsp]].
  destruct (lstrip (rev (c :: r))) as [|d y] eqn:Ey.
  - exfalso. rewrite app_nil_r in Hp.
    rewrite forallb_forall in Hsp. rewrite <- Hp in Hsp.
    assert (Hin : In c (rev (c :: r))) by (apply in_rev; rewrite rev_involutive; left; reflexivity).
    apply Hsp in Hin. congruence.
  - pose proof (lstrip_head _ _ _ Ey) as Hd.
    assert (Hx : c :: r = rev (d :: y) ++ rev p).
    { rewrite <- rev_app_distr, <- Hp, rev_involutive. reflexivity. }
    cbn [rev] in *. destruct (rev y ++ [d]) as [|h tl] eqn:Eh.
    + destruct (rev y); discriminate.
    + unfold trimmed. cbn [app] in Hx. injection Hx as Hh _. subst h. split; [exact Hc|].
      rewrite <- Eh. rewrite last_last. exact Hd.
Qed.

Lemma split_on_no_sep : forall sep s piece,
  In piece (split_on sep s) -> ~ In sep piece.
Proof.
  intros sep. induction s as [|c s IH]; intros piece H; cbn [split_on] in H.
  - destruct H as [<-|[]]. intros [].
  - destruct (Ascii.eqb c sep) eqn:E.
    + destruct H as [<-|H]; [intros [] | apply IH; exact H].
    + destruct (split_on sep s) as [|w ws] eqn:Es.
      * destruct H as [<-|[]]. intros [H|[]]. subst. rewrite Ascii.eqb_refl in E. discriminate.
      * destruct H as [<-|H].
        -- intros [H|H]; [subst; rewrite Ascii.eqb_refl in E; discriminate|].
           apply (IH w); [left; reflexivity | exact H].
        -- apply IH. right. exact H.
Qed.

Lemma starts_with_app : forall p s,
  starts_with p s = true -> exists post, s = p ++ post.
Proof.
  induction p as [|a p IH]; intros s H; [exists s; reflexivity|].
  destruct s as [|b s]; [discriminate|]. cbn [starts_with] in H.
  apply andb_true_iff in H as [Hab H]. apply Ascii.eqb_eq in Hab. subst b.
  destruct (IH s H) as [post ->]. exists post. reflexivity.
Qed.

Lemma contains_app : forall sub s,
  contains sub s = true -> exists pre post, s = pre ++ sub ++ post.
Proof.
  intros sub. induction s as [|c s IH]; intros H.
  - cbn [contains] in H. rewrite orb_false_r in H.
    destruct (starts_with_app _ _ H) as [post Hp]. exists [], post. exact Hp.
  - cbn [contains] in H. apply orb_true_iff in H as [H|H].
    + destruct (starts_with_app _ _ H) as [post Hp]. exists [], post. exact Hp.
    + destruct (IH H) as [pre [post ->]]. exists (c :: pre), post. reflexivity.
Qed.

(** A text found in a lower-cased text is in lower case itself. *)
Lemma contains_lower : forall sub s,
  contains sub (lower s) = true -> lower sub = sub.
Proof.
  intros sub s H. destruct (contains_app _ _ H) as [pre [post E]].
  unfold lower. rewrite <- (map_id sub) at 2. apply map_ext_in. intros c Hc.
  assert (Hin : In c (lower s)).
  { rewrite E. apply in_or_app. right. apply in_or_app. left. exact Hc. }
  unfold lower in Hin. apply in_map_iff in Hin as [x [<- _]]. apply to_lower_idem.
Qed.

Lemma scan_In : forall s r fuel i m,
  In m (scan s r fuel i) -> exists i', match_at s r i' = Some m.
Proof.
  intros s r. induction fuel as [|fuel IH]; intros i m H; [contradiction|].
  cbn [scan] in H. destruct (length s <? i); [contradiction|].
  destruct (match_at s r i) as [m0|] eqn:E.
  - destruct H as [<-|H]; [exists i; exact E | apply (IH _ _ H)].
  - apply (IH _ _ H).
Qed.

Lemma decision_patterns_keyword :
  forallb keyword_pattern decision_patterns = true.
Proof. vm_compute. reflexivity. Qed.

(** The text of a match of a keyword pattern starts with a word
    character. *)
Lemma keyword_match_head : forall p s m,
  keyword_pattern p = true -> In m (finditer (compiled p) s) ->
  exists x rest, group0 s m = x :: rest /\ is_word x = true.
Proof.
  intros p s m Hp Hm. unfold finditer in Hm.
  apply scan_In in Hm as [i Hm].
  destruct (keyword_pattern_words p Hp) as [Hok _].
  destruct (match_at_keyword _ _ _ _ Hp Hm) as [Em Ho].
  pose proof (occ_bounds _ _ _ _ Hok Ho) as [Hlt Hle].
  destruct Ho as [_ [_ [w [Hw [Hc _]]]]].
  rewrite forallb_forall in Hok. specialize (Hok _ Hw).
  pose proof (ci_at_word_at _ _ _ Hc 0 (word_ends_ok_length _ Hok)) as H0.
  rewrite Nat.add_0_r, (word_ends_ok_first _ Hok) in H0.
  unfold word_at in H0. destruct (nth_error s i) as [x|] eqn:Ex; [|discriminate].
  destruct m as [ms me mg]. cbn [m_end] in *. injection Em as -> _.
  unfold group0, slice. cbn [m_start m_end].
  destruct (nth_error_split _ _ Ex) as [l1 [l2 [-> Hl]]]. subst i.
  rewrite skipn_app, skipn_all, Nat.sub_diag. cbn [skipn app].
  destruct (me - length l1) as [|n] eqn:En; [lia|].
  exists x, (firstn n l2). split; [reflexivity | exact H0].
Qed.

Lemma decision_for_match_In : forall matched sentences t d,
  In d (decision_for_match matched sentences t) ->
  exists sentence, In sentence sentences /\
    contains matched (lower sentence) = true /\
    d = MkDecision (clip 100 (strip sentence) sentence) (strip sentence)
                   (timestamp t) (speaker_id t).
Proof.
  intros matched. induction sentences as [|sentence rest IH]; intros t d H;
    [contradiction|].
  cbn [decision_for_match] in H.
  destruct (contains matched (lower sentence)) eqn:E.
  - destruct H as [<-|[]]. exists sentence. split; [left; reflexivity | auto].
  - destruct (IH _ _ H) as [s' [Hs' Hr]]. exists s'. split; [right; exact Hs' | exact Hr].
Qed.

Lemma decisions_of_In : forall t d,
  In d (decisions_of t) ->
  exists p m, In p decision_patterns /\
    In m (finditer (compiled p) (get_content t)) /\
    In d (decision_for_match (group0 (get_content t) m)
            (split_on "." (get_content t)) t).
Proof.
  intros t d H. unfold decisions_of in H.
  destruct (negb (truthy (strip (get_content t)))); [contradiction|].
  apply in_flat_map in H as [p [Hp H]]. apply in_flat_map in H as [m [Hm H]].
  exists p, m. auto.
Qed.

Lemma subseq_In : forall (A : Type) (l1 l2 : list A) x,
  subseq l1 l2 -> In x l1 -> In x l2.
Proof.
  intros A l1 l2 x H. induction H as [|y l1 l2 H IH|y l1 l2 H IH]; intros Hx.
  - exact Hx.
  - right. apply IH. exact Hx.
  - destruct Hx as [->|Hx]; [left; reflexivity | right; apply IH; exact Hx].
Qed.

Lemma extract_decisions_In : forall transcripts d,
  In d (extract_decisions transcripts) ->
  exists t, In t transcripts /\ In d (decisions_of t).
Proof.
  intros transcripts d H. unfold extract_decisions in H.
  apply In_firstn in H. apply (subseq_In _ _ _ _ (unique_subseq _ _)) in H.
  unfold all_decisions in H. apply in_flat_map in H. exact H.
Qed.

(** Every returned decision is a sentence of one segment: its description
    is a piece of the segment's content between periods, stripped of
    surrounding whitespace, non-empty and free of periods; its title is
    the description cut at 100 characters, with the ellipsis when the
    unstripped piece is longer, hence at most 103 characters; timestamp
    and speaker are the segment's. *)
Theorem decision_is_a_trimmed_sentence : forall transcripts d,
  In d (extract_decisions transcripts) ->
  exists t sentence,
    In t transcripts /\ In sentence (split_on "." (get_content t)) /\
    d_description d = strip sentence /\
    d_description d <> [] /\ trimmed (d_description d) /\
    ~ In "."%char (d_description d) /\
    d_title d = clip 100 (d_description d) sentence /\
    length (d_title d) <= 103 /\
    (length sentence <= 100 -> d_title d = d_description d) /\
    d_timestamp d = timestamp t /\ decided_by_speaker_id d = speaker_id t.
Proof.
  intros transcripts d H.
  destruct (extract_decisions_In _ _ H) as [t [Ht Hd]].
  destruct (decisions_of_In _ _ Hd) as [p [m [Hp [Hm Hf]]]].
  destruct (decision_for_match_In _ _ _ _ Hf) as [sentence [Hs [Hc ->]]].
  exists t, sentence. cbn [d_title d_description d_timestamp decided_by_speaker_id].
  split; [exact Ht|]. split; [exact Hs|]. split; [reflexivity|].
  split.
  { pose proof decision_patterns_keyword as Hk. rewrite forallb_forall in Hk.
    destruct (keyword_match_head p _ m (Hk p Hp) Hm) as [x [rest [Eg Hx]]].
    rewrite Eg in Hc. destruct (contains_app _ _ Hc) as [pre [post E]].
    assert (Hin : In x (lower sentence)).
    { rewrite E. apply in_or_app. right. left. reflexivity. }
    unfold lower in Hin. apply in_map_iff in Hin as [y [Ey Hy]].
    intros Hnil. assert (Hb : truthy (strip sentence) = false) by (rewrite Hnil; reflexivity).
    apply strip_blank_iff in Hb. rewrite forallb_forall in Hb.
    apply Hb in Hy. apply space_not_word in Hy.
    rewrite <- is_word_lower, Ey in Hy. congruence. }
  split; [apply strip_trimmed|].
  split.
  { intros Hdot. apply strip_incl in Hdot. apply (split_on_no_sep _ _ _ Hs Hdot). }
  split; [reflexivity|]. split; [apply clip_length|]. split; [|auto].
  intros Hl. unfold clip, upto.
  assert (E : (100 <? length sentence) = false) by (apply Nat.ltb_ge; exact Hl).
  rewrite E, app_nil_r. apply firstn_all2.
  assert (Hsl : length (strip sentence) <= length sentence).
  { unfold strip, rstrip. rewrite length_rev.
    destruct (lstrip_suffix (rev (lstrip sentence))) as [p1 [E1 _]].
    destruct (lstrip_suffix sentence) as [p2 [E2 _]].
    apply (f_equal (@length ascii)) in E1. apply (f_equal (@length ascii)) in E2.
    rewrite length_app in E1, E2. rewrite length_rev in E1. lia. }
  lia.
Qed.

Lemma decision_is_a_trimmed_sentence_witness :
  exists t sentence,
    In t repeated_segments /\ In sentence (split_on "." (get_content t)) /\
    s2l "we agreed to ship" = strip sentence.
Proof.
  destruct (decision_is_a_trimmed_sentence repeated_segments
              (MkDecision (s2l "we agreed to ship") (s2l "we agreed to ship")
                          None (Some (s2l "A"))))
    as [t [sentence [Ht [Hs [Hd _]]]]].
  - vm_compute. left. reflexivity.
  - exists t, sentence. auto.
Defined.

(** A decision is only made of a match written in lower case: a segment
    in which every match of a decision pattern holds an upper-case
    character gives no decision at all. *)
Theorem uppercase_matches_give_no_decision : forall t,
  (forall p m, In p decision_patterns ->
     In m (finditer (compiled p) (get_content t)) ->
     lower (group0 (get_content t) m) <> group0 (get_content t) m) ->
  decisions_of t = [].
Proof.
  intros t H. destruct (decisions_of t) as [|d ds] eqn:E; [reflexivity|].
  exfalso. assert (Hd : In d (decisions_of t)) by (rewrite E; left; reflexivity).
  destruct (decisions_of_In _ _ Hd) as [p [m [Hp [Hm Hf]]]].
  destruct (decision_for_match_In _ _ _ _ Hf) as [sentence [_ [Hc _]]].
  apply (H p m Hp Hm). apply (contains_lower _ _ Hc).
Qed.

Lemma uppercase_matches_witness :
  decisions_of (text_segment "WE AGREED. It was Approved and FINAL.") = [].
Proof.
  apply (uppercase_matches_give_no_decision
           (text_segment "WE AGREED. It was Approved and FINAL.")).
  intros p m Hp Hm.
  repeat (destruct Hp as [<-|Hp]; [vm_compute in Hm;
    repeat (destruct Hm as [<-|Hm]; [vm_compute; discriminate|]);
    contradiction|]).
  contradiction.
Defined.

(* ================================================================= *)
(** ** The matcher is sound for the declarative reading of patterns *)

Lemma rounds_sound : forall a s,
  (forall i g k res, run s a i g k = Some res ->
     exists j g', matches s a i g j g' /\ k j g' = Some res) ->
  forall fuel i g k res, rounds (run s a) k fuel i g = Some res ->
  exists j g', matches s (Plus a) i g j g' /\ k j g' = Some res.
Proof.
  intros a s Ha. induction fuel as [|fuel IH]; intros i g k res H; [discriminate|].
  cbn [rounds] in H. apply Ha in H as [j [g' [Hm H]]].
  destruct (j <=? i).
  - exists j, g'. split; [apply M_PlusOne; exact Hm | exact H].
  - destruct (rounds (run s a) k fuel j g') as [m|] eqn:E.
    + injection H as <-. apply IH in E as [j2 [g2 [Hm2 Hk]]].
      exists j2, g2. split; [eapply M_PlusMore; eauto | exact Hk].
    + exists j, g'. split; [apply M_PlusOne; exact Hm | exact H].
Qed.

Lemma run_sound : forall r s i g k res,
  run s r i g k = Some res ->
  exists j g', matches s r i g j g' /\ k j g' = Some res.
Proof.
  induction r as [|c|cl|a IHa b IHb|a IHa b IHb|a IHa|a IHa| |a IHa];
    intros s i g k res H; cbn [run] in H.
  - exists i, g. split; [constructor | exact H].
  - destruct (nth_error s i) as [x|] eqn:E; [|discriminate].
    destruct (lit_match c x) eqn:Hm; [|discriminate].
    exists (S i), g. split; [econstructor; eauto | exact H].
  - destruct (nth_error s i) as [x|] eqn:E; [|discriminate].
    destruct (in_class cl x) eqn:Hm; [|discriminate].
    exists (S i), g. split; [econstructor; eauto | exact H].
  - apply IHa in H as [j [g' [Ha H]]]. apply IHb in H as [j2 [g2 [Hb H]]].
    exists j2, g2. split; [econstructor; eauto | exact H].
  - destruct (run s a i g k) eqn:E.
    + injection H as <-. apply IHa in E as [j [g' [Ha H]]].
      exists j, g'. split; [apply M_OrL; exact Ha | exact H].
    + apply IHb in H as [j [g' [Hb H]]].
      exists j, g'. split; [apply M_OrR; exact Hb | exact H].
  - destruct (run s a i g k) eqn:E.
    + injection H as <-. apply IHa in E as [j [g' [Ha H]]].
      exists j, g'. split; [apply M_OptSome; exact Ha | exact H].
    + exists i, g. split; [apply M_OptNone | exact H].
  - apply (rounds_sound a s (IHa s)) in H. exact H.
  - destruct (at_boundary s i) eqn:E; [|discriminate].
    exists i, g. split; [constructor; exact E | exact H].
  - apply IHa in H as [j [g' [Ha H]]].
    exists j, (Some (i, j)). split; [apply M_Group with (g' := g'); exact Ha | exact H].
Qed.

Lemma match_at_matches : forall s r i m,
  match_at s r i = Some m ->
  m_start m = i /\ matches s r i None (m_end m) (m_group1 m).
Proof.
  intros s r i m H. unfold match_at in H.
  destruct (run s r i None _) as [[j g]|] eqn:E; [|discriminate].
  injection H as <-. apply run_sound in E as [j' [g' [Hm E]]].
  injection E as <- <-. split; [reflexivity | exact Hm].
Qed.

Lemma search_from_matches : forall s r fuel i m,
  search_from s r fuel i = Some m ->
  matches s r (m_start m) None (m_end m) (m_group1 m).
Proof.
  intros s r. induction fuel as [|fuel IH]; intros i m H; [discriminate|].
  cbn [search_from] in H. destruct (match_at s r i) as [m0|] eqn:E.
  - injection H as <-. destruct (match_at_matches _ _ _ _ E) as [-> Hm]. exact Hm.
  - apply (IH _ _ H).
Qed.

(** A match never moves backwards and never loses a group. *)
Lemma matches_forward : forall s r i g j g',
  matches s r i g j g' -> i <= j /\ (g <> None -> g' <> None).
Proof.
  intros s r i g j g' H.
  induction H;
    repeat match goal with IH : _ /\ _ |- _ => destruct IH end;
    (split; [lia | try (intros; discriminate); auto]).
Qed.

Lemma matches_sets_group : forall s r i g j g',
  matches s r i g j g' -> must_group r = true -> g' <> None.
Proof.
  intros s r i g j g' H. induction H; cbn [must_group]; intros Hm;
    try discriminate.
  - apply orb_true_iff in Hm as [Hm|Hm]; [|auto].
    apply (proj2 (matches_forward _ _ _ _ _ _ H0)). auto.
  - apply andb_true_iff in Hm as [Hm _]. auto.
  - apply andb_true_iff in Hm as [_ Hm]. auto.
  - auto.
  - auto.
Qed.

(** A group set during a match spans a match of the groups' body. *)
Lemma matches_group_span : forall s body r i g j g',
  matches s r i g j g' -> groups_are body r ->
  forall (P : nat -> nat -> Prop),
  (forall a gin b gout, matches s body a gin b gout -> P a b) ->
  (forall a b, g = Some (a, b) -> P a b) ->
  forall a b, g' = Some (a, b) -> P a b.
Proof.
  intros s body r i g j g' H.
  induction H as [i g|c x i g Hn Hl|cl x i g Hn Hc
                 |a b i g j g' k g'' H1 IH1 H2 IH2
                 |a b i g j g' H1 IH1|a b i g j g' H1 IH1
                 |a i g j g' H1 IH1|a i g|a i g j g' H1 IH1
                 |a i g j g' k g'' H1 IH1 H2 IH2|i g Hb|a i g j g' H1 IH1];
    cbn [groups_are]; intros Hg P HP Hin.
  - exact Hin.
  - exact Hin.
  - exact Hin.
  - destruct Hg as [Ha Hb]. apply (IH2 Hb P HP). apply (IH1 Ha P HP Hin).
  - destruct Hg as [Ha Hb]. apply (IH1 Ha P HP Hin).
  - destruct Hg as [Ha Hb]. apply (IH1 Hb P HP Hin).
  - apply (IH1 Hg P HP Hin).
  - exact Hin.
  - apply (IH1 Hg P HP Hin).
  - apply (IH2 Hg P HP). apply (IH1 Hg P HP Hin).
  - exact Hin.
  - subst a. intros a b E. injection E as <- <-. eapply HP; eauto.
Qed.

Lemma matches_class_plus : forall s cl i g j g',
  matches s (Plus (Cls cl)) i g j g' -> class_run s cl i j.
Proof.
  intros s cl i g j g' H. remember (Plus (Cls cl)) as r eqn:Er.
  induction H; try discriminate; injection Er as ->.
  - inversion H; subst. split; [lia|]. intros k Hk.
    assert (k = i) by lia. subst k. eauto.
  - inversion H; subst. destruct (IHmatches2 eq_refl) as [Hlt Hr].
    split; [lia|]. intros k0 Hk.
    destruct (Nat.eq_dec k0 i) as [->|Hne]; [eauto | apply Hr; lia].
Qed.

Lemma space_literal : forall x, lit_match " " x = true -> x = " "%char.
Proof. intros [[] [] [] [] [] [] [] []]; simpl; intros H; try reflexivity; discriminate H. Qed.

Lemma matches_word_space_number : forall s i g j g',
  matches s word_space_number i g j g' ->
  exists mid, class_run s CWord i mid /\
    nth_error s mid = Some " "%char /\ class_run s CDigit (S mid) j.
Proof.
  intros s i g j g' H. unfold word_space_number in H. cbn [cats] in H.
  inversion H as [| | |a b i0 g0 mid g1 k g2 H1 H2| | | | | | | |]; subst.
  inversion H2 as [| | |a b i0 g0 mid' g3 k g4 H3 H4| | | | | | | |]; subst.
  inversion H3; subst.
  match goal with Hx : lit_match " " ?x = true |- _ => apply space_literal in Hx; subst end.
  exists mid. split; [apply (matches_class_plus _ _ _ _ _ _ H1)|].
  split; [assumption | apply (matches_class_plus _ _ _ _ _ _ H4)].
Qed.

(* ================================================================= *)
(** ** Action items: the captured name and due date *)

Lemma nth_error_slice : forall a b (s : str) k,
  k < b - a -> nth_error (slice a b s) k = nth_error s (a + k).
Proof.
  intros a b s k Hk. unfold slice. rewrite nth_error_firstn.
  apply Nat.ltb_lt in Hk. rewrite Hk. apply nth_error_skipn.
Qed.

Lemma length_slice : forall a b (s : str),
  length (slice a b s) <= b - a.
Proof. intros. unfold slice. apply firstn_le_length. Qed.

(** A slice over a run of a class is a non-empty text of that class. *)
Lemma slice_class_run : forall s cl a b,
  class_run s cl a b ->
  slice a b s <> [] /\ forallb (in_class cl) (slice a b s) = true.
Proof.
  intros s cl a b [Hlt Hr]. split.
  - intros E. destruct (Hr a) as [x [Hx _]]; [lia|].
    assert (H0 : nth_error (slice a b s) 0 = nth_error s (a + 0))
      by (apply nth_error_slice; lia).
    rewrite E, Nat.add_0_r, Hx in H0. discriminate.
  - apply forallb_forall. intros x Hx.
    apply In_nth_error in Hx as [k Hk].
    assert (Hkl : k < b - a).
    { assert (k < length (slice a b s))
        by (apply nth_error_Some; rewrite Hk; discriminate).
      pose proof (length_slice a b s). lia. }
    rewrite nth_error_slice in Hk by exact Hkl.
    destruct (Hr (a + k)) as [y [Hy Hc]]; [lia|].
    rewrite Hy in Hk. injection Hk as <-. exact Hc.
Qed.

Lemma firstn_plus : forall (A : Type) n m (l : list A),
  firstn (n + m) l = firstn n l ++ firstn m (skipn n l).
Proof.
  intros A. induction n as [|n IH]; intros m l; [reflexivity|].
  destruct l as [|x l]; cbn [Nat.add firstn skipn app].
  - destruct m; reflexivity.
  - rewrite IH. reflexivity.
Qed.

Lemma skipn_nth_error : forall (A : Type) n (l : list A) x,
  nth_error l n = Some x -> skipn n l = x :: skipn (S n) l.
Proof.
  intros A. induction n as [|n IH]; intros [|y l] x H; try discriminate.
  - injection H as ->. reflexivity.
  - cbn [nth_error] in H. apply (IH l x H).
Qed.

(** A slice around a position splits there. *)
Lemma slice_split : forall (s : str) a mid b x,
  a <= mid -> mid < b -> nth_error s mid = Some x ->
  slice a b s = slice a mid s ++ x :: slice (S mid) b s.
Proof.
  intros s a mid b x Ha Hb Hx. unfold slice.
  replace (b - a) with ((mid - a) + (b - mid)) by lia.
  rewrite firstn_plus, skipn_skipn.
  replace (mid - a + a) with mid by lia.
  rewrite (skipn_nth_error _ _ _ _ Hx).
  replace (b - mid) with (S (b - S mid)) by lia. reflexivity.
Qed.

Lemma starts_with_firstn : forall n (s : str), starts_with (firstn n s) s = true.
Proof.
  induction n as [|n IH]; intros [|c s]; cbn [firstn starts_with]; try reflexivity.
  rewrite Ascii.eqb_refl, IH. reflexivity.
Qed.

Lemma contains_skipn : forall sub n (s : str),
  contains sub (skipn n s) = true -> contains sub s = true.
Proof.
  intros sub. induction n as [|n IH]; intros s H; [exact H|].
  destruct s as [|c s]; [exact H|]. cbn [skipn] in H. cbn [contains].
  rewrite (IH _ H). apply orb_true_r.
Qed.

(** A slice of a text occurs in the text. *)
Lemma contains_slice : forall a b (s : str), contains (slice a b s) s = true.
Proof.
  intros a b s. apply (contains_skipn _ a). unfold slice.
  destruct (skipn a s) as [|c r] eqn:E; cbn [contains];
    rewrite starts_with_firstn; reflexivity.
Qed.

(** What the loops over the assignee and due-date patterns return was
    captured by a search of one of the patterns. *)
Lemma first_group1_found : forall ps text d,
  first_group1 ps text = Some d ->
  exists p m a b, In p ps /\ search (compiled p) text = Some m /\
    m_group1 m = Some (a, b) /\ d = slice a b text.
Proof.
  induction ps as [|p ps IH]; intros text d H; [discriminate|].
  cbn [first_group1] in H. destruct (search (compiled p) text) as [m|] eqn:E.
  - unfold group1 in H. destruct (m_group1 m) as [[a b]|] eqn:Eg; [|discriminate].
    injection H as <-. exists p, m, a, b.
    split; [left; reflexivity|]. split; [exact E|]. split; [exact Eg | reflexivity].
  - destruct (IH _ _ H) as [p' [m [a [b [Hp R]]]]].
    exists p', m, a, b. split; [right; exact Hp | exact R].
Qed.

(** When a search of a pattern that always goes through its group finds
    nothing, the loop moves on; when it finds something, group 1 is set. *)
Lemma first_group1_none : forall ps text,
  first_group1 ps text = None ->
  (forall p, In p ps -> must_group (compiled p) = true) ->
  forall p, In p ps -> search (compiled p) text = None.
Proof.
  induction ps as [|p ps IH]; intros text H Hg q Hq; [contradiction|].
  cbn [first_group1] in H. destruct (search (compiled p) text) as [m|] eqn:E.
  - exfalso. unfold group1 in H. unfold search in E.
    apply search_from_matches in E.
    apply matches_sets_group in E; [|apply Hg; left; reflexivity].
    destruct (m_group1 m) as [[a b]|]; [discriminate | apply E; reflexivity].
  - destruct Hq as [<-|Hq]; [exact E|].
    apply (IH _ H); [intros p' Hp'; apply Hg; right; exact Hp' | exact Hq].
Qed.

Lemma assignee_groups : forall p,
  In p assignee_patterns ->
  groups_are word_run (compiled p) /\ must_group (compiled p) = true.
Proof.
  intros p Hp. cbn in Hp.
  repeat (destruct Hp as [<-|Hp]; [split; [cbn; repeat split | reflexivity]|]).
  contradiction.
Qed.

Lemma due_date_groups : forall p,
  In p due_date_patterns ->
  groups_are word_space_number (compiled p) /\ must_group (compiled p) = true.
Proof.
  intros p Hp. cbn in Hp.
  repeat (destruct Hp as [<-|Hp]; [split; [cbn; repeat split | reflexivity]|]).
  contradiction.
Qed.

Lemma assignee_is_name : forall text name,
  first_group1 assignee_patterns text = Some name ->
  is_name name /\ contains name text = true.
Proof.
  intros text name H.
  destruct (first_group1_found _ _ _ H) as [p [m [a [b [Hp [Hs [Hg ->]]]]]]].
  split; [|apply contains_slice].
  unfold search in Hs. apply search_from_matches in Hs.
  apply (matches_group_span _ word_run _ _ _ _ _ Hs
           (proj1 (assignee_groups p Hp))
           (fun a b => is_name (slice a b text))); [| |exact Hg].
  - intros a0 gin b0 gout Hm. apply matches_class_plus in Hm.
    apply (slice_class_run text CWord a0 b0 Hm).
  - intros; discriminate.
Qed.

Lemma due_date_is_word_and_number : forall text d,
  first_group1 due_date_patterns text = Some d ->
  is_word_and_number d /\ contains d text = true.
Proof.
  intros text d H.
  destruct (first_group1_found _ _ _ H) as [p [m [a [b [Hp [Hs [Hg ->]]]]]]].
  split; [|apply contains_slice].
  unfold search in Hs. apply search_from_matches in Hs.
  apply (matches_group_span _ word_space_number _ _ _ _ _ Hs
           (proj1 (due_date_groups p Hp))
           (fun a b => is_word_and_number (slice a b text))); [| |exact Hg].
  - intros a0 gin b0 gout Hm.
    apply matches_word_space_number in Hm as [mid [Hw [Hsp Hd]]].
    exists (slice a0 mid text), (slice (S mid) b0 text).
    destruct (slice_class_run _ _ _ _ Hw) as [Hw1 Hw2].
    destruct (slice_class_run _ _ _ _ Hd) as [Hd1 Hd2].
    destruct Hw as [Hlt _]. destruct Hd as [Hlt' _].
    split; [apply slice_split; [lia | lia | exact Hsp]|].
    split; [exact Hw1|]. split; [exact Hw2|]. split; [exact Hd1 | exact Hd2].
  - intros; discriminate.
Qed.

(** Every action item is pending with medium priority.  A captured
    assignee name is a non-empty run of word characters taken from the
    segment's content, and then the item carries no speaker id; an item
    without a name carries the segment's speaker id, and then none of the
    assignee patterns occurs in the content.  A captured due date is taken
    from the content and reads word characters, one space, decimal
    digits. *)
Theorem action_item_assignee_and_due_date : forall transcripts a,
  In a (extract_action_items transcripts) ->
  exists t, In t transcripts /\
    a_description a = get_content t /\
    status a = "PENDING"%string /\ priority a = "MEDIUM"%string /\
    match assigned_to_name a with
    | Some name => is_name name /\ contains name (get_content t) = true /\
                   assigned_to_speaker_id a = None
    | None => assigned_to_speaker_id a = speaker_id t /\
              forall p, In p assignee_patterns ->
                search (compiled p) (get_content t) = None
    end /\
    match due_date a with
    | Some d => is_word_and_number d /\ contains d (get_content t) = true
    | None => True
    end.
Proof.
  intros transcripts a Ha. rewrite extract_action_items_filter in Ha.
  apply In_firstn in Ha. apply in_map_iff in Ha as [t [<- Ht]].
  apply filter_In in Ht as [Ht _].
  exists t. split; [exact Ht|]. split; [reflexivity|].
  split; [reflexivity|]. split; [reflexivity|].
  cbn [action_item_for assigned_to_name assigned_to_speaker_id due_date]. split.
  - destruct (first_group1 assignee_patterns (get_content t)) as [name|] eqn:E;
      [|split; [reflexivity|];
        apply (first_group1_none _ _ E); intros p Hp; apply (assignee_groups p Hp)].
    destruct (assignee_is_name _ _ E) as [Hn Hc].
    split; [exact Hn|]. split; [exact Hc|].
    destruct name as [|c name]; [destruct Hn as [Hn _]; contradiction | reflexivity].
  - destruct (first_group1 due_date_patterns (get_content t)) as [d|] eqn:E;
      [|exact I].
    apply (due_date_is_word_and_number _ _ E).
Qed.

Lemma action_item_assignee_witness :
  exists t, In t example_segments /\
    a_description (action_item_for (nth 1 example_segments (MkSegment None None None)))
    = get_content t /\
    status (action_item_for (nth 1 example_segments (MkSegment None None None)))
    = "PENDING"%string /\
    priority (action_item_for (nth 1 example_segments (MkSegment None None None)))
    = "MEDIUM"%string /\
    match assigned_to_name
            (action_item_for (nth 1 example_segments (MkSegment None None None))) with
    | Some name => is_name name /\ contains name (get_content t) = true /\
                   assigned_to_speaker_id
                     (action_item_for (nth 1 example_segments (MkSegment None None None)))
                   = None
    | None => assigned_to_speaker_id
                (action_item_for (nth 1 example_segments (MkSegment None None None)))
              = speaker_id t /\
              forall p, In p assignee_patterns ->
                search (compiled p) (get_content t) = None
    end /\
    match due_date
            (action_item_for (nth 1 example_segments (MkSegment None None None))) with
    | Some d => is_word_and_number d /\ contains d (get_content t) = true
    | None => True
    end.
Proof.
  apply (action_item_assignee_and_due_date example_segments).
  vm_compute. left. reflexivity.
Defined.

(** The example's item names John and is due March 5. *)
Example example_item_fields :
  map (fun a => (assigned_to_name a, due_date a, assigned_to_speaker_id a))
      (extract_action_items example_segments)
  = [(Some (s2l "John"), Some (s2l "March 5"), None)].
Proof. vm_compute. reflexivity. Qed.

(* ================================================================= *)
(** ** Fallback summary: what it reads *)

Lemma last_window_map : forall (A B : Type) (f : A -> B) l,
  last_window (map f l) = map f (last_window l).
Proof.
  intros A B f l. unfold last_window. rewrite length_map.
  destruct (3 <? length l); [apply skipn_map | reflexivity].
Qed.

Lemma first_window_map : forall (A B : Type) (f : A -> B) l,
  first_window (map f l) = map f (first_window l).
Proof. intros. unfold first_window. apply firstn_map. Qed.

Lemma flat_map_map : forall (A B C : Type) (f : A -> B) (g : B -> list C) l,
  flat_map g (map f l) = flat_map (fun x => g (f x)) l.
Proof.
  intros A B C f g. induction l as [|x l IH]; [reflexivity|].
  cbn [map flat_map]. rewrite IH. reflexivity.
Qed.

Lemma preview_shortened : forall t, preview (shortened t) = preview t.
Proof.
  intros [[c|] sp ts]; unfold preview, shortened, get_content, upto;
    cbn [content option_map]; [|reflexivity].
  rewrite firstn_firstn. reflexivity.
Qed.

Lemma map_preview_shortened : forall l,
  map preview (map shortened l) = map preview l.
Proof.
  intros l. rewrite map_map. apply map_ext. exact preview_shortened.
Qed.

(** The fallback summary reads at most the first fifty characters of any
    segment's content: cutting every content down to them changes
    nothing. *)
Theorem basic_summary_reads_fifty_characters : forall transcripts title,
  generate_basic_summary (map shortened transcripts) title
  = generate_basic_summary transcripts title.
Proof.
  intros transcripts title. destruct transcripts as [|t ts]; [reflexivity|].
  unfold generate_basic_summary.
  change (map shortened (t :: ts)) with (shortened t :: map shortened ts) at 1.
  cbv zeta.
  change (shortened t :: map shortened ts) with (map shortened (t :: ts)).
  rewrite length_map, flat_map_map, first_window_map, last_window_map.
  replace (flat_map (fun x => truthy_speaker (shortened x)) (t :: ts))
    with (flat_map truthy_speaker (t :: ts))
    by (apply flat_map_ext; intros [c sp tm]; reflexivity).
  generalize (first_window (t :: ts)) (last_window (t :: ts)).
  intros fw lw.
  destruct fw as [|a fw]; destruct lw as [|b lw]; cbn [map]; try reflexivity.
  - change (shortened b :: map shortened lw) with (map shortened (b :: lw)).
    rewrite firstn_map, map_preview_shortened. reflexivity.
  - change (shortened a :: map shortened fw) with (map shortened (a :: fw)).
    rewrite firstn_map, map_preview_shortened. reflexivity.
  - change (shortened a :: map shortened fw) with (map shortened (a :: fw)).
    change (shortened b :: map shortened lw) with (map shortened (b :: lw)).
    rewrite !firstn_map, !map_preview_shortened. reflexivity.
Qed.

Lemma last_window_snoc : forall (A : Type) (l : list A),
  3 <= length l ->
  exists u v, forall x, last_window (l ++ [x]) = [u; v; x].
Proof.
  intros A l Hl.
  assert (Hlen : length (skipn (length l - 2) l) = 2)
    by (rewrite length_skipn; lia).
  destruct (skipn (length l - 2) l) as [|u [|v [|w r]]] eqn:Es; try discriminate.
  exists u, v. intros x.
  unfold last_window. rewrite length_app. cbn [length].
  assert (E : (3 <? length l + 1) = true) by (apply Nat.ltb_lt; lia).
  rewrite E. replace (length l + 1 - 3) with (length l - 2) by lia.
  rewrite skipn_app, Es. replace (length l - 2 - length l) with 0 by lia.
  reflexivity.
Qed.

Lemma last_window_snoc_indep : forall (A : Type) (l : list A) x y,
  match last_window (l ++ [x]), last_window (l ++ [y]) with
  | [], [] => True
  | a :: r, b :: r' => firstn 2 (a :: r) = firstn 2 (b :: r')
  | _, _ => False
  end.
Proof.
  intros A l x y. destruct (le_lt_dec 3 (length l)) as [H|H].
  - destruct (last_window_snoc A l H) as [u [v E]].
    rewrite (E x), (E y). reflexivity.
  - unfold last_window. rewrite !length_app. cbn [length].
    assert (E : (3 <? length l + 1) = false) by (apply Nat.ltb_ge; lia).
    rewrite E. exact I.
Qed.

(** With three segments or more, the fallback summary does not depend on
    the content of the final segment. *)
Theorem basic_summary_ignores_final_content : forall ts t c title,
  2 <= length ts ->
  generate_basic_summary (ts ++ [with_content c t]) title
  = generate_basic_summary (ts ++ [t]) title.
Proof.
  intros ts t c title Hl.
  destruct ts as [|a [|b rest]]; cbn [length] in Hl; try lia.
  unfold generate_basic_summary.
  change ((a :: b :: rest) ++ [with_content c t])
    with (a :: b :: (rest ++ [with_content c t])) at 1.
  change ((a :: b :: rest) ++ [t]) with (a :: b :: (rest ++ [t])) at 1.
  cbv zeta.
  change (a :: b :: (rest ++ [with_content c t]))
    with ((a :: b :: rest) ++ [with_content c t]).
  change (a :: b :: (rest ++ [t])) with ((a :: b :: rest) ++ [t]).
  rewrite !length_app, !flat_map_app. cbn [length flat_map].
  change (truthy_speaker (with_content c t)) with (truthy_speaker t).
  pose proof (last_window_snoc_indep _ (a :: b :: rest) (with_content c t) t) as Hw.
  destruct (last_window ((a :: b :: rest) ++ [with_content c t])) as [|u r];
    destruct (last_window ((a :: b :: rest) ++ [t])) as [|u' r'];
    try contradiction; [|rewrite Hw];
    unfold first_window; cbn [app firstn]; reflexivity.
Qed.

Lemma basic_summary_final_content_witness :
  2 <= length (firstn 2 four_segments) /\
  generate_basic_summary
    (firstn 2 four_segments ++ [with_content (Some (s2l "Goodbye")) (text_segment "d")])
    (s2l "T")
  = generate_basic_summary (firstn 2 four_segments ++ [text_segment "d"]) (s2l "T").
Proof.
  split; [vm_compute; lia|].
  apply (basic_summary_ignores_final_content (firstn 2 four_segments)).
  vm_compute. lia.
Defined.

(* ================================================================= *)
(** ** Summarizer: the transcript sent to the chat completion *)

(** The summary depends on the chat completion only through prompts whose
    transcript part has at most 8003 characters. *)
Theorem summary_prompt_carries_bounded_transcript :
  forall key (chat chat' : str -> option str) transcripts title,
  (forall full, (N.of_nat (length full) <= 8003)%N ->
     chat (summary_prompt title full) = chat' (summary_prompt title full)) ->
  generate_summary_with_openai key chat transcripts title
  = generate_summary_with_openai key chat' transcripts title.
Proof.
  intros key chat chat' transcripts title H. unfold generate_summary_with_openai.
  destruct (negb key || match transcripts with [] => true | _ => false end);
    [reflexivity|].
  cbv zeta.
  set (full := join nl (map speaker_line
                 (filter (fun t => truthy (strip (get_content t))) transcripts))).
  destruct (8000 <? N.of_nat (length full))%N eqn:E.
  - rewrite H; [reflexivity|]. unfold upto.
    rewrite length_app, Nat2N.inj_add.
    pose proof (firstn_le_length (N.to_nat 8000) full) as Hf.
    apply N.ltb_lt in E.
    assert (Hl : (N.of_nat (length (firstn (N.to_nat 8000) full)) <= 8000)%N).
    { rewrite length_firstn, Nat2N.inj_min, N2Nat.id. apply N.le_min_l. }
    change (N.of_nat (length (s2l "..."))) with 3%N. lia.
  - rewrite H; [reflexivity|]. apply N.ltb_ge in E. lia.
Qed.

Lemma summary_prompt_witness :
  generate_summary_with_openai true (fun _ => Some (s2l " Done. ")) two_segments (s2l "T")
  = generate_summary_with_openai true
      (fun p => if starts_with nl p then Some (s2l " Done. ") else None)
      two_segments (s2l "T").
Proof.
  apply (summary_prompt_carries_bounded_transcript true).
  intros full _. reflexivity.
Defined.

(* ================================================================= *)
(** ** Pipeline and endpoints: reads, frame and round trips *)

Lemma redis_call_ok : forall (A : Type) (op : world -> A * world) w,
  next_call_succeeds w ->
  redis_call op w
  = (Returned (fst (op (MkWorld (kv w) (klists w) (tl (faults w)) (writes w)))),
     snd (op (MkWorld (kv w) (klists w) (tl (faults w)) (writes w)))).
Proof.
  intros A op [k l f wr] H. unfold redis_call, next_call_succeeds in *.
  cbn [faults kv klists writes tl] in *.
  destruct f as [|[|] rest]; [|contradiction|];
    destruct (op _) as [a w']; reflexivity.
Qed.

(** A Redis call that only reads leaves the lists alone as well. *)
Lemma read_only_call_lists : forall (A : Type) (f : world -> A) w,
  klists (snd (redis_call (fun w0 => (f w0, w0)) w)) = klists w.
Proof.
  intros A f w. unfold redis_call.
  destruct (faults w) as [|[|] rest]; cbn; auto.
Qed.

Lemma get_lists : forall key w, klists (snd (get key w)) = klists w.
Proof. intros. apply read_only_call_lists. Qed.

Lemma lrange_lists : forall key w, klists (snd (lrange key w)) = klists w.
Proof. intros. apply read_only_call_lists. Qed.

Section PipelineReads.
Variable encode : list str -> option (list vec).
Variable fit_predict : nat -> list vec -> option (list nat).
Variable openai_api_key : bool.
Variable chat_completion : str -> option str.
Variable json_loads : str -> option segment.
Variable json_dumps : notes_data -> str.
Variable utcnow : str.
Variable J : Type.
Variable json_loads_notes : str -> option J.

Lemma read_transcripts_no_fault : forall keys k l wr,
  read_transcripts json_loads keys (MkWorld k l [] wr)
  = (match decode_all json_loads (present_records (MkWorld k l [] wr) keys) with
     | Some ts => Returned ts
     | None => Raised
     end, MkWorld k l [] wr).
Proof.
  induction keys as [|key keys IH]; intros k l wr; [reflexivity|].
  cbn [read_transcripts present_records flat_map]. unfold bind.
  unfold get at 1, redis_call. cbn [faults kv].
  destruct (k key) as [[[|c d] ttl]|]; cbn [option_map fst app];
    try (rewrite IH; reflexivity).
  cbn [decode_all]. destruct (json_loads (c :: d)) as [t|]; [|reflexivity].
  rewrite IH. unfold present_records.
  destruct (decode_all json_loads _) as [ts|]; reflexivity.
Qed.

Lemma read_transcripts_lists : forall keys w,
  klists (snd (read_transcripts json_loads keys w)) = klists w.
Proof.
  induction keys as [|key keys IH]; intros w; cbn [read_transcripts]; [reflexivity|].
  unfold bind.
  pose proof (get_lists key w) as Hg.
  destruct (get key w) as [[data|] w1]; cbn [snd] in *; [|exact Hg].
  pose proof (IH w1) as H1.
  destruct data as [[|c d]|]; try congruence.
  destruct (json_loads (c :: d)) as [t|]; [|exact Hg].
  destruct (read_transcripts json_loads keys w1) as [[ts|] w2];
    cbn [snd ret] in *; congruence.
Qed.

Lemma load_transcripts_lists : forall meeting_id w,
  klists (snd (load_transcripts json_loads meeting_id w)) = klists w.
Proof.
  intros meeting_id w. unfold load_transcripts, bind.
  pose proof (lrange_lists (s2l "transcripts:" ++ meeting_id) w) as Hl.
  destruct (lrange (s2l "transcripts:" ++ meeting_id) w) as [[keys|] w1];
    cbn [snd] in *; [|exact Hl].
  rewrite read_transcripts_lists. exact Hl.
Qed.

(** While no Redis call fails, the stored segments are read in the order
    of the meeting's list; keys that hold nothing or an empty record are
    skipped, one record that does not decode fails the whole read, and
    the store is left as it was. *)
Theorem stored_segments_read_in_list_order : forall meeting_id w,
  faults w = [] ->
  load_transcripts json_loads meeting_id w
  = (match decode_all json_loads
             (present_records w (klists w (s2l "transcripts:" ++ meeting_id))) with
     | Some ts => Returned ts
     | None => Raised
     end, w).
Proof.
  intros meeting_id [k l f wr] H. cbn [faults] in H. subst f.
  unfold load_transcripts, bind. unfold lrange at 1, redis_call. cbn [faults klists].
  apply read_transcripts_no_fault.
Qed.

Lemma setex_frame : forall key ttl value w key',
  key' <> key ->
  kv (snd (setex key ttl value w)) key' = kv w key' /\
  klists (snd (setex key ttl value w)) = klists w.
Proof.
  intros key ttl value w key' Hne. unfold setex, redis_call.
  assert (E : str_eqb key' key = false).
  { destruct (str_eqb key' key) eqn:E; [|reflexivity].
    apply str_eqb_eq in E. contradiction. }
  destruct (faults w) as [|[|] rest]; cbn; rewrite ?E; auto.
Qed.

(** A run changes nothing in the store but the notes of its meeting: every
    other key keeps its value and expiry, and every list its elements. *)
Theorem process_touches_only_its_notes : forall meeting_id w key,
  key <> s2l "processed_notes:" ++ meeting_id ->
  let run := process_meeting_notes encode fit_predict openai_api_key
               chat_completion json_loads json_dumps utcnow meeting_id w in
  kv (snd run) key = kv w key /\ klists (snd run) = klists w.
Proof.
  intros meeting_id w key Hne run. subst run.
  unfold process_meeting_notes, process_body, bind.
  pose proof (proj2 (load_transcripts_frame json_loads meeting_id w)) as Hk.
  pose proof (load_transcripts_lists meeting_id w) as Hl.
  destruct (load_transcripts json_loads meeting_id w) as [[[|t ts]|] w1];
    cbn [snd] in *.
  - cbn. rewrite Hk. auto.
  - set (notes := build_notes encode fit_predict openai_api_key
                    chat_completion utcnow meeting_id (t :: ts)).
    destruct (setex_frame (s2l "processed_notes:" ++ meeting_id) 86400
                (json_dumps notes) w1 key Hne) as [H1 H2].
    destruct (setex _ _ _ w1) as [[[]|] w2]; cbn [snd ret] in *;
      rewrite H1, H2, Hk; auto.
  - cbn. rewrite Hk. auto.
Qed.

(** What a run that returns notes leaves under the notes key. *)
Lemma process_stores_notes : forall meeting_id w notes,
  fst (process_meeting_notes encode fit_predict openai_api_key
         chat_completion json_loads json_dumps utcnow meeting_id w) = Some notes ->
  kv (snd (process_meeting_notes encode fit_predict openai_api_key
             chat_completion json_loads json_dumps utcnow meeting_id w))
     (s2l "processed_notes:" ++ meeting_id)
  = Some (json_dumps notes, 86400%N).
Proof.
  intros meeting_id w notes. unfold process_meeting_notes, process_body, bind.
  destruct (load_transcripts json_loads meeting_id w) as [[[|t ts]|] w1];
    cbn [fst snd ret]; try discriminate.
  set (built := build_notes encode fit_predict openai_api_key
                  chat_completion utcnow meeting_id (t :: ts)).
  destruct (setex_effect (s2l "processed_notes:" ++ meeting_id) 86400
              (json_dumps built) w1)
    as [[w' [E [H1 H2]]]|[w' [E [H1 H2]]]]; rewrite E; cbn [fst snd ret];
    [discriminate|].
  intros H. injection H as <-. exact H2.
Qed.

Lemma get_processed_notes_reads : forall meeting_id w,
  next_call_succeeds w ->
  fst (get_processed_notes json_loads_notes meeting_id w)
  = match kv w (s2l "processed_notes:" ++ meeting_id) with
    | Some (c :: d, _) =>
        match json_loads_notes (c :: d) with
        | Some notes => Returned (NotesFound meeting_id notes)
        | None => Raised
        end
    | _ => Returned (NotesNotFound meeting_id)
    end.
Proof.
  intros meeting_id w H. unfold get_processed_notes, bind, get.
  rewrite (redis_call_ok _ _ _ H). cbn [fst snd kv].
  destruct (kv w _) as [[[|c d] ttl]|]; cbn [option_map fst]; try reflexivity.
  destruct (json_loads_notes (c :: d)); reflexivity.
Qed.

(** Round trip: after a run that returned notes, a fetch whose Redis call
    does not fail answers with the decoded form of exactly the text the
    run serialised, provided that text is not empty and decodes. *)
Theorem processed_notes_can_be_fetched : forall meeting_id w notes j,
  let run := process_meeting_notes encode fit_predict openai_api_key
               chat_completion json_loads json_dumps utcnow meeting_id w in
  fst run = Some notes ->
  json_dumps notes <> [] ->
  json_loads_notes (json_dumps notes) = Some j ->
  next_call_succeeds (snd run) ->
  fst (get_processed_notes json_loads_notes meeting_id (snd run))
  = Returned (NotesFound meeting_id j).
Proof.
  intros meeting_id w notes j run Hr Hne Hj Hf. subst run.
  rewrite (get_processed_notes_reads _ _ Hf).
  rewrite (process_stores_notes _ _ _ Hr).
  destruct (json_dumps notes) as [|c d]; [contradiction|].
  rewrite Hj. reflexivity.
Qed.

(** A run that stores nothing new leaves a fetch with what was there: when
    no segment is stored for the meeting and nothing was cached, a fetch
    after the run finds no notes. *)
Theorem no_segments_no_notes : forall meeting_id w,
  faults w = [] ->
  present_records w (klists w (s2l "transcripts:" ++ meeting_id)) = [] ->
  kv w (s2l "processed_notes:" ++ meeting_id) = None ->
  let run := process_meeting_notes encode fit_predict openai_api_key
               chat_completion json_loads json_dumps utcnow meeting_id w in
  fst run = None /\
  fst (get_processed_notes json_loads_notes meeting_id (snd run))
  = Returned (NotesNotFound meeting_id).
Proof.
  intros meeting_id [k l f wr] Hf Hp Hk run. subst run.
  cbn [faults] in Hf. subst f. cbn [klists] in Hp. cbn [kv] in Hk.
  assert (E : load_transcripts json_loads meeting_id (MkWorld k l [] wr)
              = (Returned [], MkWorld k l [] wr)).
  { unfold load_transcripts, bind. unfold lrange at 1, redis_call.
    cbn [faults klists]. rewrite read_transcripts_no_fault, Hp. reflexivity. }
  unfold process_meeting_notes, process_body, bind. rewrite E.
  cbn [ret fst snd]. split; [reflexivity|].
  rewrite get_processed_notes_reads by exact I.
  cbn [kv]. rewrite Hk. reflexivity.
Qed.

(** Deleting answers whether the key held anything, and a fetch after a
    deletion finds no notes. *)
Theorem deleted_notes_are_gone : forall meeting_id w,
  next_call_succeeds w ->
  let run := delete_processed_notes meeting_id w in
  next_call_succeeds (snd run) ->
  (fst run = Returned true \/ fst run = Returned false) /\
  (fst run = Returned false <->
     kv w (s2l "processed_notes:" ++ meeting_id) = None /\
     klists w (s2l "processed_notes:" ++ meeting_id) = []) /\
  fst (get_processed_notes json_loads_notes meeting_id (snd run))
  = Returned (NotesNotFound meeting_id).
Proof.
  intros meeting_id w H run H'. subst run.
  rewrite get_processed_notes_reads by exact H'. revert H'.
  unfold delete_processed_notes, bind, redis_delete.
  rewrite (redis_call_ok _ _ _ H). cbn [fst snd kv klists ret].
  assert (E : str_eqb (s2l "processed_notes:" ++ meeting_id)
                      (s2l "processed_notes:" ++ meeting_id) = true)
    by (apply str_eqb_eq; reflexivity).
  intros _. rewrite E.
  destruct (kv w _) as [v|]; destruct (klists w _) as [|x r];
    cbn [Nat.ltb Nat.leb fst];
    (split; [auto|]); (split; [|reflexivity]);
    split; try discriminate; try (intros [? ?]; discriminate); auto.
Qed.
End PipelineReads.

Lemma stored_segments_witness :
  load_transcripts as_content (s2l "m1") three_key_world
  = (Returned [MkSegment (Some (s2l "first")) None None;
               MkSegment (Some (s2l "third")) None None],
     three_key_world).
Proof.
  exact (stored_segments_read_in_list_order as_content (s2l "m1")
           three_key_world eq_refl).
Defined.

Lemma process_touches_only_its_notes_witness :
  kv (snd (process_meeting_notes (fun _ => None) (fun _ _ => None) false
             (fun _ => None) as_content (fun _ => s2l "{notes}")
             (s2l "2024-01-01T00:00:00") (s2l "m1") three_key_world))
     (s2l "transcript:m1:0")
  = kv three_key_world (s2l "transcript:m1:0") /\
  klists (snd (process_meeting_notes (fun _ => None) (fun _ _ => None) false
                 (fun _ => None) as_content (fun _ => s2l "{notes}")
                 (s2l "2024-01-01T00:00:00") (s2l "m1") three_key_world))
  = klists three_key_world.
Proof.
  apply (process_touches_only_its_notes (fun _ => None) (fun _ _ => None) false
           (fun _ => None) as_content (fun _ => s2l "{notes}")
           (s2l "2024-01-01T00:00:00") (s2l "m1") three_key_world
           (s2l "transcript:m1:0")).
  intros E. discriminate E.
Defined.

Lemma processed_notes_fetch_witness :
  fst (get_processed_notes (fun record => Some record) (s2l "m1")
         (snd (process_meeting_notes (fun _ => None) (fun _ _ => None) false
                 (fun _ => None) as_content (fun _ => s2l "{notes}")
                 (s2l "2024-01-01T00:00:00") (s2l "m1") three_key_world)))
  = Returned (NotesFound (s2l "m1") (s2l "{notes}")).
Proof.
  eapply (processed_notes_can_be_fetched (fun _ => None) (fun _ _ => None) false
            (fun _ => None) as_content (fun _ => s2l "{notes}")
            (s2l "2024-01-01T00:00:00") str (fun record => Some record)
            (s2l "m1") three_key_world).
  - vm_compute. reflexivity.
  - intros E. discriminate E.
  - reflexivity.
  - vm_compute. exact I.
Defined.

Lemma no_segments_no_notes_witness :
  fst (process_meeting_notes (fun _ => None) (fun _ _ => None) false
         (fun _ => None) as_content (fun _ => s2l "{notes}")
         (s2l "2024-01-01T00:00:00") (s2l "m1") expired_world) = None /\
  fst (get_processed_notes (fun record => Some record) (s2l "m1")
         (snd (process_meeting_notes (fun _ => None) (fun _ _ => None) false
                 (fun _ => None) as_content (fun _ => s2l "{notes}")
                 (s2l "2024-01-01T00:00:00") (s2l "m1") expired_world)))
  = Returned (NotesNotFound (s2l "m1")).
Proof.
  apply (no_segments_no_notes (fun _ => None) (fun _ _ => None) false
           (fun _ => None) as_content (fun _ => s2l "{notes}")
           (s2l "2024-01-01T00:00:00") str (fun record => Some record)
           (s2l "m1") expired_world).
  - reflexivity.
  - vm_compute. reflexivity.
  - reflexivity.
Defined.

Lemma deleted_notes_witness :
  (fst (delete_processed_notes (s2l "m1") cached_world) = Returned true \/
   fst (delete_processed_notes (s2l "m1") cached_world) = Returned false) /\
  (fst (delete_processed_notes (s2l "m1") cached_world) = Returned false <->
     kv cached_world (s2l "processed_notes:" ++ s2l "m1") = None /\
     klists cached_world (s2l "processed_notes:" ++ s2l "m1") = []) /\
  fst (get_processed_notes (fun record => Some record) (s2l "m1")
         (snd (delete_processed_notes (s2l "m1") cached_world)))
  = Returned (NotesNotFound (s2l "m1")).
Proof.
  apply (deleted_notes_are_gone str (fun record => Some record) (s2l "m1")
           cached_world).
  - exact I.
  - vm_compute. exact I.
Defined.

(** Deleting the cached notes answers true; deleting again answers
    false. *)
Example delete_twice :
  fst (delete_processed_notes (s2l "m1") cached_world) = Returned true /\
  fst (delete_processed_notes (s2l "m1")
         (snd (delete_processed_notes (s2l "m1") cached_world)))
  = Returned false.
Proof. vm_compute. split; reflexivity. Qed.
